(** * STORYLINES: layout hit-testing, drag pinning, node filters and
      graph analytics

    A shallow embedding of
    - [src/lib/graphEngine.ts]   (class [GraphEngine]),
    - the filter service         ([applyCriterion], [applyFilters], [filterNodes]),
    - [utils/analytics.ts]       ([calculateGraphStats], [exportStatsAsCSV]),
    - the saved filter presets of the filter service ([saveFilter],
      [getSavedFilters], [deleteFilter], [getFilterById],
      [updateFilterLastUsed], [createDefaultFilter], [getFilterStats]),
    - the bar widths that the analytics panel computes from the statistics,
    followed by the properties established about them.

    Conventions of the embedding
    - A JavaScript [number] that holds a count (an array length, a [Map]
      size) is a [nat]; a publication year is a [Z]; a coordinate or a ratio
      is an exact rational [Q].  Where the source divides, the quotient lives
      in [JS.number], which adds the IEEE results of a division by zero
      ([NaN], [Infinity]) to the rationals.  Rounding error of binary
      floating point is not modelled.
    - An optional property ([x?: number], [series?: string]) is an [option];
      [None] stands for [undefined] and for [null].
    - A [Map] or a [Set] is the list of its entries in insertion order, which
      is the order JavaScript iterates them in.
    - A [Record<string, Node>] is the list of its entries in the order
      [Object.keys] enumerates them; its keys are ordinary property names
      (not [__proto__]) and pairwise distinct, which the theorems that need
      it assume as [NoDup (Object_keys nodes)]. *)

From Stdlib Require Import List String Ascii Bool Arith ZArith QArith Qround.
From Stdlib Require Import Lia Lqa Permutation Sorted DecimalString DecimalNat.
Import ListNotations.

Local Open Scope nat_scope.
Local Open Scope string_scope.
Local Open Scope list_scope.

(* ===================================================================== *)
(** * Part I.  Definitions                                                *)
(* ===================================================================== *)

(** ** JavaScript values used by the three engines *)

Module JS.

(** *** Numbers produced by a division *)

Inductive number : Type :=
| Finite (q : Q)
| PosInfinity
| NegInfinity
| NaN.

Definition of_nat (n : nat) : number := Finite (inject_Z (Z.of_nat n)).


(** [a / b]. *)
Definition div (a b : number) : number :=
  match a, b with
  | Finite p, Finite q =>
      if Qeq_bool q 0 then
        (if Qeq_bool p 0 then NaN
         else if Qle_bool 0 p then PosInfinity else NegInfinity)
      else Finite (p / q)
  | Finite _, (PosInfinity | NegInfinity) => Finite 0
  | PosInfinity, Finite q => if Qle_bool 0 q then PosInfinity else NegInfinity
  | NegInfinity, Finite q => if Qle_bool 0 q then NegInfinity else PosInfinity
  | _, _ => NaN
  end.

(** [a * b]. *)
Definition mul (a b : number) : number :=
  match a, b with
  | Finite p, Finite q => Finite (p * q)
  | NaN, _ | _, NaN => NaN
  | Finite p, PosInfinity | PosInfinity, Finite p =>
      if Qeq_bool p 0 then NaN
      else if Qle_bool 0 p then PosInfinity else NegInfinity
  | Finite p, NegInfinity | NegInfinity, Finite p =>
      if Qeq_bool p 0 then NaN
      else if Qle_bool 0 p then NegInfinity else PosInfinity
  | PosInfinity, PosInfinity | NegInfinity, NegInfinity => PosInfinity
  | PosInfinity, NegInfinity | NegInfinity, PosInfinity => NegInfinity
  end.

(** [Math.round(a)]: the nearest integer, halves rounded up. *)
Definition Math_round (a : number) : number :=
  match a with
  | Finite q => Finite (inject_Z (Qfloor (q + (1 # 2))))
  | other => other
  end.

(** [a === b] on numbers ([NaN] differs from itself). *)
Definition number_eq (a b : number) : Prop :=
  match a, b with
  | Finite p, Finite q => p == q
  | PosInfinity, PosInfinity => True
  | NegInfinity, NegInfinity => True
  | _, _ => False
  end.

(** [Math.sqrt(s) <= r] for a rational [s >= 0]: the square root is not
    rational in general, so the comparison is made on the squares. *)
Definition sqrt_le (s r : Q) : bool :=
  Qle_bool 0 r && Qle_bool s (r * r).

(** *** Truthiness *)

Definition truthy_number (x : option Q) : bool :=
  match x with
  | Some q => negb (Qeq_bool q 0)
  | None => false
  end.

Definition truthy_int (x : option Z) : bool :=
  match x with
  | Some z => negb (z =? 0)%Z
  | None => false
  end.

Definition truthy_string (x : option string) : bool :=
  match x with
  | Some s => negb (s =? "")
  | None => false
  end.

(** *** [Set<string>], in insertion order *)

Abbreviation StrSet := (list string) (only parsing).

Definition Set_has (x : string) (s : StrSet) : bool :=
  existsb (String.eqb x) s.

Definition Set_add (x : string) (s : StrSet) : StrSet :=
  if Set_has x s then s else s ++ [x].

(** *** [Map<string, V>], in insertion order *)

Definition StrMap (V : Type) := list (string * V).

Fixpoint Map_get {V} (k : string) (m : StrMap V) : option V :=
  match m with
  | [] => None
  | (k', v) :: rest => if k =? k' then Some v else Map_get k rest
  end.

(** [m.set(k, v)] overwrites the value of an existing key in place and
    appends a new key at the end. *)
Fixpoint Map_set {V} (k : string) (v : V) (m : StrMap V) : StrMap V :=
  match m with
  | [] => [(k, v)]
  | (k', v') :: rest =>
      if k =? k' then (k', v) :: rest else (k', v') :: Map_set k v rest
  end.

Definition Map_keys {V} (m : StrMap V) : list string := map fst m.
Definition Map_values {V} (m : StrMap V) : list V := map snd m.

(** *** Arrays *)

(** [a.slice(0, n)]. *)
Definition slice_to {A} (n : nat) (a : list A) : list A := firstn n a.

(** [a.slice(-n)]. *)
Definition slice_last {A} (n : nat) (a : list A) : list A :=
  skipn (List.length a - n) a.

(** [a.sort((p, q) => key(q) - key(p))]: [Array.prototype.sort] is stable,
    so elements with equal keys keep their relative order; the unique such
    result is computed here by insertion from the right, each element
    going in front of the later ones that do not exceed it. *)
Fixpoint insert_desc {A} (key : A -> Z) (x : A) (sorted : list A) : list A :=
  match sorted with
  | [] => [x]
  | y :: rest =>
      if (key y <=? key x)%Z then x :: y :: rest
      else y :: insert_desc key x rest
  end.

Definition sort_desc {A} (key : A -> Z) (a : list A) : list A :=
  fold_right (insert_desc key) [] a.

(** [a.sort((p, q) => key(p) - key(q))]. *)
Definition sort_asc {A} (key : A -> Z) (a : list A) : list A :=
  sort_desc (fun x => (- key x)%Z) a.

(** [String(n)] and [`${n}`] for a count. *)
Definition nat_toString (n : nat) : string :=
  NilEmpty.string_of_uint (Nat.to_uint n).

(** [`${z}`] for an integer. *)
Definition int_toString (z : Z) : string :=
  match z with
  | Z0 => "0"
  | Zpos p => nat_toString (Pos.to_nat p)
  | Zneg p => String "-" (nat_toString (Pos.to_nat p))
  end.

End JS.

(** ** Layout engine: [src/lib/graphEngine.ts] *)

Module Layout.

Import JS.
Local Open Scope Q_scope.

(** [types/index.ts] *)
Inductive NodeType : Type :=
| author | book | genre | theme | character | movement.

Record GraphNode : Type := mkGraphNode {
  id : string;
  type : NodeType;
  label : string;
  x : option Q;
  y : option Q;
  vx : option Q;
  vy : option Q;
  fx : option Q;
  fy : option Q;
  expanded : bool;
  depth : Q
}.

Record GraphEngineConfig : Type := mkConfig {
  width : Q;
  height : Q;
  nodeRadius : Q;
  linkDistance : Q;
  chargeStrength : Q;
  enableCollision : bool
}.

(** The part of the d3 simulation the drag handlers touch. *)
Record Simulation : Type := mkSimulation {
  alpha : Q;
  alphaTarget : Q;
  running : bool
}.

Record GraphEngine : Type := mkEngine {
  simulation : option Simulation;
  config : GraphEngineConfig
}.

(** The defaults of the constructor. *)
Definition defaultConfig : GraphEngineConfig :=
  mkConfig 1200 800 8 100 (-300) true.

Definition getNodeTypeMultiplier (t : NodeType) : Q :=
  let multiplier :=
    match t with
    | author => 13 # 10
    | book => 1
    | genre => 11 # 10
    | theme => 9 # 10
    | character => 8 # 10
    | movement => 12 # 10
    end in
  if Qeq_bool multiplier 0 then 1 else multiplier.

Definition getNodeRadius (cfg : GraphEngineConfig) (node : GraphNode) : Q :=
  let baseRadius := nodeRadius cfg in
  let typeMultiplier := getNodeTypeMultiplier (type node) in
  let depthMultiplier := 1 + (3 - depth node) * (2 # 10) in
  baseRadius * typeMultiplier * depthMultiplier.

(** The body of the loop of [findNodeAt] for a node that passed the
    [!node.x || !node.y] test. *)
Definition withinRadius (cfg : GraphEngineConfig) (px py : Q)
           (node : GraphNode) (nx ny : Q) : bool :=
  let dx := px - nx in
  let dy := py - ny in
  let radius := getNodeRadius cfg node in
  sqrt_le (dx * dx + dy * dy) radius.

Fixpoint findNodeAt (cfg : GraphEngineConfig) (px py : Q)
         (nodes : list GraphNode) : option GraphNode :=
  match nodes with
  | [] => None
  | node :: rest =>
      if negb (truthy_number (x node)) || negb (truthy_number (y node))
      then findNodeAt cfg px py rest
      else
        match x node, y node with
        | Some nx, Some ny =>
            if withinRadius cfg px py node nx ny then Some node
            else findNodeAt cfg px py rest
        | _, _ => findNodeAt cfg px py rest
        end
  end.

(** The [event] argument of the drag handlers: [event.active] by its
    truthiness, and the pointer position. *)
Record DragEvent : Type := mkDragEvent {
  active : bool;
  event_x : Q;
  event_y : Q
}.

Definition sim_restart (s : Simulation) : Simulation :=
  mkSimulation (alpha s) (alphaTarget s) true.

Definition sim_alphaTarget (t : Q) (s : Simulation) : Simulation :=
  mkSimulation (alpha s) t (running s).

Definition set_pin (node : GraphNode) (px py : option Q) : GraphNode :=
  mkGraphNode (id node) (type node) (label node) (x node) (y node)
              (vx node) (vy node) px py (expanded node) (depth node).

(** The handlers mutate the engine's simulation and the node they are
    given; both are threaded through. *)
Definition dragStarted (eng : GraphEngine) (node : GraphNode)
           (event : DragEvent) : GraphEngine * GraphNode :=
  match simulation eng with
  | None => (eng, node)
  | Some sim =>
      let sim' :=
        if negb (active event)
        then sim_restart (sim_alphaTarget (3 # 10) sim) else sim in
      (mkEngine (Some sim') (config eng), set_pin node (x node) (y node))
  end.

Definition dragged (eng : GraphEngine) (node : GraphNode)
           (event : DragEvent) : GraphEngine * GraphNode :=
  (eng, set_pin node (Some (event_x event)) (Some (event_y event))).

Definition dragEnded (eng : GraphEngine) (node : GraphNode)
           (event : DragEvent) : GraphEngine * GraphNode :=
  match simulation eng with
  | None => (eng, node)
  | Some sim =>
      let sim' := if negb (active event) then sim_alphaTarget 0 sim else sim in
      (mkEngine (Some sim') (config eng), node)
  end.

(** A run of [dragged] calls, one per pointer-move event. *)
Definition draggedAll (eng : GraphEngine) (node : GraphNode)
           (moves : list DragEvent) : GraphEngine * GraphNode :=
  fold_left (fun st ev => dragged (fst st) (snd st) ev) moves (eng, node).

(** A whole gesture: press, the pointer moves, release. *)
Definition dragGesture (eng : GraphEngine) (node : GraphNode)
           (press : DragEvent) (moves : list DragEvent)
           (release : DragEvent) : GraphEngine * GraphNode :=
  let '(eng1, node1) := dragStarted eng node press in
  let '(eng2, node2) := draggedAll eng1 node1 moves in
  dragEnded eng2 node2 release.

(** *** Vocabulary of the properties *)

(** The test that [findNodeAt] applies to each node in turn. *)
Definition hit (cfg : GraphEngineConfig) (px py : Q) (node : GraphNode) : bool :=
  match x node, y node with
  | Some nx, Some ny =>
      truthy_number (Some nx) && truthy_number (Some ny)
      && withinRadius cfg px py node nx ny
  | _, _ => false
  end.

(** A book at depth 0 that the simulation has placed on the horizontal
    axis, at [(7, 0)]. *)
Definition nodeOnAxis : GraphNode :=
  mkGraphNode "n0" book "Dune" (Some 7%Q) (Some 0%Q) None None None None
              false 0%Q.

End Layout.

(** ** The graph model shared by the filter and the analytics code *)

Module Graph.

(** Modelled from the spec: the [types] module that declares [Node] and
    [Edge] is missing; a node carries the properties that the analytics
    and the filter code read ([type], [label], [description],
    [publicationYear], [series], [imageUrl]), an edge its two node
    references.  The node's id is the key it is stored under. *)
Record Node : Type := mkNode {
  type : string;
  label : string;
  description : option string;
  publicationYear : option Z;
  series : option string;
  imageUrl : option string
}.

Record Edge : Type := mkEdge {
  source : string;
  target : string
}.

(** [Record<string, Node>]: the entries in enumeration order. *)
Definition NodeRecord := JS.StrMap Node.

Definition Object_keys (nodes : NodeRecord) : list string := map fst nodes.
Definition Object_values (nodes : NodeRecord) : list Node := map snd nodes.
Definition Object_entries (nodes : NodeRecord) : list (string * Node) := nodes.

End Graph.

(** ** Filter engine: [applyCriterion], [applyFilters], [filterNodes] *)

Module Filter.

Import JS Graph.

Record NodeTypeFilterConfig : Type := mkNodeTypeFilterConfig {
  types_book : bool;
  types_author : bool;
  types_theme : bool
}.

Inductive YearMode : Type := range | before | after | exact.

Record PublicationYearFilterConfig : Type := mkPublicationYearFilterConfig {
  year_mode : YearMode;
  minYear : option Z;
  maxYear : option Z;
  exactYear : option Z
}.

Inductive SeriesMode : Type := include | exclude.

Record SeriesFilterConfig : Type := mkSeriesFilterConfig {
  series_mode : SeriesMode;
  seriesNames : list string
}.

Inductive MatchMode : Type := any | all.

Record DescriptionFilterConfig : Type := mkDescriptionFilterConfig {
  keywords : list string;
  matchMode : MatchMode;
  caseSensitive : bool
}.

Record CustomFilterConfig : Type := mkCustomFilterConfig {
  filterFunction : string
}.

(** [criterion.type] together with [criterion.config]: the source casts
    the configuration to the interface that the type tag names, so the two
    form one tagged union.  The [default] branches of the two [switch]
    statements are not reached by a tag or a mode of the declared types. *)
Inductive FilterConfig : Type :=
| nodeType (config : NodeTypeFilterConfig)
| publicationYear (config : PublicationYearFilterConfig)
| series (config : SeriesFilterConfig)
| description (config : DescriptionFilterConfig)
| custom (config : CustomFilterConfig).

Record FilterCriteria : Type := mkFilterCriteria {
  id : string;
  name : string;
  enabled : bool;
  config : FilterConfig
}.

(** [config.types[node.type] ?? true] *)
Definition types_lookup (config : NodeTypeFilterConfig) (t : string) : bool :=
  if t =? "book" then types_book config
  else if t =? "author" then types_author config
  else if t =? "theme" then types_theme config
  else true.

(** [a ?? b] *)
Definition nullish {A} (a : option A) (b : A) : A :=
  match a with Some v => v | None => b end.

(** [s || ''] *)
Definition orEmpty (s : option string) : string :=
  match s with Some v => v | None => "" end.

(** [haystack.includes(needle)] *)
Fixpoint String_includes (haystack needle : string) : bool :=
  if String.prefix needle haystack then true
  else
    match haystack with
    | EmptyString => false
    | String _ rest => String_includes rest needle
    end.

(** [names.includes(s)] *)
Definition Array_includes (names : list string) (s : string) : bool :=
  existsb (String.eqb s) names.

Section WithLowerCase.

(** [String.prototype.toLowerCase], whose case tables are those of the
    host. *)
Variable toLowerCase : string -> string.

Definition applyCriterion (node : Node) (criterion : FilterCriteria) : bool :=
  if negb (enabled criterion) then true
  else
    match config criterion with
    | nodeType config => types_lookup config (type node)
    | publicationYear config =>
        if negb (truthy_int (Graph.publicationYear node)) then false
        else
          match Graph.publicationYear node with
          | None => false
          | Some year =>
              match year_mode config with
              | range =>
                  (nullish (minYear config) 0 <=? year)%Z
                  && (year <=? nullish (maxYear config) 9999)%Z
              | before => (year <? nullish (maxYear config) 9999)%Z
              | after => (nullish (minYear config) 0 <? year)%Z
              | exact =>
                  match exactYear config with
                  | Some e => (year =? e)%Z
                  | None => false
                  end
              end
          end
    | series config =>
        let hasSeries :=
          truthy_string (Graph.series node)
          && match Graph.series node with
             | Some s => Array_includes (seriesNames config) s
             | None => false
             end in
        match series_mode config with
        | include => hasSeries
        | exclude => negb hasSeries
        end
    | description config =>
        let description := toLowerCase (orEmpty (Graph.description node)) in
        let matches :=
          map (fun keyword =>
                 let search :=
                   if caseSensitive config then keyword
                   else toLowerCase keyword in
                 String_includes description search)
              (keywords config) in
        match matchMode config with
        | all => forallb (fun m => m) matches
        | any => existsb (fun m => m) matches
        end
    | custom _ => true
    end.

Definition applyFilters (node : Node) (criteria : list FilterCriteria) : bool :=
  forallb (fun criterion => applyCriterion node criterion) criteria.

(** [filtered[id] = node] is [Map_set]: the entries arrive in the
    enumeration order of [nodes], so a new key goes to the end. *)
Definition filterNodes (nodes : NodeRecord)
           (criteria : list FilterCriteria) : NodeRecord :=
  fold_left
    (fun filtered entry =>
       let '(id, node) := entry in
       if applyFilters node criteria then Map_set id node filtered
       else filtered)
    (Object_entries nodes) [].

End WithLowerCase.

End Filter.

(** ** Analytics engine: [utils/analytics.ts] *)

Module NodeStats.
Record t : Type := mk {
  total : nat;
  byType_book : nat;
  byType_author : nat;
  byType_theme : nat;
  withImages : nat;
  withDescriptions : nat;
  withSeries : nat
}.
End NodeStats.

Module NodeConnection.
Record t : Type := mk {
  nodeId : string;
  label : string;
  connections : nat
}.
End NodeConnection.

Module EdgeStats.
Record t : Type := mk {
  total : nat;
  averageConnections : JS.number;
  mostConnected : list NodeConnection.t;
  leastConnected : list NodeConnection.t
}.
End EdgeStats.

Module ConnectivityStats.
Record t : Type := mk {
  averageDegree : JS.number;
  density : JS.number;
  clusters : nat;
  isolatedNodes : nat
}.
End ConnectivityStats.

Module ContentStats.
Record t : Type := mk {
  totalSeries : nat;
  seriesDistribution : list (string * nat);
  topThemes : list (string * nat);
  topAuthors : list (string * nat)
}.
End ContentStats.

Module TemporalStats.
Record t : Type := mk {
  earliestYear : option Z;
  latestYear : option Z;
  yearRange : Z;
  booksPerDecade : list (string * nat)
}.
End TemporalStats.

Module GraphStats.
Record t : Type := mk {
  nodes : NodeStats.t;
  edges : EdgeStats.t;
  connectivity : ConnectivityStats.t;
  content : ContentStats.t;
  temporal : TemporalStats.t
}.
End GraphStats.

Module Analytics.

Import JS Graph.

Definition count {A} (p : A -> bool) (a : list A) : nat :=
  List.length (filter p a).

(** [m.get(k) || 0] *)
Definition getOrZero (m : StrMap nat) (k : string) : nat :=
  match Map_get k m with Some c => c | None => 0 end.

(** [m.set(k, (m.get(k) || 0) + 1)] *)
Definition increment (k : string) (m : StrMap nat) : StrMap nat :=
  Map_set k (getOrZero m k + 1) m.

Definition sum (a : list nat) : nat := fold_left Nat.add a 0.

(** [Math.round(v * scale) / scale] *)
Definition roundTo (scale : nat) (v : number) : number :=
  div (Math_round (mul v (of_nat scale))) (of_nat scale).

(** *** [calculateNodeStats] *)

Definition calculateNodeStats (nodes : list Node) : NodeStats.t :=
  NodeStats.mk
    (List.length nodes)
    (count (fun n => type n =? "book") nodes)
    (count (fun n => type n =? "author") nodes)
    (count (fun n => type n =? "theme") nodes)
    (count (fun n => truthy_string (imageUrl n)) nodes)
    (count (fun n => truthy_string (description n)) nodes)
    (count (fun n => truthy_string (series n)) nodes).

(** *** [calculateEdgeStats] *)

Definition connectionCount (edges : list Edge) : StrMap nat :=
  fold_left (fun m edge => increment (target edge) (increment (source edge) m))
            edges [].

(** [nodes[nodeId]?.label || nodeId] *)
Definition labelOrId (nodes : NodeRecord) (nodeId : string) : string :=
  match Map_get nodeId nodes with
  | Some n => if label n =? "" then nodeId else label n
  | None => nodeId
  end.

Definition nodeConnections (nodes : NodeRecord) (edges : list Edge)
  : list NodeConnection.t :=
  sort_desc (fun c => Z.of_nat (NodeConnection.connections c))
    (map (fun entry =>
            NodeConnection.mk (fst entry) (labelOrId nodes (fst entry))
                              (snd entry))
         (connectionCount edges)).

Definition avgConnections (edges : list Edge) : number :=
  let counts := connectionCount edges in
  let totalConnections := sum (Map_values counts) in
  if (0 <? List.length counts)%nat
  then div (of_nat totalConnections) (of_nat (List.length counts))
  else Finite 0.

Definition calculateEdgeStats (nodes : NodeRecord) (edges : list Edge)
  : EdgeStats.t :=
  let ranked := nodeConnections nodes edges in
  EdgeStats.mk
    (List.length edges)
    (roundTo 10 (avgConnections edges))
    (slice_to 5 ranked)
    (rev (slice_last 5 ranked)).

(** *** [calculateConnectivityStats] *)

Definition Adjacency := StrMap StrSet.

(** [adjacency.get(k)?.add(x)] *)
Definition adjacency_add (k x : string) (adjacency : Adjacency) : Adjacency :=
  match Map_get k adjacency with
  | Some neighbors => Map_set k (Set_add x neighbors) adjacency
  | None => adjacency
  end.

(** [Object.keys(nodes).forEach(nodeId => adjacency.set(nodeId, new Set()))] *)
Definition emptySets (nodeIds : list string) : Adjacency :=
  fold_left (fun m nodeId => Map_set nodeId ([] : StrSet) m) nodeIds [].

(** [edges.forEach(edge => ...)], each edge entered at both of its ends. *)
Definition addEdges (m : Adjacency) (edges : list Edge) : Adjacency :=
  fold_left
    (fun m edge =>
       adjacency_add (target edge) (source edge)
                     (adjacency_add (source edge) (target edge) m))
    edges m.

(** Build adjacency list. *)
Definition buildAdjacency (nodes : NodeRecord) (edges : list Edge) : Adjacency :=
  addEdges (emptySets (Object_keys nodes)) edges.

(** The set [visited] is represented by the ids that were passed to
    [visited.add], in call order: [visited.has(id)] holds when [id]
    occurs in that sequence, and an id occurs twice only if [add] was
    called on a member. *)
Abbreviation Visited := (list string) (only parsing).

Definition visited_has (nodeId : string) (visited : Visited) : bool :=
  Set_has nodeId visited.

Definition visited_add (nodeId : string) (visited : Visited) : Visited :=
  visited ++ [nodeId].

(** The recursive closure [dfs].  [fuel] bounds the depth of the
    recursion; [None] means the bound was reached. *)
Fixpoint dfs (fuel : nat) (adjacency : Adjacency) (nodeId : string)
         (visited : Visited) : option Visited :=
  match fuel with
  | O => None
  | S fuel' =>
      let visited := visited_add nodeId visited in
      match Map_get nodeId adjacency with
      | None => Some visited
      | Some neighbors =>
          fold_left
            (fun state neighbor =>
               match state with
               | None => None
               | Some visited =>
                   if negb (visited_has neighbor visited)
                   then dfs fuel' adjacency neighbor visited
                   else Some visited
               end)
            neighbors (Some visited)
      end
  end.

(** One iteration of [Object.keys(nodes).forEach] over the pair
    [(visited, clusters)]. *)
Definition launch (fuel : nat) (adjacency : Adjacency)
           (state : option (Visited * nat)) (nodeId : string)
  : option (Visited * nat) :=
  match state with
  | None => None
  | Some (visited, clusters) =>
      if negb (visited_has nodeId visited)
      then
        match dfs fuel adjacency nodeId visited with
        | Some visited' => Some (visited', S clusters)
        | None => None
        end
      else Some (visited, clusters)
  end.

Definition components (fuel : nat) (adjacency : Adjacency)
           (nodeIds : list string) : option (Visited * nat) :=
  fold_left (launch fuel adjacency) nodeIds (Some ([], 0)).

(** The same loop, keeping the ids it launched [dfs] from in place of
    their number. *)
Definition launchFrom (fuel : nat) (adjacency : Adjacency)
           (state : option (Visited * list string)) (nodeId : string)
  : option (Visited * list string) :=
  match state with
  | None => None
  | Some (visited, roots) =>
      if negb (visited_has nodeId visited)
      then
        match dfs fuel adjacency nodeId visited with
        | Some visited' => Some (visited', roots ++ [nodeId])
        | None => None
        end
      else Some (visited, roots)
  end.

Definition launches (fuel : nat) (adjacency : Adjacency)
           (nodeIds : list string) : option (Visited * list string) :=
  fold_left (launchFrom fuel adjacency) nodeIds (Some ([], [])).

(** The ids at the ends of the edges, two per edge. *)
Definition endpoints (edges : list Edge) : list string :=
  flat_map (fun edge => [source edge; target edge]) edges.

(** No chain of nested [dfs] calls is longer than the number of ids that
    occur in the snapshot, because each call adds a new id to [visited]. *)
Definition dfsFuel (nodes : NodeRecord) (edges : list Edge) : nat :=
  S (List.length (Object_keys nodes ++ endpoints edges)).

Definition averageDegree (nodeCount : nat) (adjacency : Adjacency) : number :=
  let totalDegree := sum (map (fun neighbors => List.length neighbors)
                              (Map_values adjacency)) in
  if (0 <? nodeCount)%nat then div (of_nat totalDegree) (of_nat nodeCount)
  else Finite 0.

Definition maxEdges (nodeCount : nat) : Q :=
  (inject_Z (Z.of_nat nodeCount * (Z.of_nat nodeCount - 1)) / 2)%Q.

Definition density (nodeCount edgeCount : nat) : number :=
  if negb (Qle_bool (maxEdges nodeCount) 0)
  then div (of_nat edgeCount) (Finite (maxEdges nodeCount))
  else Finite 0.

Definition isolatedNodes (adjacency : Adjacency) : nat :=
  count (fun neighbors => List.length neighbors =? 0)%nat (Map_values adjacency).

Definition calculateConnectivityStats (nodes : NodeRecord) (edges : list Edge)
  : option ConnectivityStats.t :=
  let nodeCount := List.length (Object_keys nodes) in
  let edgeCount := List.length edges in
  let adjacency := buildAdjacency nodes edges in
  match components (dfsFuel nodes edges) adjacency (Object_keys nodes) with
  | None => None
  | Some (_, clusters) =>
      Some (ConnectivityStats.mk
              (roundTo 10 (averageDegree nodeCount adjacency))
              (roundTo 1000 (density nodeCount edgeCount))
              clusters
              (isolatedNodes adjacency))
  end.

(** *** [calculateContentStats] *)

Definition byCount (entry : string * nat) : Z := Z.of_nat (snd entry).

Definition seriesMap (nodes : list Node) : StrMap nat :=
  fold_left
    (fun m n => match series n with Some s => increment s m | None => m end)
    (filter (fun n => truthy_string (series n)) nodes) [].

(** [e.source === l || e.target === l] *)
Definition touches (l : string) (e : Edge) : bool :=
  (source e =? l) || (target e =? l).

Definition themeConnections (nodes : list Node) (edges : list Edge)
  : StrMap nat :=
  let themes := filter (fun n => type n =? "theme") nodes in
  fold_left
    (fun m theme =>
       let connections := count (touches (label theme)) edges in
       Map_set (label theme) connections m)
    themes [].

(** [nodes.find(n => n.label === l)?.type === 'book'] *)
Definition isBookLabel (nodes : list Node) (l : string) : bool :=
  match find (fun n => label n =? l) nodes with
  | Some n => type n =? "book"
  | None => false
  end.

(** The filter of the book count of the author labelled [l]. *)
Definition touchesBook (nodes : list Node) (l : string) (e : Edge) : bool :=
  touches l e
  && (isBookLabel nodes (source e) || isBookLabel nodes (target e)).

Definition authorBooks (nodes : list Node) (edges : list Edge) : StrMap nat :=
  let authors := filter (fun n => type n =? "author") nodes in
  fold_left
    (fun m author =>
       let bookCount := count (touchesBook nodes (label author)) edges in
       Map_set (label author) bookCount m)
    authors [].

Definition calculateContentStats (nodes : list Node) (edges : list Edge)
  : ContentStats.t :=
  let seriesDistribution := sort_desc byCount (seriesMap nodes) in
  let topThemes := slice_to 10 (sort_desc byCount (themeConnections nodes edges)) in
  let topAuthors := slice_to 10 (sort_desc byCount (authorBooks nodes edges)) in
  ContentStats.mk
    (List.length (seriesMap nodes))
    (slice_to 10 seriesDistribution)
    topThemes
    topAuthors.

(** *** [calculateTemporalStats] *)

Definition digit_of (c : ascii) : option Z :=
  let n := nat_of_ascii c in
  if ((48 <=? n) && (n <=? 57))%nat then Some (Z.of_nat (n - 48)) else None.

Fixpoint parse_digits (s : string) (acc : option Z) : option Z :=
  match s with
  | EmptyString => acc
  | String c rest =>
      match digit_of c with
      | Some d =>
          parse_digits rest
            (Some (10 * match acc with Some a => a | None => 0 end + d)%Z)
      | None => acc
      end
  end.

(** [parseInt(s)] for a string without leading blanks: an optional minus
    sign and the longest run of digits; [None] is [NaN]. *)
Definition parseInt (s : string) : option Z :=
  match s with
  | String "-" rest => option_map Z.opp (parse_digits rest None)
  | _ => parse_digits s None
  end.

Definition decadeLabel (year : Z) : string :=
  let decade := (year / 10 * 10)%Z in
  (int_toString decade ++ "s")%string.

(** The comparator [parseInt(a.decade) - parseInt(b.decade)]; every label
    starts with the digits of its decade, so [parseInt] is a number. *)
Definition byDecade (entry : string * nat) : Z :=
  match parseInt (fst entry) with Some z => z | None => 0%Z end.

Definition calculateTemporalStats (nodes : list Node) : TemporalStats.t :=
  let years :=
    map (fun n => match publicationYear n with Some y => y | None => 0%Z end)
        (filter (fun n => truthy_int (publicationYear n)) nodes) in
  match years with
  | [] => TemporalStats.mk None None 0 []
  | y :: ys =>
      let earliestYear := fold_left Z.min ys y in
      let latestYear := fold_left Z.max ys y in
      let yearRange := (latestYear - earliestYear)%Z in
      let decadeMap :=
        fold_left (fun m year => increment (decadeLabel year) m) years [] in
      let booksPerDecade := sort_asc byDecade decadeMap in
      TemporalStats.mk (Some earliestYear) (Some latestYear) yearRange
                       booksPerDecade
  end.

(** *** [calculateGraphStats] *)

Definition calculateGraphStats (nodes : NodeRecord) (edges : list Edge)
  : option GraphStats.t :=
  let nodeList := Object_values nodes in
  match calculateConnectivityStats nodes edges with
  | None => None
  | Some connectivity =>
      Some (GraphStats.mk
              (calculateNodeStats nodeList)
              (calculateEdgeStats nodes edges)
              connectivity
              (calculateContentStats nodeList edges)
              (calculateTemporalStats nodeList))
  end.

(** *** [exportStatsAsCSV] *)

Definition LF : string := String (ascii_of_nat 10) EmptyString.

(** [`${year}`] for [number | null] *)
Definition year_toString (year : option Z) : string :=
  match year with Some z => int_toString z | None => "null" end.

Section WithNumberToString.

(** [Number.prototype.toString] for the rounded ratios, whose shortest
    decimal rendering is the host's. *)
Variable Number_toString : number -> string.

Definition exportStatsAsCSV (stats : GraphStats.t) : string :=
  let nodes := GraphStats.nodes stats in
  let edges := GraphStats.edges stats in
  let connectivity := GraphStats.connectivity stats in
  let temporal := GraphStats.temporal stats in
  let lines :=
    [ "Graph Statistics Export";
      "";
      "Node Statistics";
      "Total Nodes," ++ nat_toString (NodeStats.total nodes);
      "Books," ++ nat_toString (NodeStats.byType_book nodes);
      "Authors," ++ nat_toString (NodeStats.byType_author nodes);
      "Themes," ++ nat_toString (NodeStats.byType_theme nodes);
      "With Images," ++ nat_toString (NodeStats.withImages nodes);
      "";
      "Edge Statistics";
      "Total Edges," ++ nat_toString (EdgeStats.total edges);
      "Average Connections,"
        ++ Number_toString (EdgeStats.averageConnections edges);
      "";
      "Connectivity";
      "Average Degree,"
        ++ Number_toString (ConnectivityStats.averageDegree connectivity);
      "Density," ++ Number_toString (ConnectivityStats.density connectivity);
      "Clusters," ++ nat_toString (ConnectivityStats.clusters connectivity);
      "" ]%string
    ++ (if truthy_int (TemporalStats.earliestYear temporal)
        then
          [ "Temporal Range";
            "Earliest," ++ year_toString (TemporalStats.earliestYear temporal);
            "Latest," ++ year_toString (TemporalStats.latestYear temporal);
            "Range," ++ int_toString (TemporalStats.yearRange temporal)
              ++ " years" ]%string
        else []) in
  String.concat LF lines.

End WithNumberToString.

(** *** Vocabulary of the properties *)

(** The exact ratio of the connection increments, two per edge, to the
    number of distinct ids at the ends of the edges; 0 when there is none. *)
Definition connectionRatio (edges : list Edge) : number :=
  let distinct := List.length (nodup string_dec (endpoints edges)) in
  if (0 <? distinct)%nat
  then div (of_nat (2 * List.length edges)) (of_nat distinct)
  else Finite 0.


(** Some edge joins [a] and [b], in either direction. *)
Definition linked (edges : list Edge) (a b : string) : Prop :=
  exists e, In e edges
            /\ ((source e = a /\ target e = b) \/ (source e = b /\ target e = a)).

(** [b] is in the neighbour set of [a]. *)
Definition step (adjacency : Adjacency) (a b : string) : Prop :=
  exists neighbors, Map_get a adjacency = Some neighbors /\ In b neighbors.

(** [b] is connected to [a] by a chain of neighbours. *)
Inductive reach (adjacency : Adjacency) (a : string) : string -> Prop :=
| reach_refl : reach adjacency a a
| reach_step b c :
    reach adjacency a b -> step adjacency b c -> reach adjacency a c.

(** No neighbour of a member of [visited] is outside [visited]. *)
Definition explored (adjacency : Adjacency) (visited : Visited) : Prop :=
  forall a b, In a visited -> step adjacency a b -> In b visited.

(** What the launch loop maintains: [visited] is explored, every visited
    id is connected to a root, every root has an entry, and no two roots
    are connected. *)
Record components_inv (adjacency : Adjacency)
       (state : Visited * list string) : Prop := {
  comp_explored : explored adjacency (fst state);
  comp_roots : incl (snd state) (fst state);
  comp_entries : forall r, In r (snd state) -> Map_get r adjacency <> None;
  comp_covered :
    forall x, In x (fst state) ->
              exists r, In r (snd state) /\ reach adjacency r x;
  comp_apart :
    forall r1 r2, In r1 (snd state) -> In r2 (snd state) ->
                  reach adjacency r1 r2 -> r1 = r2
}.

(** The neighbour sets of [adjacency] only hold ids of [universe]. *)
Definition closed (adjacency : Adjacency) (universe : list string) : Prop :=
  forall k neighbors,
    Map_get k adjacency = Some neighbors -> incl neighbors universe.

(** What a call [dfs(nodeId)] that starts from [visited] leaves in
    [visited']. *)
Record dfs_post (adjacency : Adjacency) (universe : list string)
       (nodeId : string) (visited visited' : Visited) : Prop := {
  post_NoDup : NoDup visited';
  post_incl : incl visited' universe;
  post_extends : exists added, visited' = visited ++ nodeId :: added;
  post_neighbors :
    forall neighbors,
      Map_get nodeId adjacency = Some neighbors -> incl neighbors visited'
}.

Definition countRoots (state : Visited * list string) : Visited * nat :=
  (fst state, List.length (snd state)).

(** What holds of [(visited, roots)] between two iterations. *)
Record launch_inv (universe : list string)
       (state : Visited * list string) : Prop := {
  inv_NoDup : NoDup (fst state);
  inv_incl : incl (fst state) universe;
  inv_roots : incl (snd state) (fst state);
  inv_roots_NoDup : NoDup (snd state)
}.

(** [id] is the id of a node. *)
Definition isNode (nodes : NodeRecord) (id : string) : bool :=
  existsb (String.eqb id) (Object_keys nodes).

(** Both ends of [e] are nodes. *)
Definition attached (nodes : NodeRecord) (e : Edge) : bool :=
  isNode nodes (source e) && isNode nodes (target e).

(** [m'] holds the neighbour sets of [m] restricted to node ids, and [m]
    has no entry for an id that is not a node. *)
Definition restricts (nodes : NodeRecord) (m m' : Adjacency) : Prop :=
  (forall a, Map_get a m' = option_map (filter (isNode nodes)) (Map_get a m))
  /\ (forall a, isNode nodes a = false -> Map_get a m = None).

End Analytics.

(** ** Reading an export back *)

Module CSV.

Import JS.

(** [text.split('\n')] *)
Fixpoint split_lines (text : string) : list string :=
  match text with
  | EmptyString => [EmptyString]
  | String c rest =>
      if Ascii.eqb c (ascii_of_nat 10) then EmptyString :: split_lines rest
      else
        match split_lines rest with
        | line :: lines => String c line :: lines
        | [] => [String c EmptyString]
        end
  end.

(** Modelled from the spec: the source has no reader for its export; the
    format is newline-separated text in which a [key,value] row is cut at
    its first comma, and a line without a comma (a section title, a blank
    line) is not a row. *)
Fixpoint split_row (line : string) : option (string * string) :=
  match line with
  | EmptyString => None
  | String c rest =>
      if Ascii.eqb c "," then Some (EmptyString, rest)
      else
        match split_row rest with
        | Some (key, value) => Some (String c key, value)
        | None => None
        end
  end.

Definition rows (text : string) : list (string * string) :=
  flat_map (fun line => match split_row line with
                        | Some row => [row]
                        | None => []
                        end)
           (split_lines text).

(** [Number(value)] for a run of decimal digits. *)
Definition parseNumber (value : string) : option nat :=
  option_map Nat.of_uint (NilEmpty.uint_of_string value).

(** Modelled from the spec: re-parsing the [key,value] rows for a key
    gives the number in the first row with that key. *)
Definition valueOf (key : string) (text : string) : option nat :=
  match find (fun row => fst row =? key) (rows text) with
  | Some row => parseNumber (snd row)
  | None => None
  end.

(** No character of [s] is [c]. *)
Fixpoint lacks (c : ascii) (s : string) : Prop :=
  match s with
  | EmptyString => True
  | String a rest => Ascii.eqb a c = false /\ lacks c rest
  end.

End CSV.

(** ** Filter engine: statistics and saved presets *)

Module Presets.

Import JS Graph Filter.

Record SavedFilter : Type := mkSavedFilter {
  id : string;
  name : string;
  description : string;
  criteria : list FilterCriteria;
  createdAt : string;
  lastUsed : option string
}.

(** What [localStorage.getItem(STORAGE_KEY)] holds.  A text written by
    [JSON.stringify] is kept as the array it reads back as: the filters are
    made of strings, booleans, integers and arrays, which [JSON.parse]
    gives back as they were. *)
Inductive Item : Type :=
| Missing                                (* [null], or the empty text *)
| Filters (saved : list SavedFilter)     (* the text of an array of filters *)
| NotAnArray                             (* the text of another JSON value *)
| Malformed.                             (* a text that [JSON.parse] rejects *)

(** The storage: the item under the key, and which arrays [setItem]
    accepts without raising for lack of room. *)
Record Storage : Type := mkStorage {
  item : Item;
  accepts : list SavedFilter -> bool
}.

(** What [JSON.parse] gave: an array, or a value without array methods. *)
Inductive Parsed : Type :=
| Arr (filters : list SavedFilter)
| NonArr.

(** A call that returns or raises. *)
Inductive outcome (A : Type) : Type :=
| Returns (a : A)
| Throws.

Arguments Returns {A} a.
Arguments Throws {A}.

(** The [catch] turns a rejected text into the empty array. *)
Definition getSavedFilters (s : Storage) : Parsed :=
  match item s with
  | Missing => Arr []
  | Filters saved => Arr saved
  | NotAnArray => NonArr
  | Malformed => Arr []
  end.

(** [saved.findIndex(f => f.id === id)], [None] for -1. *)
Fixpoint findIndex (filterId : string) (saved : list SavedFilter) : option nat :=
  match saved with
  | [] => None
  | f :: rest =>
      if id f =? filterId then Some 0
      else option_map S (findIndex filterId rest)
  end.

(** [saved[index] = filter] for an index within the array. *)
Fixpoint assign (index : nat) (filter : SavedFilter) (saved : list SavedFilter)
  : list SavedFilter :=
  match saved, index with
  | [], _ => []
  | _ :: rest, O => filter :: rest
  | f :: rest, S index' => f :: assign index' filter rest
  end.

(** [if (index >= 0) saved[index] = filter; else saved.push(filter)] *)
Definition upsert (filter : SavedFilter) (saved : list SavedFilter)
  : list SavedFilter :=
  match findIndex (id filter) saved with
  | Some index => assign index filter saved
  | None => saved ++ [filter]
  end.

(** The result and the storage afterwards; a raised [TypeError] or a
    refused [setItem] ends in the [catch], which returns [false]. *)
Definition saveFilter (filter : SavedFilter) (s : Storage) : bool * Storage :=
  match getSavedFilters s with
  | NonArr => (false, s)
  | Arr saved =>
      let saved' := upsert filter saved in
      if accepts s saved' then (true, mkStorage (Filters saved') (accepts s))
      else (false, s)
  end.

Definition deleteFilter (filterId : string) (s : Storage) : bool * Storage :=
  match getSavedFilters s with
  | NonArr => (false, s)
  | Arr saved =>
      let filtered := filter (fun f => negb (id f =? filterId)) saved in
      if accepts s filtered
      then (true, mkStorage (Filters filtered) (accepts s))
      else (false, s)
  end.

(** [filters.find(f => f.id === filterId) || null]; there is no [catch]
    here. *)
Definition getFilterById (filterId : string) (s : Storage)
  : outcome (option SavedFilter) :=
  match getSavedFilters s with
  | NonArr => Throws
  | Arr filters => Returns (find (fun f => id f =? filterId) filters)
  end.

(** [now] is [new Date().toISOString()]. *)
Definition updateFilterLastUsed (now : string) (filterId : string) (s : Storage)
  : outcome Storage :=
  match getFilterById filterId s with
  | Throws => Throws
  | Returns None => Returns s
  | Returns (Some f) =>
      let f' := mkSavedFilter (id f) (name f) (description f) (criteria f)
                              (createdAt f) (Some now) in
      Returns (snd (saveFilter f' s))
  end.

(** [now1] and [now2] are the two readings of [Date.now()], [created] is
    [new Date().toISOString()]. *)
Definition createDefaultFilter (now1 now2 : nat) (created : string)
           (name : string) : SavedFilter :=
  mkSavedFilter
    ("filter-" ++ nat_toString now1)%string
    name
    ""
    [ mkFilterCriteria ("criterion-" ++ nat_toString now2)%string
                       "Node Types" true
                       (nodeType (mkNodeTypeFilterConfig true true true)) ]
    created
    None.

Record FilterStats : Type := mkFilterStats {
  total : nat;
  filtered : nat;
  percentage : number
}.

Section WithLowerCase.

Variable toLowerCase : string -> string.

Definition getFilterStats (nodes : NodeRecord)
           (criteria : list FilterCriteria) : FilterStats :=
  let total := List.length (Object_keys nodes) in
  let filtered :=
    List.length (Object_keys (filterNodes toLowerCase nodes criteria)) in
  mkFilterStats
    total filtered
    (if (0 <? total)%nat
     then mul (div (of_nat filtered) (of_nat total)) (Finite 100)
     else Finite 0).

End WithLowerCase.

(** *** Vocabulary of the properties *)

(** The ids of the saved filters. *)
Definition ids (saved : list SavedFilter) : list string := map id saved.


End Presets.

(** ** Layout engine: forces and life cycle *)

Module Forces.

Import JS Layout.
Local Open Scope Q_scope.

(** [types/index.ts] *)
Inductive EdgeType : Type :=
| wrote | influenced | belongs_to | features | related_to | part_of.

Record GraphEdge : Type := mkGraphEdge {
  edge_id : string;
  source : string;
  target : string;
  edge_type : EdgeType;
  edge_label : option string;
  strength : Q
}.

(** The [distance] accessor given to the link force in [initialize]. *)
Definition linkForceDistance (cfg : GraphEngineConfig) (d : GraphEdge) : Q :=
  let baseDistance := linkDistance cfg in
  baseDistance * (1 + strength d * (5 # 10)).

Definition sim_stop (s : Simulation) : Simulation :=
  mkSimulation (alpha s) (alphaTarget s) false.

Definition sim_alpha (a : Q) (s : Simulation) : Simulation :=
  mkSimulation a (alphaTarget s) (running s).

(** [this.simulation?.restart()] *)
Definition start (eng : GraphEngine) : GraphEngine :=
  match simulation eng with
  | Some sim => mkEngine (Some (sim_restart sim)) (config eng)
  | None => eng
  end.

(** [this.simulation?.stop()] *)
Definition stop (eng : GraphEngine) : GraphEngine :=
  match simulation eng with
  | Some sim => mkEngine (Some (sim_stop sim)) (config eng)
  | None => eng
  end.

(** [this.simulation?.alpha(0.5).restart()] *)
Definition reheat (eng : GraphEngine) : GraphEngine :=
  match simulation eng with
  | Some sim => mkEngine (Some (sim_restart (sim_alpha (5 # 10) sim))) (config eng)
  | None => eng
  end.

(** [this.simulation?.stop(); this.simulation = null] *)
Definition destroy (eng : GraphEngine) : GraphEngine :=
  mkEngine None (config eng).

(** The calls a host makes on an engine and a node, other than
    [initialize] and [updateGraph]. *)
Inductive Call : Type :=
| CallStart
| CallStop
| CallReheat
| CallDragStarted (event : DragEvent)
| CallDragEnded (event : DragEvent).

Definition call (state : GraphEngine * GraphNode) (c : Call)
  : GraphEngine * GraphNode :=
  let '(eng, node) := state in
  match c with
  | CallStart => (start eng, node)
  | CallStop => (stop eng, node)
  | CallReheat => (reheat eng, node)
  | CallDragStarted event => dragStarted eng node event
  | CallDragEnded event => dragEnded eng node event
  end.

Definition calls (state : GraphEngine * GraphNode) (cs : list Call)
  : GraphEngine * GraphNode :=
  fold_left call cs state.

End Forces.

(** ** The analytics panel: bar widths *)

Module Panel.

Import JS.

(** [(count / total) * 100], the width in percent of a breakdown or
    quality bar. *)
Definition barWidth (count total : nat) : number :=
  mul (div (of_nat count) (of_nat total)) (Finite 100).

(** [Math.max(...counts)] *)
Definition Math_max (counts : list nat) : number :=
  match counts with
  | [] => NegInfinity
  | c :: rest => of_nat (fold_left Nat.max rest c)
  end.

(** The width in percent of the bar of a decade with [count] books. *)
Definition decadeWidth (booksPerDecade : list (string * nat)) (count : nat)
  : number :=
  let maxCount := Math_max (map snd booksPerDecade) in
  mul (div (of_nat count) maxCount) (Finite 100).

End Panel.

(** ** Vocabulary of the ranking and histogram properties *)

Module Ranking.

Import JS Graph Analytics.

(** [a] may stand before [b] in a ranking by [key], largest first. *)
Definition descending {A} (key : A -> Z) (a b : A) : Prop :=
  (key b <= key a)%Z.

(** The distinct elements of a list, in the order of their first
    appearance. *)
Definition firstAppearances (l : list string) : list string :=
  fold_left (fun seen x => Set_add x seen) l [].

(** One counter per distinct key, incremented once per occurrence. *)
Definition histogram (keys : list string) : StrMap nat :=
  fold_left (fun m k => increment k m) keys [].

(** The ranked entry of an id with its connection count. *)
Definition ranked (nodes : NodeRecord) (entry : string * nat)
  : NodeConnection.t :=
  NodeConnection.mk (fst entry) (labelOrId nodes (fst entry)) (snd entry).

(** The nodes with a truthy publication year, and their years. *)
Definition dated (nodes : list Node) : list Node :=
  filter (fun n => truthy_int (publicationYear n)) nodes.

Definition yearOf (n : Node) : Z :=
  match publicationYear n with Some y => y | None => 0%Z end.

(** [Math.floor(year / 10) * 10] *)
Definition decadeOf (year : Z) : Z := (year / 10 * 10)%Z.

(** The entry of the decade that starts in the year [start]: its label
    and the number of dated nodes in it. *)
Definition decadeEntry (nodes : list Node) (start : Z) : string * nat :=
  ((int_toString start ++ "s")%string,
   count (fun n => (decadeOf (yearOf n) =? start)%Z) (dated nodes)).

(** The series of the nodes that have one. *)
Definition seriesNamesOf (nodes : list Node) : list string :=
  map (fun n => match series n with Some s => s | None => "" end)
      (filter (fun n => truthy_string (series n)) nodes).

End Ranking.

(** ** Sample snapshots *)

Definition sampleNodes : Graph.NodeRecord :=
  [ ("dune", Graph.mkNode "book" "Dune" (Some "Desert planet") (Some 1965%Z)
                          (Some "Dune Chronicles") None);
    ("herbert", Graph.mkNode "author" "Frank Herbert" None None None None);
    ("ecology", Graph.mkNode "theme" "Ecology" None None None None) ].

Definition sampleCriteria : list Filter.FilterCriteria :=
  [ Filter.mkFilterCriteria "c1" "Years" true
      (Filter.publicationYear
         (Filter.mkPublicationYearFilterConfig Filter.after (Some 1900%Z)
                                               None None));
    Filter.mkFilterCriteria "c2" "Types" false
      (Filter.nodeType (Filter.mkNodeTypeFilterConfig false false false)) ].

Definition starNodes : Graph.NodeRecord :=
  [ ("A", Graph.mkNode "book" "A" None None None None);
    ("B", Graph.mkNode "author" "B" None None None None);
    ("C", Graph.mkNode "theme" "C" None None None None) ].

Definition starEdges : list Graph.Edge :=
  [ Graph.mkEdge "A" "B"; Graph.mkEdge "A" "C" ].

Definition loneNode : Graph.NodeRecord :=
  [ ("A", Graph.mkNode "book" "A" None None None None) ].

Definition danglingEdge : list Graph.Edge := [ Graph.mkEdge "A" "X" ].

(** A node whose type is none of book, author and theme. *)
Definition genreNode : Graph.Node :=
  Graph.mkNode "genre" "Science fiction" None None None None.

Definition samplePreset : Presets.SavedFilter :=
  Presets.mkSavedFilter "f1" "Dated nodes" "" sampleCriteria
                        "2024-05-01T09:30:00.000Z" None.

(** A storage without an item, and with room for every write. *)
Definition emptyStorage : Presets.Storage :=
  Presets.mkStorage Presets.Missing (fun _ => true).

Definition savedStorage : Presets.Storage :=
  Presets.mkStorage (Presets.Filters [samplePreset]) (fun _ => true).

(** A book at depth 2, off both axes. *)
Definition nodeOffAxis : Layout.GraphNode :=
  Layout.mkGraphNode "n1" Layout.book "Emma" (Some 3%Q) (Some 4%Q) None None
                     None None false 2%Q.

Definition sampleLink : Forces.GraphEdge :=
  Forces.mkGraphEdge "e1" "n0" "n1" Forces.related_to None (1 # 2)%Q.

Definition sampleStats : GraphStats.t :=
  GraphStats.mk
    (NodeStats.mk 3 1 1 1 0 1 1)
    (EdgeStats.mk 2 (JS.Finite (13 # 10)) [] [])
    (ConnectivityStats.mk (JS.Finite (13 # 10)) (JS.Finite (667 # 1000)) 1 0)
    (ContentStats.mk 1 [("Dune Chronicles", 1)] [] [])
    (TemporalStats.mk (Some 1965%Z) (Some 1965%Z) 0%Z [("1960s", 1)]).

(* ===================================================================== *)
(** * Part II.  Properties                                                *)
(* ===================================================================== *)

(** ** Layout engine *)

Section LayoutFacts.

Import JS Layout.

(** [findNodeAt] returns the first node, in input order, that has two
    truthy coordinates and whose disk contains the point. *)
Lemma findNodeAt_first_hit cfg px py nodes :
  findNodeAt cfg px py nodes = find (hit cfg px py) nodes.
Proof.
  induction nodes as [|node rest IH]; simpl; [reflexivity|].
  unfold hit.
  destruct (x node) as [nx|], (y node) as [ny|]; simpl; rewrite IH;
    try reflexivity.
  - destruct (Qeq_bool nx 0), (Qeq_bool ny 0); simpl; try reflexivity.
  - destruct (Qeq_bool nx 0); reflexivity.
Qed.

(** C5.  [findNodeAt] does not return every positioned node whose disk
    contains the point: the node [nodeOnAxis] has a position, the point
    [(7, 0)] is at distance 0 from it, within its radius 12.8, and
    [findNodeAt] still answers [null], because the test
    [!node.x || !node.y] also rejects a coordinate equal to 0. *)
Theorem findNodeAt_skips_node_on_axis :
  x nodeOnAxis = Some 7%Q /\ y nodeOnAxis = Some 0%Q
  /\ withinRadius defaultConfig 7 0 nodeOnAxis 7 0 = true
  /\ findNodeAt defaultConfig 7 0 [nodeOnAxis] = None.
Proof. repeat split; reflexivity. Qed.

Lemma draggedAll_app eng node moves last :
  draggedAll eng node (moves ++ [last])
  = dragged (fst (draggedAll eng node moves))
            (snd (draggedAll eng node moves)) last.
Proof. unfold draggedAll. rewrite fold_left_app. reflexivity. Qed.

Lemma dragEnded_node eng node release :
  snd (dragEnded eng node release) = node.
Proof. unfold dragEnded. destruct (simulation eng); reflexivity. Qed.

(** C6.  After [dragStarted], one or more [dragged] calls and
    [dragEnded], the node's [fx] and [fy] are the coordinates of the last
    [dragged] call; in particular they are not null. *)
Theorem drag_pin_persists eng node press moves last release :
  let node' := snd (dragGesture eng node press (moves ++ [last]) release) in
  fx node' = Some (event_x last) /\ fy node' = Some (event_y last).
Proof.
  unfold dragGesture.
  destruct (dragStarted eng node press) as [eng1 node1].
  rewrite draggedAll_app.
  destruct (draggedAll eng1 node1 moves) as [eng2 node2]; simpl.
  rewrite dragEnded_node. simpl. split; reflexivity.
Qed.

End LayoutFacts.

(** ** Association lists as maps *)

Section MapFacts.

Import JS.
Context {V : Type}.

Lemma Map_set_fresh (k : string) (v : V) (m : StrMap V) :
  ~ In k (Map_keys m) -> Map_set k v m = m ++ [(k, v)].
Proof.
  induction m as [|[k' v'] m IH]; simpl; intros Hk; [reflexivity|].
  destruct (String.eqb_spec k k') as [->|Hne]; [tauto|].
  rewrite IH by tauto. reflexivity.
Qed.

Lemma Map_keys_set (k : string) (v : V) (m : StrMap V) :
  Map_keys (Map_set k v m)
  = if existsb (String.eqb k) (Map_keys m) then Map_keys m
    else Map_keys m ++ [k].
Proof.
  induction m as [|[k' v'] m IH]; simpl; [reflexivity|].
  destruct (String.eqb_spec k k') as [->|Hne]; simpl; [reflexivity|].
  rewrite IH. destruct (existsb _ _); reflexivity.
Qed.

Lemma existsb_eqb_In (k : string) (l : list string) :
  existsb (String.eqb k) l = true <-> In k l.
Proof.
  rewrite existsb_exists. split.
  - intros [y [Hy He]]. apply String.eqb_eq in He. now subst.
  - intros Hk. exists k. split; [assumption|apply String.eqb_refl].
Qed.

Lemma existsb_eqb_not_In (k : string) (l : list string) :
  existsb (String.eqb k) l = false <-> ~ In k l.
Proof.
  rewrite <- existsb_eqb_In. destruct (existsb _ _); split; congruence.
Qed.

Lemma In_Map_keys_set (k k' : string) (v : V) (m : StrMap V) :
  In k' (Map_keys (Map_set k v m)) <-> k' = k \/ In k' (Map_keys m).
Proof.
  rewrite Map_keys_set.
  destruct (existsb (String.eqb k) (Map_keys m)) eqn:E.
  - apply existsb_eqb_In in E. split; [auto|]. intros [->|H]; assumption.
  - rewrite in_app_iff. simpl. intuition congruence.
Qed.

Lemma Map_get_set_same (k : string) (v : V) (m : StrMap V) :
  Map_get k (Map_set k v m) = Some v.
Proof.
  induction m as [|[k' v'] m IH]; simpl.
  - now rewrite String.eqb_refl.
  - destruct (String.eqb_spec k k') as [->|Hne]; simpl.
    + now rewrite String.eqb_refl.
    + destruct (String.eqb_spec k k'); [contradiction|assumption].
Qed.

Lemma Map_get_set_other (k k' : string) (v : V) (m : StrMap V) :
  k' <> k -> Map_get k' (Map_set k v m) = Map_get k' m.
Proof.
  intros Hne. induction m as [|[k1 v1] m IH]; simpl.
  - destruct (String.eqb_spec k' k); [contradiction|reflexivity].
  - destruct (String.eqb_spec k k1) as [->|Hk]; simpl.
    + destruct (String.eqb_spec k' k1); [contradiction|reflexivity].
    + rewrite IH. reflexivity.
Qed.

Lemma Map_get_None (k : string) (m : StrMap V) :
  Map_get k m = None <-> ~ In k (Map_keys m).
Proof.
  induction m as [|[k' v'] m IH]; simpl; [tauto|].
  destruct (String.eqb_spec k k') as [->|Hne].
  - split; [discriminate|tauto].
  - rewrite IH. intuition congruence.
Qed.

Lemma Map_get_In (k : string) (v : V) (m : StrMap V) :
  Map_get k m = Some v -> In (k, v) m.
Proof.
  induction m as [|[k' v'] m IH]; simpl; [discriminate|].
  destruct (String.eqb_spec k k') as [->|Hne].
  - intros [= ->]. now left.
  - auto.
Qed.

Lemma length_Map_set (k : string) (v : V) (m : StrMap V) :
  List.length (Map_set k v m)
  = if existsb (String.eqb k) (Map_keys m) then List.length m
    else S (List.length m).
Proof.
  induction m as [|[k' v'] m IH]; simpl; [reflexivity|].
  destruct (String.eqb_spec k k') as [->|Hne]; simpl; [reflexivity|].
  rewrite IH. destruct (existsb _ _); reflexivity.
Qed.

End MapFacts.

Lemma NoDup_keys_filter {V} (p : string * V -> bool) (m : JS.StrMap V) :
  NoDup (JS.Map_keys m) -> NoDup (JS.Map_keys (filter p m)).
Proof.
  induction m as [|[k v] m IH]; cbn [filter JS.Map_keys map fst]; intros Hnd;
    [constructor|].
  inversion Hnd as [|? ? Hk Hrest]; subst.
  destruct (p (k, v)); cbn [map fst]; [constructor|]; try now apply IH.
  intros Hin. apply Hk. unfold JS.Map_keys in Hin. apply in_map_iff in Hin.
  destruct Hin as [[k' v'] [Hfst Hin]]. apply filter_In in Hin.
  apply in_map_iff. exists (k', v'). tauto.
Qed.

(** ** Filter engine *)

Section FilterFacts.

Import JS Graph Filter.

Variable toLowerCase : string -> string.

Lemma applyCriterion_disabled node criterion :
  enabled criterion = false -> applyCriterion toLowerCase node criterion = true.
Proof. intros H. unfold applyCriterion. now rewrite H. Qed.

Lemma applyFilters_iff node criteria :
  applyFilters toLowerCase node criteria = true
  <-> forall c, In c criteria -> enabled c = true ->
                applyCriterion toLowerCase node c = true.
Proof.
  unfold applyFilters. rewrite forallb_forall. split; intros H c Hc.
  - intros _. now apply H.
  - destruct (enabled c) eqn:E; [now apply H|now apply applyCriterion_disabled].
Qed.

Lemma filterNodes_from (criteria : list FilterCriteria)
      (nodes acc : NodeRecord) :
  NoDup (Map_keys acc ++ Object_keys nodes) ->
  fold_left
    (fun filtered entry =>
       let '(id, node) := entry in
       if applyFilters toLowerCase node criteria then Map_set id node filtered
       else filtered)
    nodes acc
  = acc ++ filter (fun entry => applyFilters toLowerCase (snd entry) criteria)
                  nodes.
Proof.
  revert acc. induction nodes as [|[id node] nodes IH]; intros acc Hnd; simpl.
  - now rewrite app_nil_r.
  - simpl in Hnd. destruct (applyFilters toLowerCase node criteria).
    + rewrite Map_set_fresh.
      * rewrite IH.
        -- now rewrite <- app_assoc.
        -- unfold Map_keys. rewrite map_app. simpl. rewrite <- app_assoc.
           exact Hnd.
      * apply NoDup_remove_2 in Hnd. intros Hin. apply Hnd.
        apply in_or_app. now left.
    + apply IH. now apply NoDup_remove_1 in Hnd.
Qed.

(** Under distinct keys [filterNodes] keeps, in order, the entries whose
    node passes [applyFilters]. *)
Lemma filterNodes_filter nodes criteria :
  NoDup (Object_keys nodes) ->
  filterNodes toLowerCase nodes criteria
  = filter (fun entry => applyFilters toLowerCase (snd entry) criteria) nodes.
Proof.
  intros Hnd. unfold filterNodes, Object_entries.
  now rewrite filterNodes_from.
Qed.

Lemma filter_all_true {A} (p : A -> bool) (l : list A) :
  (forall a, In a l -> p a = true) -> filter p l = l.
Proof.
  induction l as [|a l IH]; simpl; intros H; [reflexivity|].
  rewrite (H a) by now left. f_equal. apply IH. intros b Hb. apply H. now right.
Qed.

(** C4.  A node is in the filtered result iff it passes every enabled
    criterion; a disabled criterion always passes; an empty list of
    criteria, or one whose criteria are all disabled, gives back the node
    set unchanged. *)
Theorem filterNodes_and_composition nodes criteria :
  NoDup (Object_keys nodes) ->
  (forall id node,
      In (id, node) (filterNodes toLowerCase nodes criteria)
      <-> In (id, node) nodes
          /\ forall c, In c criteria -> enabled c = true ->
                       applyCriterion toLowerCase node c = true)
  /\ (forall node c,
         enabled c = false -> applyCriterion toLowerCase node c = true)
  /\ filterNodes toLowerCase nodes [] = nodes
  /\ ((forall c, In c criteria -> enabled c = false) ->
      filterNodes toLowerCase nodes criteria = nodes).
Proof.
  intros Hnd. repeat split.
  - rewrite filterNodes_filter in H by assumption.
    apply filter_In in H. tauto.
  - rewrite filterNodes_filter in H by assumption.
    apply filter_In in H. destruct H as [_ H]. simpl in H.
    now apply applyFilters_iff.
  - intros [Hin Hpass]. rewrite filterNodes_filter by assumption.
    apply filter_In. split; [assumption|]. simpl. now apply applyFilters_iff.
  - intros node c. apply applyCriterion_disabled.
  - rewrite filterNodes_filter by assumption. now apply filter_all_true.
  - intros Hoff. rewrite filterNodes_filter by assumption.
    apply filter_all_true. intros [id node] _. simpl.
    apply applyFilters_iff. intros c Hc He. rewrite (Hoff c Hc) in He.
    discriminate.
Qed.

(** C8.  An enabled publication-year criterion, whatever its mode and
    bounds, rejects a node that has no publication year. *)
Theorem year_filter_excludes_undated_node node criterion config :
  Graph.publicationYear node = None ->
  enabled criterion = true ->
  Filter.config criterion = Filter.publicationYear config ->
  applyCriterion toLowerCase node criterion = false.
Proof.
  intros Hyear Hon Hcfg. unfold applyCriterion.
  rewrite Hon, Hcfg, Hyear. reflexivity.
Qed.

End FilterFacts.

Lemma filterNodes_and_composition_witness :
  NoDup (Graph.Object_keys sampleNodes)
  /\ Filter.filterNodes (fun s => s) sampleNodes [] = sampleNodes.
Proof.
  assert (Hnd : NoDup (Graph.Object_keys sampleNodes)).
  { repeat constructor; simpl; intuition discriminate. }
  split; [exact Hnd|].
  exact (proj1 (proj2 (proj2 (filterNodes_and_composition
                                (fun s => s) sampleNodes sampleCriteria Hnd)))).
Defined.

Lemma year_filter_excludes_undated_node_witness :
  let node := Graph.mkNode "author" "Frank Herbert" None None None None in
  let config :=
    Filter.mkPublicationYearFilterConfig Filter.after (Some 1900%Z) None None in
  let criterion :=
    Filter.mkFilterCriteria "c1" "Years" true (Filter.publicationYear config) in
  Graph.publicationYear node = None
  /\ Filter.enabled criterion = true
  /\ Filter.applyCriterion (fun s => s) node criterion = false.
Proof.
  cbv zeta. split; [reflexivity|]. split; [reflexivity|].
  apply (year_filter_excludes_undated_node
           (fun s => s) _ _
           (Filter.mkPublicationYearFilterConfig Filter.after (Some 1900%Z)
                                                 None None));
    reflexivity.
Defined.

(** ** CSV export *)

Section ExportFacts.

Import JS Analytics CSV.

Variable Number_toString : number -> string.

Lemma lacks_append c s t : lacks c s -> lacks c t -> lacks c (s ++ t)%string.
Proof. induction s; simpl; intuition. Qed.

Lemma lacks_string_of_uint c d :
  (nat_of_ascii c < 48)%nat -> lacks c (NilEmpty.string_of_uint d).
Proof.
  intros Hc.
  induction d; cbn [NilEmpty.string_of_uint lacks]; try exact I;
    (split; [|assumption]);
    apply Ascii.eqb_neq; intros <-; cbv in Hc; lia.
Qed.

Lemma lacks_nat_toString c n :
  (nat_of_ascii c < 48)%nat -> lacks c (nat_toString n).
Proof. apply lacks_string_of_uint. Qed.

Lemma split_lines_append line rest :
  lacks (ascii_of_nat 10) line ->
  split_lines (line ++ LF ++ rest)
  = line :: split_lines rest.
Proof.
  induction line as [|a line IH]; intros H; [reflexivity|].
  destruct H as [Ha Hl]. cbn [append split_lines].
  rewrite Ha. rewrite (IH Hl). reflexivity.
Qed.

Lemma split_row_append key value :
  lacks "," key -> split_row (key ++ String "," value) = Some (key, value).
Proof.
  induction key as [|a key IH]; simpl; intros H; [reflexivity|].
  destruct H as [Ha Hk]. rewrite Ha. now rewrite (IH Hk).
Qed.

Lemma split_row_lacks line : lacks "," line -> split_row line = None.
Proof.
  induction line as [|a line IH]; simpl; intros H; [reflexivity|].
  destruct H as [Ha Hl]. rewrite Ha. now rewrite (IH Hl).
Qed.

(** The rows of a text that starts with a title or a blank line. *)
Lemma rows_title line rest :
  lacks (ascii_of_nat 10) line -> lacks "," line ->
  rows (line ++ LF ++ rest) = rows rest.
Proof.
  intros Hl Hc. unfold rows. rewrite split_lines_append by assumption.
  simpl. now rewrite split_row_lacks.
Qed.

(** The rows of a text that starts with a [key,value] row. *)
Lemma rows_row key value rest :
  lacks (ascii_of_nat 10) key -> lacks "," key ->
  lacks (ascii_of_nat 10) value ->
  rows ((key ++ String "," value) ++ LF ++ rest) = (key, value) :: rows rest.
Proof.
  intros Hk Hc Hv. unfold rows. rewrite split_lines_append.
  - simpl. now rewrite split_row_append.
  - apply lacks_append; [assumption|]. simpl. split; [reflexivity|assumption].
Qed.

Lemma concat_cons sep (x y : string) (l : list string) :
  String.concat sep (x :: y :: l) = (x ++ sep ++ String.concat sep (y :: l))%string.
Proof. reflexivity. Qed.

Lemma parseNumber_nat_toString n : parseNumber (nat_toString n) = Some n.
Proof.
  unfold parseNumber, nat_toString. rewrite NilEmpty.usu. simpl.
  now rewrite DecimalNat.Unsigned.of_to.
Qed.

Ltac lacks_tac :=
  solve [ exact I
        | repeat split
        | apply lacks_nat_toString; cbv; lia ].

(** C9.  Reading the rows ["Total Nodes"] and ["Total Edges"] back from
    the export of any statistics gives [stats.nodes.total] and
    [stats.edges.total]. *)
Theorem exportStatsAsCSV_totals_roundtrip (stats : GraphStats.t) :
  valueOf "Total Nodes" (exportStatsAsCSV Number_toString stats)
  = Some (NodeStats.total (GraphStats.nodes stats))
  /\ valueOf "Total Edges" (exportStatsAsCSV Number_toString stats)
     = Some (EdgeStats.total (GraphStats.edges stats)).
Proof.
  unfold exportStatsAsCSV, valueOf.
  cbv zeta. cbn [app]. rewrite !concat_cons.
  rewrite 3 rows_title by lacks_tac.
  change ("Total Nodes," ++ ?v)%string with ("Total Nodes" ++ String "," v)%string.
  change ("Books," ++ ?v)%string with ("Books" ++ String "," v)%string.
  change ("Authors," ++ ?v)%string with ("Authors" ++ String "," v)%string.
  change ("Themes," ++ ?v)%string with ("Themes" ++ String "," v)%string.
  change ("With Images," ++ ?v)%string
    with ("With Images" ++ String "," v)%string.
  change ("Total Edges," ++ ?v)%string
    with ("Total Edges" ++ String "," v)%string.
  rewrite rows_row by lacks_tac.
  split.
  - cbn [find fst snd String.eqb Ascii.eqb Bool.eqb]. apply parseNumber_nat_toString.
  - rewrite 4 rows_row by lacks_tac.
    rewrite 2 rows_title by lacks_tac.
    rewrite rows_row by lacks_tac.
    cbn [find fst snd String.eqb Ascii.eqb Bool.eqb].
    apply parseNumber_nat_toString.
Qed.

End ExportFacts.

(** ** Numbers *)

Section NumberFacts.

Import JS Analytics.

Lemma of_nat_nonzero n : (0 < n)%nat -> Qeq_bool (inject_Z (Z.of_nat n)) 0 = false.
Proof.
  intros Hn. destruct (Qeq_bool _ _) eqn:E; [|reflexivity].
  apply Qeq_bool_eq in E. unfold Qeq in E. simpl in E. lia.
Qed.



Lemma roundTo_zero scale :
  (0 < scale)%nat -> number_eq (roundTo scale (Finite 0)) (Finite 0).
Proof.
  intros Hs. unfold roundTo, of_nat, mul, Math_round, div.
  rewrite of_nat_nonzero by assumption. unfold number_eq.
  assert (E : (0 * inject_Z (Z.of_nat scale) + (1 # 2) == 1 # 2)%Q) by ring.
  rewrite E. reflexivity.
Qed.






End NumberFacts.

(** ** Depth-first search *)

Section DfsFacts.

Import JS Graph Analytics.

Lemma visited_has_In id (visited : Visited) :
  visited_has id visited = true <-> In id visited.
Proof. apply existsb_eqb_In. Qed.

Lemma visited_has_not_In id (visited : Visited) :
  visited_has id visited = false <-> ~ In id visited.
Proof. apply existsb_eqb_not_In. Qed.

Lemma NoDup_snoc (l : list string) x : NoDup l -> ~ In x l -> NoDup (l ++ [x]).
Proof.
  intros Hl Hx. apply NoDup_app; [assumption|repeat constructor; simpl; tauto|].
  intros a Ha [<-|[]]. contradiction.
Qed.

Lemma NoDup_room (l universe : list string) x :
  NoDup l -> incl l universe -> In x universe -> ~ In x l ->
  (List.length l < List.length universe)%nat.
Proof.
  intros Hl Hincl Hx Hnx.
  assert (H : (List.length (x :: l) <= List.length universe)%nat).
  { apply NoDup_incl_length; [now constructor|].
    intros a [<-|Ha]; [assumption|now apply Hincl]. }
  simpl in H. lia.
Qed.

Section Termination.

Variable adjacency : Adjacency.
Variable universe : list string.
Hypothesis Hclosed : closed adjacency universe.

(** The loop over the neighbours of a node, given that the nested calls
    with [fuel] succeed. *)
Lemma dfs_neighbors fuel :
  (forall nodeId visited,
      ~ In nodeId visited -> NoDup visited -> In nodeId universe ->
      incl visited universe ->
      (List.length universe < fuel + List.length visited)%nat ->
      exists visited', dfs fuel adjacency nodeId visited = Some visited'
                       /\ dfs_post adjacency universe nodeId visited visited') ->
  forall neighbors visited,
    incl neighbors universe -> NoDup visited -> incl visited universe ->
    (List.length universe < fuel + List.length visited)%nat ->
    exists visited',
      fold_left
        (fun state neighbor =>
           match state with
           | None => None
           | Some visited =>
               if negb (visited_has neighbor visited)
               then dfs fuel adjacency neighbor visited
               else Some visited
           end)
        neighbors (Some visited) = Some visited'
      /\ NoDup visited' /\ incl visited' universe
      /\ (exists added, visited' = visited ++ added)
      /\ incl neighbors visited'.
Proof.
  intros IH. induction neighbors as [|nb rest IHrest];
    intros visited Hns Hnd Hincl Hlen; simpl.
  - exists visited. repeat split; try assumption.
    + exists []. now rewrite app_nil_r.
    + intros a [].
  - assert (Hnb : In nb universe) by (apply Hns; now left).
    assert (Hrest : incl rest universe) by (intros a Ha; apply Hns; now right).
    destruct (visited_has nb visited) eqn:Ehas; simpl.
    + destruct (IHrest visited Hrest Hnd Hincl Hlen)
        as (v' & Hrun & Hnd' & Hincl' & [added Hext] & Hcov).
      exists v'. repeat split; try assumption.
      * now exists added.
      * intros a [<-|Ha]; [|now apply Hcov].
        rewrite Hext. apply in_or_app. left. now apply visited_has_In.
    + apply visited_has_not_In in Ehas.
      destruct (IH nb visited Ehas Hnd Hnb Hincl Hlen) as (v1 & Hrun1 & Hpost).
      destruct Hpost as [Hnd1 Hincl1 [added1 Hext1] _].
      rewrite Hrun1.
      assert (Hlen1 : (List.length universe < fuel + List.length v1)%nat).
      { rewrite Hext1, length_app. lia. }
      destruct (IHrest v1 Hrest Hnd1 Hincl1 Hlen1)
        as (v' & Hrun & Hnd' & Hincl' & [added Hext] & Hcov).
      exists v'. repeat split; try assumption.
      * exists (nb :: added1 ++ added). rewrite Hext, Hext1.
        now rewrite <- app_assoc.
      * intros a [<-|Ha]; [|now apply Hcov].
        rewrite Hext, Hext1. apply in_or_app. left. apply in_or_app. right.
        now left.
Qed.

(** [dfs] returns when its fuel exceeds the number of ids it can still
    add to [visited]. *)
Lemma dfs_returns fuel :
  forall nodeId visited,
    ~ In nodeId visited -> NoDup visited -> In nodeId universe ->
    incl visited universe ->
    (List.length universe < fuel + List.length visited)%nat ->
    exists visited', dfs fuel adjacency nodeId visited = Some visited'
                     /\ dfs_post adjacency universe nodeId visited visited'.
Proof.
  induction fuel as [|fuel IH]; intros nodeId visited Hfresh Hnd Hid Hincl Hlen.
  - pose proof (NoDup_room visited universe nodeId Hnd Hincl Hid Hfresh). lia.
  - simpl. unfold visited_add.
    assert (Hnd1 : NoDup (visited ++ [nodeId])) by now apply NoDup_snoc.
    assert (Hincl1 : incl (visited ++ [nodeId]) universe).
    { intros a Ha. apply in_app_or in Ha. destruct Ha as [Ha|[<-|[]]];
        [now apply Hincl|assumption]. }
    destruct (Map_get nodeId adjacency) as [neighbors|] eqn:Eget.
    + assert (Hlen1 : (List.length universe
                       < fuel + List.length (visited ++ [nodeId]))%nat).
      { rewrite length_app. simpl. lia. }
      destruct (dfs_neighbors fuel IH neighbors (visited ++ [nodeId])
                              (Hclosed _ _ Eget) Hnd1 Hincl1 Hlen1)
        as (v' & Hrun & Hnd' & Hincl' & [added Hext] & Hcov).
      exists v'. split; [exact Hrun|]. constructor; try assumption.
      * exists added. rewrite Hext. now rewrite <- app_assoc.
      * intros ns Hns. assert (ns = neighbors) by congruence. now subst.
    + exists (visited ++ [nodeId]). split; [reflexivity|].
      constructor; try assumption.
      * now exists [].
      * intros ns Hns. congruence.
Qed.

End Termination.

End DfsFacts.

(** ** The adjacency map *)

Section AdjacencyFacts.

Import JS Graph Analytics.

Lemma In_Set_add b x (s : StrSet) : In b (Set_add x s) <-> b = x \/ In b s.
Proof.
  unfold Set_add. destruct (Set_has x s) eqn:E.
  - apply existsb_eqb_In in E. split; [auto|]. intros [->|H]; assumption.
  - rewrite in_app_iff. simpl. intuition congruence.
Qed.

Lemma Map_keys_adjacency_add k x (m : Adjacency) :
  Map_keys (adjacency_add k x m) = Map_keys m.
Proof.
  unfold adjacency_add. destruct (Map_get k m) as [ns|] eqn:E; [|reflexivity].
  rewrite Map_keys_set.
  destruct (existsb (String.eqb k) (Map_keys m)) eqn:Ex; [reflexivity|].
  apply existsb_eqb_not_In in Ex. apply Map_get_None in Ex. congruence.
Qed.

Lemma Map_get_adjacency_add a k x (m : Adjacency) :
  Map_get a (adjacency_add k x m)
  = if a =? k then option_map (Set_add x) (Map_get a m) else Map_get a m.
Proof.
  unfold adjacency_add. destruct (String.eqb_spec a k) as [->|Hne].
  - destruct (Map_get k m) as [ns|] eqn:E; simpl.
    + apply Map_get_set_same.
    + now rewrite E.
  - destruct (Map_get k m) as [ns|] eqn:E; [|reflexivity].
    now apply Map_get_set_other.
Qed.

Lemma Map_keys_addEdges edges : forall m, Map_keys (addEdges m edges) = Map_keys m.
Proof.
  induction edges as [|e edges IH]; intros m; [reflexivity|].
  unfold addEdges in *. cbn [fold_left]. rewrite IH.
  now rewrite !Map_keys_adjacency_add.
Qed.

Lemma linked_cons e edges a b :
  linked (e :: edges) a b
  <-> (source e = a /\ target e = b) \/ (source e = b /\ target e = a)
      \/ linked edges a b.
Proof.
  unfold linked. split.
  - intros [e' [[<-|Hin] H]]; [tauto|]. right. right. now exists e'.
  - intros [H|[H|[e' [Hin H]]]].
    + exists e. split; [now left|tauto].
    + exists e. split; [now left|tauto].
    + exists e'. split; [now right|assumption].
Qed.

Lemma Map_get_addEdges a edges :
  forall (m : Adjacency),
    match Map_get a m with
    | Some before =>
        exists neighbors,
          Map_get a (addEdges m edges) = Some neighbors
          /\ forall b, In b neighbors <-> In b before \/ linked edges a b
    | None => Map_get a (addEdges m edges) = None
    end.
Proof.
  induction edges as [|e edges IH]; intros m.
  - cbn. destruct (Map_get a m) as [before|]; [|reflexivity].
    exists before. split; [reflexivity|]. intros b. split; [auto|].
    intros [H|[e [[] _]]]. assumption.
  - unfold addEdges in *. cbn [fold_left].
    specialize (IH (adjacency_add (target e) (source e)
                                  (adjacency_add (source e) (target e) m))).
    rewrite !Map_get_adjacency_add in IH.
    destruct (Map_get a m) as [before|] eqn:Eget.
    + destruct (String.eqb_spec a (target e)) as [Ht|Ht],
               (String.eqb_spec a (source e)) as [Hs|Hs];
        cbn [option_map] in IH;
        destruct IH as (neighbors & Hrun & Hchar);
        exists neighbors; (split; [exact Hrun|]);
        intros b; rewrite Hchar, linked_cons, ?In_Set_add; subst;
        intuition congruence.
    + destruct (a =? target e), (a =? source e); exact IH.
Qed.

Lemma emptySets_snoc nodeIds nodeId :
  emptySets (nodeIds ++ [nodeId]) = Map_set nodeId [] (emptySets nodeIds).
Proof. unfold emptySets. now rewrite fold_left_app. Qed.

Lemma In_Map_keys_emptySets nodeIds a :
  In a (Map_keys (emptySets nodeIds)) <-> In a nodeIds.
Proof.
  induction nodeIds as [|nodeId nodeIds IH] using rev_ind; [reflexivity|].
  rewrite emptySets_snoc, In_Map_keys_set, IH, in_app_iff. simpl.
  intuition congruence.
Qed.

Lemma Map_keys_emptySets nodeIds :
  NoDup nodeIds -> Map_keys (emptySets nodeIds) = nodeIds.
Proof.
  induction nodeIds as [|nodeId nodeIds IH] using rev_ind; intros Hnd;
    [reflexivity|].
  apply NoDup_remove in Hnd. rewrite app_nil_r in Hnd. destruct Hnd as [Hnd Hx].
  rewrite emptySets_snoc, Map_keys_set, (IH Hnd).
  assert (E : existsb (String.eqb nodeId) nodeIds = false)
    by now apply existsb_eqb_not_In.
  now rewrite E.
Qed.

Lemma Map_get_emptySets nodeIds a :
  Map_get a (emptySets nodeIds) = if in_dec string_dec a nodeIds then Some [] else None.
Proof.
  induction nodeIds as [|nodeId nodeIds IH] using rev_ind; [reflexivity|].
  rewrite emptySets_snoc.
  destruct (string_dec a nodeId) as [->|Hne].
  - rewrite Map_get_set_same.
    destruct (in_dec string_dec nodeId (nodeIds ++ [nodeId])) as [|Hn];
      [reflexivity|].
    exfalso. apply Hn. apply in_or_app. right. now left.
  - rewrite Map_get_set_other by assumption. rewrite IH.
    destruct (in_dec string_dec a nodeIds) as [Hi|Hi],
             (in_dec string_dec a (nodeIds ++ [nodeId])) as [Hj|Hj];
      try reflexivity; exfalso.
    + apply Hj. apply in_or_app. now left.
    + apply in_app_or in Hj. destruct Hj as [Hj|[Hj|[]]]; [tauto|congruence].
Qed.

Lemma buildAdjacency_unfold nodes edges :
  buildAdjacency nodes edges = addEdges (emptySets (Object_keys nodes)) edges.
Proof. reflexivity. Qed.

(** The keys of the adjacency map are the node ids: an id that only
    occurs in edges has no entry. *)
Lemma In_Map_keys_buildAdjacency nodes edges a :
  In a (Map_keys (buildAdjacency nodes edges)) <-> In a (Object_keys nodes).
Proof.
  rewrite buildAdjacency_unfold, Map_keys_addEdges.
  apply In_Map_keys_emptySets.
Qed.

Lemma Map_keys_buildAdjacency nodes edges :
  NoDup (Object_keys nodes) ->
  Map_keys (buildAdjacency nodes edges) = Object_keys nodes.
Proof.
  intros Hnd. rewrite buildAdjacency_unfold, Map_keys_addEdges.
  now apply Map_keys_emptySets.
Qed.

(** The neighbour set of a node holds the other endpoint of each edge at
    the node, whether or not that endpoint is a node. *)
Lemma Map_get_buildAdjacency nodes edges a :
  In a (Object_keys nodes) ->
  exists neighbors,
    Map_get a (buildAdjacency nodes edges) = Some neighbors
    /\ forall b, In b neighbors <-> linked edges a b.
Proof.
  intros Ha. rewrite buildAdjacency_unfold.
  pose proof (Map_get_addEdges a edges (emptySets (Object_keys nodes))) as H.
  rewrite Map_get_emptySets in H.
  destruct (in_dec string_dec a (Object_keys nodes)); [|contradiction].
  destruct H as (neighbors & Hrun & Hchar). exists neighbors.
  split; [exact Hrun|]. intros b. rewrite Hchar. simpl. tauto.
Qed.

Lemma Map_get_buildAdjacency_None nodes edges a :
  ~ In a (Object_keys nodes) -> Map_get a (buildAdjacency nodes edges) = None.
Proof.
  intros Ha. apply Map_get_None. now rewrite In_Map_keys_buildAdjacency.
Qed.

Lemma linked_endpoints edges a b : linked edges a b -> In b (endpoints edges).
Proof.
  intros [e [Hin H]]. unfold endpoints. apply in_flat_map. exists e.
  split; [assumption|]. simpl. intuition congruence.
Qed.

Lemma closed_buildAdjacency nodes edges :
  closed (buildAdjacency nodes edges) (Object_keys nodes ++ endpoints edges).
Proof.
  intros k neighbors Hget b Hb. apply in_or_app. right.
  destruct (in_dec string_dec k (Object_keys nodes)) as [Hk|Hk].
  - destruct (Map_get_buildAdjacency nodes edges k Hk) as (ns & Hrun & Hchar).
    assert (ns = neighbors) by congruence. subst.
    apply (linked_endpoints edges k). now apply Hchar.
  - rewrite Map_get_buildAdjacency_None in Hget by assumption. discriminate.
Qed.

End AdjacencyFacts.

(** ** Connected components *)

Section ComponentFacts.

Import JS Graph Analytics.

Lemma launch_launchFrom fuel adjacency state nodeId :
  launch fuel adjacency (option_map countRoots state) nodeId
  = option_map countRoots (launchFrom fuel adjacency state nodeId).
Proof.
  destruct state as [[visited roots]|]; [|reflexivity].
  unfold launch, launchFrom, countRoots. cbn [option_map fst snd].
  destruct (visited_has nodeId visited); cbn [negb option_map]; [reflexivity|].
  destruct (dfs fuel adjacency nodeId visited); cbn [option_map fst snd];
    [|reflexivity].
  rewrite length_app. cbn [List.length]. f_equal. f_equal. lia.
Qed.

Lemma fold_launch_launchFrom fuel adjacency nodeIds :
  forall state,
    fold_left (launch fuel adjacency) nodeIds (option_map countRoots state)
    = option_map countRoots (fold_left (launchFrom fuel adjacency) nodeIds state).
Proof.
  induction nodeIds as [|nodeId rest IH]; intros state; [reflexivity|].
  cbn [fold_left]. rewrite launch_launchFrom. apply IH.
Qed.

(** [clusters] is the number of launches. *)
Lemma components_launches fuel adjacency nodeIds :
  components fuel adjacency nodeIds
  = option_map countRoots (launches fuel adjacency nodeIds).
Proof. apply (fold_launch_launchFrom fuel adjacency nodeIds (Some ([], []))). Qed.

Section Launches.

Variable adjacency : Adjacency.
Variable universe : list string.
Hypothesis Hclosed : closed adjacency universe.

Lemma launchFrom_returns nodeId state :
  In nodeId universe -> launch_inv universe state ->
  exists state',
    launchFrom (S (List.length universe)) adjacency (Some state) nodeId
    = Some state'
    /\ launch_inv universe state'
    /\ (exists added, fst state' = fst state ++ added)
    /\ In nodeId (fst state')
    /\ (snd state' = snd state \/ snd state' = snd state ++ [nodeId]).
Proof.
  intros Hid [Hnd Hincl Hroots Hrnd]. destruct state as [visited roots].
  cbn [fst snd] in *. unfold launchFrom.
  destruct (visited_has nodeId visited) eqn:Ehas; cbn [negb].
  - exists (visited, roots). cbn [fst snd]. repeat split; try assumption.
    + exists []. now rewrite app_nil_r.
    + now apply visited_has_In.
    + now left.
  - apply visited_has_not_In in Ehas.
    destruct (dfs_returns adjacency universe Hclosed
                          (S (List.length universe)) nodeId visited
                          Ehas Hnd Hid Hincl ltac:(lia))
      as (v' & Hrun & [Hnd' Hincl' [added Hext] _]).
    rewrite Hrun. exists (v', roots ++ [nodeId]). cbn [fst snd].
    assert (Hin : In nodeId v').
    { rewrite Hext. apply in_or_app. right. now left. }
    repeat split; try assumption.
    + intros a Ha. apply in_app_or in Ha. destruct Ha as [Ha|[<-|[]]];
        [|assumption].
      rewrite Hext. apply in_or_app. left. now apply Hroots.
    + apply NoDup_snoc; [assumption|]. intros Hr. apply Ehas. now apply Hroots.
    + now exists (nodeId :: added).
    + now right.
Qed.

Lemma launches_from nodeIds :
  incl nodeIds universe ->
  forall state,
    launch_inv universe state ->
    exists state',
      fold_left (launchFrom (S (List.length universe)) adjacency) nodeIds
                (Some state)
      = Some state'
      /\ launch_inv universe state'
      /\ (exists added, fst state' = fst state ++ added)
      /\ incl nodeIds (fst state')
      /\ (exists roots, snd state' = snd state ++ roots /\ incl roots nodeIds).
Proof.
  induction nodeIds as [|nodeId rest IH]; intros Hids state Hinv.
  - exists state. repeat split; try apply Hinv.
    + exists []. now rewrite app_nil_r.
    + intros a [].
    + exists []. split; [now rewrite app_nil_r|]. intros a [].
  - cbn [fold_left].
    assert (Hid : In nodeId universe) by (apply Hids; now left).
    assert (Hrest : incl rest universe) by (intros a Ha; apply Hids; now right).
    destruct (launchFrom_returns nodeId state Hid Hinv)
      as (s1 & Hrun1 & Hinv1 & [added1 Hext1] & Hin1 & Hroots1).
    rewrite Hrun1.
    destruct (IH Hrest s1 Hinv1)
      as (s' & Hrun & Hinv' & [added Hext] & Hcov & roots & Hroots & Hsub).
    exists s'. repeat split; try apply Hinv'; try assumption.
    + exists (added1 ++ added). rewrite Hext, Hext1. now rewrite <- app_assoc.
    + intros a [<-|Ha]; [|now apply Hcov].
      rewrite Hext. apply in_or_app. now left.
    + destruct Hroots1 as [E|E]; rewrite Hroots, E.
      * exists roots. split; [reflexivity|]. intros a Ha. right. now apply Hsub.
      * exists (nodeId :: roots). split; [now rewrite <- app_assoc|].
        intros a [<-|Ha]; [now left|right; now apply Hsub].
Qed.

End Launches.

(** The launch loop of [calculateConnectivityStats] returns; every id is
    added to [visited] at most once and every node id is added. *)
Lemma launches_returns nodes edges :
  exists visited roots,
    launches (dfsFuel nodes edges) (buildAdjacency nodes edges)
             (Object_keys nodes)
    = Some (visited, roots)
    /\ NoDup visited /\ incl (Object_keys nodes) visited
    /\ NoDup roots /\ incl roots (Object_keys nodes).
Proof.
  set (universe := Object_keys nodes ++ endpoints edges).
  assert (Hkeys : incl (Object_keys nodes) universe)
    by (intros a Ha; apply in_or_app; now left).
  destruct (launches_from (buildAdjacency nodes edges) universe
                          (closed_buildAdjacency nodes edges)
                          (Object_keys nodes) Hkeys ([], []))
    as ([visited roots] & Hrun & Hinv & _ & Hcov & rs & Hroots & Hsub).
  { constructor; cbn; try constructor; intros a []. }
  exists visited, roots. cbn [fst snd] in *. subst roots.
  destruct Hinv as [Hnd _ _ Hrnd]. cbn [fst snd] in *.
  repeat split; assumption.
Qed.

Lemma calculateConnectivityStats_returns nodes edges :
  exists visited roots,
    launches (dfsFuel nodes edges) (buildAdjacency nodes edges)
             (Object_keys nodes)
    = Some (visited, roots)
    /\ calculateConnectivityStats nodes edges
       = Some (ConnectivityStats.mk
                 (roundTo 10 (averageDegree (List.length (Object_keys nodes))
                                            (buildAdjacency nodes edges)))
                 (roundTo 1000 (density (List.length (Object_keys nodes))
                                        (List.length edges)))
                 (List.length roots)
                 (isolatedNodes (buildAdjacency nodes edges))).
Proof.
  destruct (launches_returns nodes edges) as (visited & roots & Hrun & _).
  exists visited, roots. split; [exact Hrun|].
  unfold calculateConnectivityStats. rewrite components_launches, Hrun.
  reflexivity.
Qed.

End ComponentFacts.

Section ClusterCount.

Import JS Graph Analytics.

Lemma launchFrom_skip fuel adjacency nodeId visited roots :
  In nodeId visited ->
  launchFrom fuel adjacency (Some (visited, roots)) nodeId
  = Some (visited, roots).
Proof.
  intros Hin. unfold launchFrom.
  apply visited_has_In in Hin. now rewrite Hin.
Qed.

Lemma launches_skip fuel adjacency nodeIds visited roots :
  incl nodeIds visited ->
  fold_left (launchFrom fuel adjacency) nodeIds (Some (visited, roots))
  = Some (visited, roots).
Proof.
  induction nodeIds as [|nodeId rest IH]; intros Hincl; [reflexivity|].
  cbn [fold_left]. rewrite launchFrom_skip by (apply Hincl; now left).
  apply IH. intros a Ha. apply Hincl. now right.
Qed.

(** Without edges every node is the root of a launch that visits it
    alone. *)
Lemma launches_isolated fuel adjacency nodeIds :
  NoDup nodeIds ->
  (forall nodeId, In nodeId nodeIds -> Map_get nodeId adjacency = Some []) ->
  forall visited roots,
    (forall nodeId, In nodeId nodeIds -> ~ In nodeId visited) ->
    fold_left (launchFrom (S fuel) adjacency) nodeIds (Some (visited, roots))
    = Some (visited ++ nodeIds, roots ++ nodeIds).
Proof.
  induction nodeIds as [|nodeId rest IH]; intros Hnd Hadj visited roots Hfresh.
  - cbn. now rewrite !app_nil_r.
  - cbn [fold_left]. unfold launchFrom at 2.
    assert (Ehas : visited_has nodeId visited = false).
    { apply visited_has_not_In. apply Hfresh. now left. }
    rewrite Ehas. cbn [negb dfs]. rewrite (Hadj nodeId) by now left.
    cbn [fold_left]. unfold visited_add. inversion Hnd as [|? ? Hx Hrest]; subst.
    rewrite IH.
    + now rewrite <- !app_assoc.
    + assumption.
    + intros a Ha. apply Hadj. now right.
    + intros a Ha Hin. apply in_app_or in Hin. destruct Hin as [Hin|[<-|[]]].
      * apply (Hfresh a); [now right|assumption].
      * contradiction.
Qed.

Lemma launches_no_edges nodes :
  NoDup (Object_keys nodes) ->
  launches (dfsFuel nodes []) (buildAdjacency nodes []) (Object_keys nodes)
  = Some (Object_keys nodes, Object_keys nodes).
Proof.
  intros Hnd. unfold launches, dfsFuel.
  rewrite (launches_isolated _ _ _ Hnd); [reflexivity| |intros a _ []].
  intros nodeId Hin.
  destruct (Map_get_buildAdjacency nodes [] nodeId Hin) as (ns & Hrun & Hchar).
  rewrite Hrun. f_equal. destruct ns as [|b ns]; [reflexivity|].
  exfalso. destruct (proj1 (Hchar b) (or_introl eq_refl)) as [e [[] _]].
Qed.

(** When every two nodes are joined by an edge, the launch from the first
    node visits them all. *)
Lemma launches_complete nodes edges first rest :
  Object_keys nodes = first :: rest ->
  (forall a b, In a (Object_keys nodes) -> In b (Object_keys nodes) ->
               a <> b -> linked edges a b) ->
  exists visited,
    launches (dfsFuel nodes edges) (buildAdjacency nodes edges)
             (Object_keys nodes)
    = Some (visited, [first]).
Proof.
  intros Hkeys Hfull.
  set (universe := Object_keys nodes ++ endpoints edges).
  assert (Hfirst : In first (Object_keys nodes)) by (rewrite Hkeys; now left).
  destruct (dfs_returns (buildAdjacency nodes edges) universe
                        (closed_buildAdjacency nodes edges)
                        (S (List.length universe)) first [])
    as (v1 & Hrun & [_ _ [added Hext] Hnb]).
  { intros []. }
  { constructor. }
  { apply in_or_app. now left. }
  { intros a []. }
  { cbn [List.length]. lia. }
  exists v1. unfold launches. rewrite Hkeys. cbn [fold_left].
  unfold launchFrom at 2. cbn [visited_has Set_has existsb negb].
  unfold dfsFuel. fold universe. rewrite Hrun. cbn [app].
  apply launches_skip. intros b Hb.
  destruct (string_dec first b) as [<-|Hne].
  - rewrite Hext. now left.
  - destruct (Map_get_buildAdjacency nodes edges first Hfirst)
      as (ns & Hget & Hchar).
    apply (Hnb ns Hget). apply Hchar. apply Hfull; try assumption.
    rewrite Hkeys. now right.
Qed.

(** C2.  [connectivity.clusters] is the number of launches of [dfs] from
    roots that were unvisited when the loop reached them; no id is added to
    [visited] twice and every node is added, so each node is visited
    exactly once.  Without edges the count is the number of nodes; when
    there is a node and every two nodes are joined by an edge it is 1. *)
Theorem clusters_by_dfs_launches nodes edges :
  NoDup (Object_keys nodes) ->
  exists stats visited roots,
    calculateGraphStats nodes edges = Some stats
    /\ launches (dfsFuel nodes edges) (buildAdjacency nodes edges)
                (Object_keys nodes)
       = Some (visited, roots)
    /\ ConnectivityStats.clusters (GraphStats.connectivity stats)
       = List.length roots
    /\ NoDup roots /\ incl roots (Object_keys nodes)
    /\ (forall nodeId, In nodeId (Object_keys nodes) ->
                       count_occ string_dec visited nodeId = 1)
    /\ (edges = [] ->
        ConnectivityStats.clusters (GraphStats.connectivity stats)
        = List.length nodes)
    /\ (nodes <> [] ->
        (forall a b, In a (Object_keys nodes) -> In b (Object_keys nodes) ->
                     a <> b -> linked edges a b) ->
        ConnectivityStats.clusters (GraphStats.connectivity stats) = 1).
Proof.
  intros Hkeys.
  destruct (launches_returns nodes edges)
    as (visited & roots & Hrun & Hnd & Hcov & Hrnd & Hrsub).
  destruct (calculateConnectivityStats_returns nodes edges)
    as (visited' & roots' & Hrun' & Hstats).
  assert (E : (visited', roots') = (visited, roots)) by congruence.
  inversion E; subst visited' roots'; clear E Hrun'.
  unfold calculateGraphStats. rewrite Hstats.
  eexists. exists visited, roots. split; [reflexivity|].
  cbn [GraphStats.connectivity ConnectivityStats.clusters].
  repeat split; try assumption.
  - intros nodeId Hin. apply NoDup_count_occ'; [assumption|now apply Hcov].
  - intros ->. rewrite launches_no_edges in Hrun by assumption.
    inversion Hrun; subst. unfold Object_keys. now rewrite length_map.
  - intros Hne Hfull. destruct (Object_keys nodes) as [|first rest] eqn:Ek.
    + destruct nodes; [contradiction|discriminate].
    + destruct (launches_complete nodes edges first rest Ek) as (v & Hv).
      { now rewrite Ek. }
      rewrite Ek in Hv. rewrite Hv in Hrun. now inversion Hrun.
Qed.

End ClusterCount.

Lemma clusters_by_dfs_launches_witness :
  NoDup (Graph.Object_keys starNodes)
  /\ exists stats,
      Analytics.calculateGraphStats starNodes [] = Some stats
      /\ ConnectivityStats.clusters (GraphStats.connectivity stats) = 3.
Proof.
  assert (Hnd : NoDup (Graph.Object_keys starNodes)).
  { repeat constructor; simpl; intuition discriminate. }
  split; [exact Hnd|].
  destruct (clusters_by_dfs_launches starNodes [] Hnd)
    as (stats & visited & roots & Hstats & _ & _ & _ & _ & _ & Hnone & _).
  exists stats. split; [exact Hstats|]. exact (Hnone eq_refl).
Defined.

(** ** Totality and guarded ratios *)

Section RatioFacts.

Import JS Graph Analytics.


End RatioFacts.

(** ** Connection counts *)

Section ConnectionFacts.

Import JS Graph Analytics.

Lemma fold_add_init (l : list nat) a :
  fold_left Nat.add l a = a + fold_left Nat.add l 0.
Proof.
  revert a. induction l as [|x l IH]; intros a; cbn [fold_left]; [lia|].
  rewrite (IH (a + x)), (IH (0 + x)). lia.
Qed.

Lemma sum_cons x l : sum (x :: l) = x + sum l.
Proof. unfold sum. cbn [fold_left]. rewrite fold_add_init. lia. Qed.

Lemma sum_Map_set k v (m : StrMap nat) :
  sum (Map_values (Map_set k v m)) + getOrZero m k = sum (Map_values m) + v.
Proof.
  unfold getOrZero.
  induction m as [|[k' v'] m IH]; cbn [Map_set Map_get Map_values map snd].
  - rewrite sum_cons. unfold sum. cbn. lia.
  - destruct (String.eqb_spec k k') as [->|Hne];
      cbn [Map_values map snd]; rewrite !sum_cons.
    + lia.
    + unfold Map_values in IH. lia.
Qed.

Lemma sum_increment k (m : StrMap nat) :
  sum (Map_values (increment k m)) = S (sum (Map_values m)).
Proof.
  unfold increment. pose proof (sum_Map_set k (getOrZero m k + 1) m) as H.
  unfold getOrZero in *. lia.
Qed.

Lemma getOrZero_increment k k' (m : StrMap nat) :
  getOrZero (increment k m) k'
  = if string_dec k' k then S (getOrZero m k') else getOrZero m k'.
Proof.
  unfold increment, getOrZero. destruct (string_dec k' k) as [->|Hne].
  - rewrite Map_get_set_same. lia.
  - now rewrite Map_get_set_other.
Qed.

Lemma In_Map_keys_increment k k' (m : StrMap nat) :
  In k' (Map_keys (increment k m)) <-> k' = k \/ In k' (Map_keys m).
Proof. apply In_Map_keys_set. Qed.

Lemma NoDup_Map_keys_set {V} k (v : V) (m : StrMap V) :
  NoDup (Map_keys m) -> NoDup (Map_keys (Map_set k v m)).
Proof.
  intros Hnd. rewrite Map_keys_set.
  destruct (existsb (String.eqb k) (Map_keys m)) eqn:E; [assumption|].
  apply NoDup_snoc; [assumption|now apply existsb_eqb_not_In].
Qed.

Lemma connectionCount_snoc edges e :
  connectionCount (edges ++ [e])
  = increment (target e) (increment (source e) (connectionCount edges)).
Proof. unfold connectionCount. now rewrite fold_left_app. Qed.

Lemma endpoints_snoc edges e :
  endpoints (edges ++ [e]) = endpoints edges ++ [source e; target e].
Proof. unfold endpoints. rewrite flat_map_app. reflexivity. Qed.

(** Each edge increments two counters. *)
Lemma sum_connectionCount edges :
  sum (Map_values (connectionCount edges)) = 2 * List.length edges.
Proof.
  induction edges as [|e edges IH] using rev_ind; [reflexivity|].
  rewrite connectionCount_snoc, !sum_increment, IH, length_app. cbn. lia.
Qed.

(** The counter of an id is the number of edge ends that name it. *)
Lemma getOrZero_connectionCount edges k :
  getOrZero (connectionCount edges) k = count_occ string_dec (endpoints edges) k.
Proof.
  induction edges as [|e edges IH] using rev_ind; [reflexivity|].
  rewrite connectionCount_snoc, endpoints_snoc, !getOrZero_increment, IH.
  rewrite count_occ_app. cbn [count_occ].
  repeat match goal with
         | |- context [string_dec ?a ?b] => destruct (string_dec a b)
         end; try congruence; lia.
Qed.

(** The counted ids are the ids that occur at an end of an edge, each
    once. *)
Lemma Map_keys_connectionCount edges :
  NoDup (Map_keys (connectionCount edges))
  /\ forall k, In k (Map_keys (connectionCount edges)) <-> In k (endpoints edges).
Proof.
  induction edges as [|e edges [IHnd IHin]] using rev_ind.
  - split; [constructor|reflexivity].
  - rewrite connectionCount_snoc, endpoints_snoc. split.
    + unfold increment. now do 2 apply NoDup_Map_keys_set.
    + intros k. rewrite !In_Map_keys_increment, IHin, in_app_iff. cbn.
      intuition congruence.
Qed.

Lemma length_connectionCount edges :
  List.length (connectionCount edges)
  = List.length (nodup string_dec (endpoints edges)).
Proof.
  destruct (Map_keys_connectionCount edges) as [Hnd Hin].
  replace (List.length (connectionCount edges))
    with (List.length (Map_keys (connectionCount edges)))
    by (unfold Map_keys; apply length_map).
  apply Nat.le_antisymm; apply NoDup_incl_length;
    try assumption; try apply NoDup_nodup;
    intros k Hk.
  - apply nodup_In. now apply Hin.
  - apply Hin. now apply nodup_In in Hk.
Qed.

Lemma avgConnections_ratio edges : avgConnections edges = connectionRatio edges.
Proof.
  unfold avgConnections, connectionRatio.
  now rewrite sum_connectionCount, length_connectionCount.
Qed.

(** C7, as amended.  [averageConnections] is the ratio of the connection
    increments (two per edge) to the number of distinct ids at the ends of
    the edges, rounded to one decimal place; nodes without connections do
    not enter the ratio, and the result is 0 when there is no edge. *)
Theorem averageConnections_rounded_ratio nodes edges :
  EdgeStats.averageConnections (calculateEdgeStats nodes edges)
  = roundTo 10 (connectionRatio edges)
  /\ sum (Map_values (connectionCount edges)) = 2 * List.length edges
  /\ List.length (connectionCount edges)
     = List.length (nodup string_dec (endpoints edges))
  /\ (edges = [] ->
      number_eq (EdgeStats.averageConnections (calculateEdgeStats nodes edges))
                (Finite 0)).
Proof.
  cbn [calculateEdgeStats EdgeStats.averageConnections].
  rewrite avgConnections_ratio. repeat split.
  - apply sum_connectionCount.
  - apply length_connectionCount.
  - intros ->. apply roundTo_zero. lia.
Qed.

End ConnectionFacts.

(** C7, as stated, fails: with edges A-B and A-C there are 4 increments
    over 3 connected nodes, and [averageConnections] is 1.3, not 4/3. *)
Lemma averageConnections_not_exact_ratio :
  Analytics.connectionRatio starEdges = JS.Finite (4 # 3)
  /\ ~ JS.number_eq
       (EdgeStats.averageConnections
          (Analytics.calculateEdgeStats starNodes starEdges))
       (Analytics.connectionRatio starEdges).
Proof.
  split; [reflexivity|]. vm_compute. discriminate.
Qed.

(** ** Rankings *)

Section RankingFacts.

Import JS.
Context {A : Type}.

Lemma In_insert_desc (key : A -> Z) x y sorted :
  In y (insert_desc key x sorted) <-> y = x \/ In y sorted.
Proof.
  induction sorted as [|z sorted IH]; cbn [insert_desc].
  - cbn. intuition congruence.
  - destruct (key z <=? key x)%Z; cbn [In]; [|rewrite IH]; intuition congruence.
Qed.

Lemma In_sort_desc (key : A -> Z) y a : In y (sort_desc key a) <-> In y a.
Proof.
  induction a as [|x a IH]; [reflexivity|].
  cbn [sort_desc fold_right]. rewrite In_insert_desc.
  unfold sort_desc in IH. rewrite IH. cbn. intuition congruence.
Qed.

Lemma length_insert_desc (key : A -> Z) x sorted :
  List.length (insert_desc key x sorted) = S (List.length sorted).
Proof.
  induction sorted as [|z sorted IH]; cbn [insert_desc]; [reflexivity|].
  destruct (key z <=? key x)%Z; cbn [List.length]; [|rewrite IH]; reflexivity.
Qed.

Lemma length_sort_desc (key : A -> Z) a :
  List.length (sort_desc key a) = List.length a.
Proof.
  induction a as [|x a IH]; [reflexivity|].
  cbn [sort_desc fold_right]. rewrite length_insert_desc.
  unfold sort_desc in IH. now rewrite IH.
Qed.

Lemma In_slice_to n y (a : list A) : In y (slice_to n a) -> In y a.
Proof.
  intros H. rewrite <- (firstn_skipn n a). apply in_or_app. now left.
Qed.

Lemma slice_to_all n (a : list A) :
  (List.length a <= n)%nat -> slice_to n a = a.
Proof. apply firstn_all2. Qed.

End RankingFacts.

(** ** Content statistics *)

Section ContentFacts.

Import JS Graph Analytics.











End ContentFacts.

(** ** Dangling edges *)

Section DanglingFacts.

Import JS Graph Analytics.

Lemma labelOrId_missing nodes nodeId :
  ~ In nodeId (Object_keys nodes) -> labelOrId nodes nodeId = nodeId.
Proof.
  intros H. unfold labelOrId.
  apply (proj2 (Map_get_None nodeId nodes)) in H. now rewrite H.
Qed.

(** An id at the end of an edge is ranked with the number of edge ends
    that name it. *)
Lemma In_nodeConnections nodes edges nodeId :
  In nodeId (endpoints edges) ->
  In (NodeConnection.mk nodeId (labelOrId nodes nodeId)
                        (count_occ string_dec (endpoints edges) nodeId))
     (nodeConnections nodes edges).
Proof.
  intros Hin. unfold nodeConnections. apply In_sort_desc.
  apply in_map_iff.
  exists (nodeId, count_occ string_dec (endpoints edges) nodeId).
  split; [reflexivity|]. apply Map_get_In.
  pose proof (getOrZero_connectionCount edges nodeId) as Hc.
  unfold getOrZero in Hc.
  destruct (Map_get nodeId (connectionCount edges)) as [c|] eqn:E.
  - now rewrite Hc.
  - apply Map_get_None in E. exfalso. apply E.
    now apply (proj2 (Map_keys_connectionCount edges)).
Qed.

End DanglingFacts.

(** C3, as stated, fails: with the single node A and the edge A-X, the
    missing id X is ranked in [mostConnected] and [leastConnected], raises
    [averageConnections] to 1, and sits in the neighbour set of A, so that
    [averageDegree] is 1 and A is not isolated. *)
Lemma dangling_id_is_counted :
  ~ In "X" (Graph.Object_keys loneNode)
  /\ exists stats,
      Analytics.calculateGraphStats loneNode danglingEdge = Some stats
      /\ In "X" (map NodeConnection.nodeId
                     (EdgeStats.mostConnected (GraphStats.edges stats)))
      /\ In "X" (map NodeConnection.nodeId
                     (EdgeStats.leastConnected (GraphStats.edges stats)))
      /\ JS.number_eq (EdgeStats.averageConnections (GraphStats.edges stats))
                      (JS.Finite 1)
      /\ JS.Map_get "A" (Analytics.buildAdjacency loneNode danglingEdge)
         = Some ["X"]
      /\ JS.number_eq
           (ConnectivityStats.averageDegree (GraphStats.connectivity stats))
           (JS.Finite 1)
      /\ ConnectivityStats.isolatedNodes (GraphStats.connectivity stats) = 0.
Proof.
  split.
  - cbn. intuition discriminate.
  - eexists. split; [vm_compute; reflexivity|].
    cbn. repeat split; auto.
Qed.

(** ** Dropping the dangling edges does not change the clusters *)

Section AttachedEdges.

Import JS Graph Analytics.

Variable nodes : NodeRecord.

Local Abbreviation isNode := (Analytics.isNode nodes).
Local Abbreviation attached := (Analytics.attached nodes).
Local Abbreviation restricts := (Analytics.restricts nodes).

Lemma filter_Set_add (p : string -> bool) x (s : StrSet) :
  filter p (Set_add x s) = if p x then Set_add x (filter p s) else filter p s.
Proof.
  unfold Set_add. destruct (p x) eqn:Epx.
  - assert (E : Set_has x (filter p s) = Set_has x s).
    { unfold Set_has. destruct (existsb (String.eqb x) s) eqn:Es.
      - apply existsb_eqb_In. apply filter_In. split; [|assumption].
        now apply existsb_eqb_In.
      - apply existsb_eqb_not_In. intros H. apply filter_In in H.
        apply existsb_eqb_not_In in Es. tauto. }
    rewrite E. destruct (Set_has x s); [reflexivity|].
    rewrite filter_app. cbn [filter]. now rewrite Epx.
  - destruct (Set_has x s); [reflexivity|].
    rewrite filter_app. cbn [filter]. rewrite Epx. apply app_nil_r.
Qed.

Lemma restricts_add_both m m' k x :
  isNode x = true -> restricts m m' ->
  restricts (adjacency_add k x m) (adjacency_add k x m').
Proof.
  intros Hx [Hget Hkeys]. split; intros a.
  - rewrite !Map_get_adjacency_add, Hget.
    destruct (a =? k); [|reflexivity].
    destruct (Map_get a m) as [ns|]; [|reflexivity]. cbn [option_map].
    now rewrite filter_Set_add, Hx.
  - intros Ha. rewrite Map_get_adjacency_add, (Hkeys a Ha).
    now destruct (a =? k).
Qed.

Lemma restricts_add_left m m' k x :
  isNode x = false \/ isNode k = false -> restricts m m' ->
  restricts (adjacency_add k x m) m'.
Proof.
  intros Hxk [Hget Hkeys]. split; intros a.
  - rewrite Map_get_adjacency_add, Hget.
    destruct (String.eqb_spec a k) as [->|Hne]; [|reflexivity].
    destruct Hxk as [Hx|Hk].
    + destruct (Map_get k m) as [ns|]; [|reflexivity]. cbn [option_map].
      now rewrite filter_Set_add, Hx.
    + now rewrite (Hkeys k Hk).
  - intros Ha. rewrite Map_get_adjacency_add, (Hkeys a Ha).
    now destruct (a =? k).
Qed.

Lemma restricts_addEdges edges :
  forall m m', restricts m m' ->
               restricts (addEdges m edges) (addEdges m' (filter attached edges)).
Proof.
  induction edges as [|e edges IH]; intros m m' H; [exact H|].
  cbn [filter]. unfold addEdges in *. cbn [fold_left].
  destruct (attached e) eqn:Ea; unfold attached in Ea.
  - apply andb_prop in Ea. destruct Ea as [Hs Ht]. cbn [fold_left].
    apply IH. apply restricts_add_both; [assumption|].
    now apply restricts_add_both.
  - apply IH. apply andb_false_iff in Ea.
    apply restricts_add_left; [tauto|].
    apply restricts_add_left; [tauto|assumption].
Qed.

Lemma restricts_buildAdjacency edges :
  restricts (buildAdjacency nodes edges)
            (buildAdjacency nodes (filter attached edges)).
Proof.
  rewrite !buildAdjacency_unfold. apply restricts_addEdges. split; intros a.
  - rewrite Map_get_emptySets. now destruct (in_dec _ _ _).
  - intros Ha. rewrite Map_get_emptySets.
    destruct (in_dec string_dec a (Object_keys nodes)) as [Hin|]; [|reflexivity].
    apply existsb_eqb_In in Hin. unfold isNode in Ha. congruence.
Qed.

Lemma visited_has_filter id (visited : Visited) :
  isNode id = true ->
  visited_has id (filter isNode visited) = visited_has id visited.
Proof.
  intros Hid. unfold visited_has, Set_has.
  destruct (existsb (String.eqb id) visited) eqn:E.
  - apply existsb_eqb_In. apply filter_In. split; [|assumption].
    now apply existsb_eqb_In.
  - apply existsb_eqb_not_In. intros H. apply filter_In in H.
    apply existsb_eqb_not_In in E. tauto.
Qed.

Lemma fold_step_None {S B} (step : option S -> B -> option S) l :
  (forall b, step None b = None) -> fold_left step l None = None.
Proof. intros H. induction l as [|b l IH]; cbn; [reflexivity|now rewrite H]. Qed.

Section Simulation.

Variables m m' : Adjacency.
Hypothesis Hres : restricts m m'.

(** A call of [dfs] on the full map is matched, id for id, by a call on
    the restricted map; the ids that are not nodes are the ones left
    out. *)
Lemma dfs_restricts fuel :
  forall nodeId visited visited',
    isNode nodeId = true ->
    dfs fuel m nodeId visited = Some visited' ->
    dfs fuel m' nodeId (filter isNode visited) = Some (filter isNode visited').
Proof.
  destruct Hres as [Hget Hkeys].
  induction fuel as [|fuel IH]; intros nodeId visited visited' Hid Hrun;
    [discriminate|].
  cbn [dfs] in *. unfold visited_add in *. rewrite Hget.
  assert (Evis : filter isNode visited ++ [nodeId]
                 = filter isNode (visited ++ [nodeId])).
  { rewrite filter_app. cbn [filter]. now rewrite Hid. }
  rewrite Evis.
  destruct (Map_get nodeId m) as [neighbors|]; cbn [option_map];
    [|now inversion Hrun].
  revert Hrun. generalize (visited ++ [nodeId]). clear Evis visited.
  induction neighbors as [|nb rest IHrest]; intros visited Hrun.
  - cbn in *. now inversion Hrun.
  - cbn [fold_left] in Hrun. cbn [filter].
    destruct (isNode nb) eqn:Enb.
    + cbn [fold_left]. rewrite (visited_has_filter nb visited Enb).
      destruct (visited_has nb visited); cbn [negb] in *.
      * now apply IHrest.
      * destruct (dfs fuel m nb visited) as [v1|] eqn:E1.
        -- rewrite (IH nb visited v1 Enb E1). now apply IHrest.
        -- rewrite fold_step_None in Hrun by reflexivity. discriminate.
    + destruct (visited_has nb visited); cbn [negb] in *.
      * now apply IHrest.
      * destruct (dfs fuel m nb visited) as [v1|] eqn:E1.
        -- destruct fuel as [|fuel']; [discriminate|].
           cbn [dfs] in E1. rewrite (Hkeys nb Enb) in E1.
           unfold visited_add in E1. inversion E1; subst v1.
           specialize (IHrest _ Hrun).
           rewrite filter_app in IHrest. cbn [filter] in IHrest.
           rewrite Enb, app_nil_r in IHrest. exact IHrest.
        -- rewrite fold_step_None in Hrun by reflexivity. discriminate.
Qed.

Lemma launches_restrict fuel nodeIds :
  (forall nodeId, In nodeId nodeIds -> isNode nodeId = true) ->
  forall visited clusters visited' clusters',
    fold_left (launch fuel m) nodeIds (Some (visited, clusters))
    = Some (visited', clusters') ->
    fold_left (launch fuel m') nodeIds (Some (filter isNode visited, clusters))
    = Some (filter isNode visited', clusters').
Proof.
  induction nodeIds as [|nodeId rest IH];
    intros Hids visited clusters visited' clusters' Hrun.
  - cbn in *. now inversion Hrun.
  - cbn [fold_left] in *. unfold launch at 2. unfold launch at 2 in Hrun.
    assert (Hid : isNode nodeId = true) by (apply Hids; now left).
    assert (Hrest : forall a, In a rest -> isNode a = true)
      by (intros a Ha; apply Hids; now right).
    rewrite (visited_has_filter nodeId visited Hid).
    destruct (visited_has nodeId visited); cbn [negb] in *.
    + now apply IH.
    + destruct (dfs fuel m nodeId visited) as [v1|] eqn:E1.
      * rewrite (dfs_restricts fuel nodeId visited v1 Hid E1).
        now apply IH.
      * rewrite fold_step_None in Hrun by reflexivity. discriminate.
Qed.

End Simulation.

End AttachedEdges.

Section FuelFacts.

Import JS Graph Analytics.

Variable adjacency : Adjacency.

(** A call that returns within [fuel] returns the same with more. *)
Lemma dfs_more_fuel fuel :
  forall nodeId visited visited' fuel',
    dfs fuel adjacency nodeId visited = Some visited' ->
    fuel <= fuel' ->
    dfs fuel' adjacency nodeId visited = Some visited'.
Proof.
  induction fuel as [|fuel IH]; intros nodeId visited visited' fuel' Hrun Hle;
    [discriminate|].
  destruct fuel' as [|fuel']; [lia|].
  cbn [dfs] in *.
  destruct (Map_get nodeId adjacency) as [neighbors|]; [|exact Hrun].
  revert Hrun. generalize (visited_add nodeId visited).
  induction neighbors as [|nb rest IHrest]; intros current Hrun;
    cbn [fold_left] in *; [exact Hrun|].
  destruct (visited_has nb current); cbn [negb] in *; [now apply IHrest|].
  destruct (dfs fuel adjacency nb current) as [v1|] eqn:E1.
  - rewrite (IH nb current v1 fuel' E1) by lia. now apply IHrest.
  - rewrite fold_step_None in Hrun by reflexivity. discriminate.
Qed.

Lemma components_more_fuel fuel fuel' nodeIds :
  fuel <= fuel' ->
  forall state result,
    fold_left (launch fuel adjacency) nodeIds (Some state) = Some result ->
    fold_left (launch fuel' adjacency) nodeIds (Some state) = Some result.
Proof.
  intros Hle. induction nodeIds as [|nodeId rest IH];
    intros [visited clusters] result Hrun; [exact Hrun|].
  cbn [fold_left] in *. unfold launch at 2. unfold launch at 2 in Hrun.
  destruct (visited_has nodeId visited); cbn [negb] in *; [now apply IH|].
  destruct (dfs fuel adjacency nodeId visited) as [v1|] eqn:E1.
  - rewrite (dfs_more_fuel fuel nodeId visited v1 fuel' E1 Hle). now apply IH.
  - rewrite fold_step_None in Hrun by reflexivity. discriminate.
Qed.

End FuelFacts.

Section DanglingEdges.

Import JS Graph Analytics.

Lemma length_endpoints edges : List.length (endpoints edges) = 2 * List.length edges.
Proof.
  induction edges as [|e edges IH]; [reflexivity|].
  cbn [endpoints flat_map app List.length] in *. unfold endpoints in IH. lia.
Qed.

Lemma dfsFuel_attached nodes edges :
  dfsFuel nodes (filter (attached nodes) edges) <= dfsFuel nodes edges.
Proof.
  unfold dfsFuel. rewrite !length_app, !length_endpoints.
  pose proof (filter_length_le (attached nodes) edges). lia.
Qed.

(** [clusters] is the same with and without the edges that have an end
    outside the node set. *)
Lemma clusters_attached nodes edges stats stats' :
  calculateConnectivityStats nodes edges = Some stats ->
  calculateConnectivityStats nodes (filter (attached nodes) edges) = Some stats' ->
  ConnectivityStats.clusters stats = ConnectivityStats.clusters stats'.
Proof.
  unfold calculateConnectivityStats, components.
  destruct (fold_left _ _ _) as [[visited clusters]|] eqn:E; [|discriminate].
  destruct (fold_left (launch (dfsFuel nodes (filter _ _)) _) _ _)
    as [[visited' clusters']|] eqn:E'; [|discriminate].
  intros [= <-] [= <-]. cbn [ConnectivityStats.clusters].
  apply (launches_restrict nodes _ _ (restricts_buildAdjacency nodes edges))
    in E.
  - apply (components_more_fuel _ _ (dfsFuel nodes edges)) in E';
      [|apply dfsFuel_attached].
    cbn [filter] in E. congruence.
  - intros nodeId Hin. now apply existsb_eqb_In.
Qed.

(** C3, as amended.  A snapshot with an edge whose end [missing] is not a
    node still has statistics.  [missing] has no entry of its own in the
    adjacency map, and the cluster count is the one of the snapshot
    without the dangling edges.  But [missing] is ranked among the
    connection counts, under its id as label, with one connection per edge
    end that names it (and so is in [mostConnected] when at most five ids
    are ranked); it is one of the distinct ids that [averageConnections]
    divides by; and it is a member of the neighbour set of each node it
    shares an edge with. *)
Theorem dangling_edges_counted_not_raised nodes edges missing :
  ~ In missing (Object_keys nodes) ->
  In missing (endpoints edges) ->
  exists stats stats',
    calculateGraphStats nodes edges = Some stats
    /\ calculateGraphStats nodes (filter (attached nodes) edges) = Some stats'
    /\ ConnectivityStats.clusters (GraphStats.connectivity stats)
       = ConnectivityStats.clusters (GraphStats.connectivity stats')
    /\ Map_get missing (buildAdjacency nodes edges) = None
    /\ (1 <= count_occ string_dec (endpoints edges) missing)
    /\ In (NodeConnection.mk missing missing
                             (count_occ string_dec (endpoints edges) missing))
          (nodeConnections nodes edges)
    /\ In missing (nodup string_dec (endpoints edges))
    /\ EdgeStats.averageConnections (GraphStats.edges stats)
       = roundTo 10 (connectionRatio edges)
    /\ (List.length (nodup string_dec (endpoints edges)) <= 5 ->
        In (NodeConnection.mk missing missing
                              (count_occ string_dec (endpoints edges) missing))
           (EdgeStats.mostConnected (GraphStats.edges stats)))
    /\ (forall a, In a (Object_keys nodes) -> linked edges a missing ->
                  exists neighbors,
                    Map_get a (buildAdjacency nodes edges) = Some neighbors
                    /\ In missing neighbors).
Proof.
  intros Hmissing Hend.
  destruct (calculateConnectivityStats_returns nodes edges)
    as (v & r & _ & Hstats).
  destruct (calculateConnectivityStats_returns
              nodes (filter (attached nodes) edges))
    as (v' & r' & _ & Hstats').
  pose proof (clusters_attached nodes edges _ _ Hstats Hstats') as Hclusters.
  pose proof (In_nodeConnections nodes edges missing Hend) as Hranked.
  rewrite (labelOrId_missing nodes missing Hmissing) in Hranked.
  unfold calculateGraphStats. rewrite Hstats, Hstats'.
  do 2 eexists. split; [reflexivity|]. split; [reflexivity|].
  cbn [GraphStats.connectivity GraphStats.edges EdgeStats.mostConnected
       EdgeStats.averageConnections calculateEdgeStats].
  repeat split.
  - exact Hclusters.
  - now apply Map_get_buildAdjacency_None.
  - now apply count_occ_In.
  - exact Hranked.
  - now apply nodup_In.
  - now rewrite avgConnections_ratio.
  - intros Hfew. rewrite slice_to_all; [exact Hranked|].
    unfold nodeConnections.
    now rewrite length_sort_desc, length_map, length_connectionCount.
  - intros a Ha Hlink.
    destruct (Map_get_buildAdjacency nodes edges a Ha) as (ns & Hget & Hchar).
    exists ns. split; [assumption|]. now apply Hchar.
Qed.

End DanglingEdges.

Lemma dangling_edges_counted_not_raised_witness :
  ~ In "X" (Graph.Object_keys loneNode)
  /\ In "X" (Analytics.endpoints danglingEdge)
  /\ JS.Map_get "X" (Analytics.buildAdjacency loneNode danglingEdge) = None
  /\ In (NodeConnection.mk "X" "X" 1)
        (Analytics.nodeConnections loneNode danglingEdge).
Proof.
  assert (Hmissing : ~ In "X" (Graph.Object_keys loneNode)).
  { simpl. intuition discriminate. }
  assert (Hend : In "X" (Analytics.endpoints danglingEdge)).
  { simpl. auto. }
  split; [exact Hmissing|]. split; [exact Hend|].
  destruct (dangling_edges_counted_not_raised loneNode danglingEdge "X"
                                              Hmissing Hend)
    as (stats & stats' & _ & _ & _ & Hadj & _ & Hranked & _).
  split; [exact Hadj|exact Hranked].
Defined.

(** ** The clusters are the connected components *)

Section Reachability.

Import JS Graph Analytics.

Variable adjacency : Adjacency.

Lemma reach_trans a b c :
  reach adjacency a b -> reach adjacency b c -> reach adjacency a c.
Proof.
  intros Hab Hbc. induction Hbc as [|c d _ IH Hstep]; [assumption|].
  now apply (reach_step adjacency a c d).
Qed.

Lemma reach_first a b c :
  step adjacency a b -> reach adjacency b c -> reach adjacency a c.
Proof.
  intros Hstep. apply reach_trans.
  apply (reach_step adjacency a a b); [constructor|assumption].
Qed.

Lemma explored_reach visited a b :
  explored adjacency visited -> In a visited -> reach adjacency a b ->
  In b visited.
Proof.
  intros Hex Ha Hreach. induction Hreach as [|b c _ IH Hstep]; [assumption|].
  now apply (Hex b c).
Qed.

(** In a map whose neighbour relation is symmetric towards ids that have
    an entry, chains between such ids can be walked both ways. *)
Lemma reach_sym a b :
  (forall x y, step adjacency x y -> Map_get y adjacency <> None ->
               step adjacency y x) ->
  reach adjacency a b -> Map_get b adjacency <> None -> reach adjacency b a.
Proof.
  intros Hsym Hreach. induction Hreach as [|b c _ IH Hstep]; intros Hb;
    [constructor|].
  apply (reach_first c b a); [now apply Hsym|].
  apply IH. destruct Hstep as [ns [Hget _]]. congruence.
Qed.

(** The loop over the neighbours: what it adds is connected to one of the
    neighbours and has all its neighbours visited at the end. *)
Lemma dfs_neighbors_explore fuel :
  (forall nodeId visited visited',
      dfs fuel adjacency nodeId visited = Some visited' ->
      exists added,
        visited' = visited ++ nodeId :: added
        /\ (forall x, In x (nodeId :: added) -> reach adjacency nodeId x)
        /\ (forall x y, In x (nodeId :: added) -> step adjacency x y ->
                        In y visited')) ->
  forall neighbors visited visited',
    fold_left
      (fun state neighbor =>
         match state with
         | None => None
         | Some visited =>
             if negb (visited_has neighbor visited)
             then dfs fuel adjacency neighbor visited
             else Some visited
         end)
      neighbors (Some visited) = Some visited' ->
    exists added,
      visited' = visited ++ added
      /\ (forall x, In x added ->
                    exists nb, In nb neighbors /\ reach adjacency nb x)
      /\ (forall x y, In x added -> step adjacency x y -> In y visited')
      /\ incl neighbors visited'.
Proof.
  intros IH. induction neighbors as [|nb rest IHrest];
    intros visited visited' Hrun; cbn [fold_left] in Hrun.
  - inversion Hrun; subst. exists []. rewrite app_nil_r.
    split; [reflexivity|]. split; [intros x []|].
    split; [intros x y []|intros a []].
  - destruct (visited_has nb visited) eqn:Ehas; cbn [negb] in Hrun.
    + destruct (IHrest _ _ Hrun) as (added & Hext & Hreach & Hex & Hcov).
      exists added. repeat split; try assumption.
      * intros x Hx. destruct (Hreach x Hx) as (n & Hn & Hr).
        exists n. split; [now right|assumption].
      * intros a [<-|Ha]; [|now apply Hcov].
        rewrite Hext. apply in_or_app. left. now apply visited_has_In.
    + destruct (dfs fuel adjacency nb visited) as [v1|] eqn:E1.
      * destruct (IH _ _ _ E1) as (a1 & Hext1 & Hreach1 & Hex1).
        destruct (IHrest _ _ Hrun) as (a2 & Hext2 & Hreach2 & Hex2 & Hcov).
        exists (nb :: a1 ++ a2). repeat split.
        -- rewrite Hext2, Hext1. now rewrite <- app_assoc.
        -- intros x Hx. change (nb :: a1 ++ a2) with ((nb :: a1) ++ a2) in Hx.
           apply in_app_or in Hx. destruct Hx as [Hx|Hx].
           ++ exists nb. split; [now left|now apply Hreach1].
           ++ destruct (Hreach2 x Hx) as (n & Hn & Hr).
              exists n. split; [now right|assumption].
        -- intros x y Hx Hstep.
           change (nb :: a1 ++ a2) with ((nb :: a1) ++ a2) in Hx.
           apply in_app_or in Hx. destruct Hx as [Hx|Hx].
           ++ rewrite Hext2. apply in_or_app. left. now apply (Hex1 x y).
           ++ now apply (Hex2 x y).
        -- intros a [<-|Ha]; [|now apply Hcov].
           rewrite Hext2, Hext1. apply in_or_app. left. apply in_or_app.
           right. now left.
      * rewrite fold_step_None in Hrun by reflexivity. discriminate.
Qed.

(** A call [dfs(nodeId)]: every id it adds is connected to [nodeId], and
    every neighbour of an id it adds is visited when it returns. *)
Lemma dfs_explores fuel :
  forall nodeId visited visited',
    dfs fuel adjacency nodeId visited = Some visited' ->
    exists added,
      visited' = visited ++ nodeId :: added
      /\ (forall x, In x (nodeId :: added) -> reach adjacency nodeId x)
      /\ (forall x y, In x (nodeId :: added) -> step adjacency x y ->
                      In y visited').
Proof.
  induction fuel as [|fuel IH]; intros nodeId visited visited' Hrun;
    [discriminate|].
  cbn [dfs] in Hrun. unfold visited_add in Hrun.
  destruct (Map_get nodeId adjacency) as [neighbors|] eqn:Eget.
  - destruct (dfs_neighbors_explore fuel IH _ _ _ Hrun)
      as (added & Hext & Hreach & Hex & Hcov).
    exists added. repeat split.
    + rewrite Hext. now rewrite <- app_assoc.
    + intros x [<-|Hx]; [constructor|].
      destruct (Hreach x Hx) as (nb & Hnb & Hr).
      apply (reach_first nodeId nb x); [|assumption].
      now exists neighbors.
    + intros x y [<-|Hx] Hstep; [|now apply (Hex x y)].
      destruct Hstep as (ns & Hget & Hy).
      assert (ns = neighbors) by congruence. subst. now apply Hcov.
  - inversion Hrun; subst. exists []. repeat split.
    + intros x [<-|[]]. constructor.
    + intros x y [<-|[]] (ns & Hget & _). congruence.
Qed.

Hypothesis Hsym :
  forall x y, step adjacency x y -> Map_get y adjacency <> None ->
              step adjacency y x.

Lemma launchFrom_components fuel nodeId state state' :
  Map_get nodeId adjacency <> None ->
  launchFrom fuel adjacency (Some state) nodeId = Some state' ->
  components_inv adjacency state ->
  components_inv adjacency state' /\ In nodeId (fst state').
Proof.
  intros Hentry Hrun [Hex Hroots Hent Hcov Hapart].
  destruct state as [visited roots]. cbn [fst snd] in *.
  unfold launchFrom in Hrun.
  destruct (visited_has nodeId visited) eqn:Ehas; cbn [negb] in Hrun.
  - inversion Hrun; subst. split; [now constructor|].
    now apply visited_has_In.
  - apply visited_has_not_In in Ehas.
    destruct (dfs fuel adjacency nodeId visited) as [v1|] eqn:E1;
      [|discriminate].
    inversion Hrun; subst; clear Hrun.
    destruct (dfs_explores fuel _ _ _ E1) as (added & Hext & Hreach & Hnew).
    split; [|rewrite Hext; apply in_or_app; right; now left].
    constructor; cbn [fst snd].
    + intros a b Ha Hstep. rewrite Hext in Ha. apply in_app_or in Ha.
      destruct Ha as [Ha|Ha].
      * rewrite Hext. apply in_or_app. left. now apply (Hex a b).
      * now apply (Hnew a b).
    + intros r Hr. apply in_app_or in Hr. rewrite Hext.
      destruct Hr as [Hr|[<-|[]]]; apply in_or_app.
      * left. now apply Hroots.
      * right. now left.
    + intros r Hr. apply in_app_or in Hr.
      destruct Hr as [Hr|[<-|[]]]; [now apply Hent|assumption].
    + intros x Hx. rewrite Hext in Hx. apply in_app_or in Hx.
      destruct Hx as [Hx|Hx].
      * destruct (Hcov x Hx) as (r & Hr & Hrx). exists r.
        split; [apply in_or_app; now left|assumption].
      * exists nodeId. split; [apply in_or_app; right; now left|].
        now apply Hreach.
    + assert (Hold : forall r, In r roots -> ~ reach adjacency r nodeId).
      { intros r Hr Hreach'. apply Ehas.
        apply (explored_reach visited r nodeId Hex); [now apply Hroots|].
        assumption. }
      intros r1 r2 H1 H2 Hr. apply in_app_or in H1. apply in_app_or in H2.
      destruct H1 as [H1|[<-|[]]], H2 as [H2|[<-|[]]].
      * now apply Hapart.
      * exfalso. now apply (Hold r1 H1).
      * exfalso. apply (Hold r2 H2).
        apply (reach_sym nodeId r2 Hsym Hr). now apply Hent.
      * reflexivity.
Qed.

Lemma launchFrom_grows fuel nodeId state state' :
  launchFrom fuel adjacency (Some state) nodeId = Some state' ->
  incl (fst state) (fst state').
Proof.
  destruct state as [visited roots]. unfold launchFrom.
  destruct (visited_has nodeId visited); cbn [negb].
  - intros [= <-]. apply incl_refl.
  - destruct (dfs fuel adjacency nodeId visited) as [v1|] eqn:E1;
      [|discriminate].
    intros [= <-]. cbn [fst].
    destruct (dfs_explores fuel _ _ _ E1) as (added & Hext & _).
    rewrite Hext. intros x Hx. apply in_or_app. now left.
Qed.

Lemma launches_grow fuel nodeIds :
  forall state state',
    fold_left (launchFrom fuel adjacency) nodeIds (Some state) = Some state' ->
    incl (fst state) (fst state').
Proof.
  induction nodeIds as [|nodeId rest IH]; intros state state' Hrun.
  - inversion Hrun. apply incl_refl.
  - cbn [fold_left] in Hrun.
    destruct (launchFrom fuel adjacency (Some state) nodeId) as [s1|] eqn:E1.
    + apply (incl_tran (launchFrom_grows fuel nodeId state s1 E1)).
      now apply IH.
    + rewrite fold_step_None in Hrun by reflexivity. discriminate.
Qed.

Lemma launches_components fuel nodeIds :
  (forall nodeId, In nodeId nodeIds -> Map_get nodeId adjacency <> None) ->
  forall state state',
    fold_left (launchFrom fuel adjacency) nodeIds (Some state) = Some state' ->
    components_inv adjacency state ->
    components_inv adjacency state' /\ incl nodeIds (fst state').
Proof.
  induction nodeIds as [|nodeId rest IH]; intros Hent state state' Hrun Hinv.
  - inversion Hrun; subst. split; [assumption|intros a []].
  - cbn [fold_left] in Hrun.
    destruct (launchFrom fuel adjacency (Some state) nodeId) as [s1|] eqn:E1.
    + destruct (launchFrom_components fuel nodeId state s1) as [Hinv1 Hin1];
        try assumption; [apply Hent; now left|].
      destruct (IH (fun a Ha => Hent a (or_intror Ha)) s1 state' Hrun Hinv1)
        as [Hinv' Hcov].
      split; [assumption|].
      intros a [<-|Ha]; [|now apply Hcov].
      now apply (launches_grow fuel rest s1 state' Hrun).
    + rewrite fold_step_None in Hrun by reflexivity. discriminate.
Qed.

End Reachability.

Section Components.

Import JS Graph Analytics.

Lemma linked_sym edges a b : linked edges a b -> linked edges b a.
Proof. intros [e [Hin H]]. exists e. split; [assumption|tauto]. Qed.

(** Between nodes the neighbour relation is symmetric. *)
Lemma step_buildAdjacency_sym nodes edges x y :
  step (buildAdjacency nodes edges) x y ->
  Map_get y (buildAdjacency nodes edges) <> None ->
  step (buildAdjacency nodes edges) y x.
Proof.
  intros (ns & Hget & Hy) Hentry.
  destruct (in_dec string_dec x (Object_keys nodes)) as [Hx|Hx];
    [|rewrite Map_get_buildAdjacency_None in Hget by assumption; discriminate].
  destruct (in_dec string_dec y (Object_keys nodes)) as [Hk|Hk];
    [|now rewrite Map_get_buildAdjacency_None in Hentry].
  destruct (Map_get_buildAdjacency nodes edges x Hx) as (nx & Hgx & Hcx).
  destruct (Map_get_buildAdjacency nodes edges y Hk) as (ny & Hgy & Hcy).
  assert (nx = ns) by congruence. subst nx.
  exists ny. split; [assumption|]. apply Hcy. apply linked_sym. now apply Hcx.
Qed.

Lemma launch_roots_represent nodes edges :
  exists roots,
    calculateConnectivityStats nodes edges
    = Some (ConnectivityStats.mk
              (roundTo 10 (averageDegree (List.length (Object_keys nodes))
                                         (buildAdjacency nodes edges)))
              (roundTo 1000 (density (List.length (Object_keys nodes))
                                     (List.length edges)))
              (List.length roots)
              (isolatedNodes (buildAdjacency nodes edges)))
    /\ NoDup roots /\ incl roots (Object_keys nodes)
    /\ (forall nodeId, In nodeId (Object_keys nodes) ->
                       exists r, In r roots
                                 /\ reach (buildAdjacency nodes edges) r nodeId)
    /\ (forall r1 r2, In r1 roots -> In r2 roots ->
                      reach (buildAdjacency nodes edges) r1 r2 -> r1 = r2).
Proof.
  destruct (launches_returns nodes edges)
    as (visited & roots & Hrun & _ & Hcov & Hrnd & Hrsub).
  destruct (calculateConnectivityStats_returns nodes edges)
    as (visited' & roots' & Hrun' & Hstats).
  assert (E : (visited', roots') = (visited, roots)) by congruence.
  inversion E; subst visited' roots'; clear E Hrun'.
  exists roots. split; [exact Hstats|].
  destruct (launches_components
              (buildAdjacency nodes edges)
              (step_buildAdjacency_sym nodes edges)
              (dfsFuel nodes edges) (Object_keys nodes))
    with (state := (@nil string, @nil string)) (state' := (visited, roots))
    as [[_ _ _ Hcovered Hapart] _].
  - intros nodeId Hin.
    destruct (Map_get_buildAdjacency nodes edges nodeId Hin) as (ns & Hget & _).
    congruence.
  - exact Hrun.
  - constructor; cbn [fst snd].
    + intros a b [].
    + intros x [].
    + intros r [].
    + intros x [].
    + intros r1 r2 [].
  - cbn [fst snd] in *. repeat split; try assumption.
    intros nodeId Hin. apply Hcovered. now apply Hcov.
Qed.

(** X19.  [connectivity.clusters] is the number of connected components of the
    nodes: the launch roots are nodes, every node is connected to a root,
    and no two roots are connected. *)
Theorem clusters_are_components nodes edges :
  exists stats roots,
    calculateGraphStats nodes edges = Some stats
    /\ ConnectivityStats.clusters (GraphStats.connectivity stats)
       = List.length roots
    /\ NoDup roots /\ incl roots (Object_keys nodes)
    /\ (forall nodeId, In nodeId (Object_keys nodes) ->
                       exists r, In r roots
                                 /\ reach (buildAdjacency nodes edges) r nodeId)
    /\ (forall r1 r2, In r1 roots -> In r2 roots ->
                      reach (buildAdjacency nodes edges) r1 r2 -> r1 = r2).
Proof.
  destruct (launch_roots_represent nodes edges) as (roots & Hstats & Hrest).
  unfold calculateGraphStats. rewrite Hstats.
  eexists. exists roots. split; [reflexivity|]. split; [reflexivity|].
  exact Hrest.
Qed.

Lemma NoDup_Map_keys_emptySets nodeIds : NoDup (Map_keys (emptySets nodeIds)).
Proof.
  induction nodeIds as [|nodeId nodeIds IH] using rev_ind; [constructor|].
  rewrite emptySets_snoc. now apply NoDup_Map_keys_set.
Qed.

Lemma NoDup_Map_keys_buildAdjacency nodes edges :
  NoDup (Map_keys (buildAdjacency nodes edges)).
Proof.
  rewrite buildAdjacency_unfold, Map_keys_addEdges.
  apply NoDup_Map_keys_emptySets.
Qed.

Lemma In_Map_get {V} k (v : V) (m : StrMap V) :
  NoDup (Map_keys m) -> In (k, v) m -> Map_get k m = Some v.
Proof.
  induction m as [|[k' v'] m IH]; cbn [Map_keys map fst In Map_get];
    intros Hnd Hin; [contradiction|].
  inversion Hnd as [|? ? Hk Hrest]; subst.
  destruct Hin as [[= -> ->]|Hin].
  - now rewrite String.eqb_refl.
  - destruct (String.eqb_spec k k') as [->|Hne]; [|now apply IH].
    exfalso. apply Hk. apply in_map_iff. now exists (k', v).
Qed.

Lemma reach_last adjacency a b :
  reach adjacency a b ->
  a = b \/ exists c, reach adjacency a c /\ step adjacency c b.
Proof. intros H. destruct H as [|c d Hc Hstep]; [now left|right; eauto]. Qed.

Lemma count_Map_values {V} (p : V -> bool) (m : StrMap V) :
  count p (Map_values m)
  = List.length (Map_keys (filter (fun entry => p (snd entry)) m)).
Proof.
  unfold count, Map_values, Map_keys. rewrite length_map.
  induction m as [|[k v] m IH]; [reflexivity|]. cbn [map filter snd].
  destruct (p v); cbn [List.length]; now rewrite IH.
Qed.

(** X20.  There are at most as many clusters as nodes and at least as many as
    isolated nodes, and a snapshot with a node has at least one cluster. *)
Theorem clusters_between_isolated_and_nodes nodes edges :
  exists stats,
    calculateGraphStats nodes edges = Some stats
    /\ ConnectivityStats.isolatedNodes (GraphStats.connectivity stats)
       <= ConnectivityStats.clusters (GraphStats.connectivity stats)
    /\ ConnectivityStats.clusters (GraphStats.connectivity stats)
       <= List.length nodes
    /\ (nodes <> [] ->
        1 <= ConnectivityStats.clusters (GraphStats.connectivity stats)).
Proof.
  destruct (launch_roots_represent nodes edges)
    as (roots & Hstats & Hrnd & Hrsub & Hcov & Hapart).
  unfold calculateGraphStats. rewrite Hstats. eexists. split; [reflexivity|].
  cbn [GraphStats.connectivity ConnectivityStats.clusters
       ConnectivityStats.isolatedNodes].
  set (adjacency := buildAdjacency nodes edges) in *.
  repeat split.
  - unfold isolatedNodes. rewrite count_Map_values.
    apply NoDup_incl_length.
    + apply NoDup_keys_filter. apply NoDup_Map_keys_buildAdjacency.
    + intros k Hk. unfold Map_keys in Hk. apply in_map_iff in Hk.
      destruct Hk as [[k' ns] [Hfst Hin]]. cbn [fst] in Hfst. subst k'.
      apply filter_In in Hin. destruct Hin as [Hin Hempty]. cbn [snd] in Hempty.
      apply Nat.eqb_eq in Hempty. apply length_zero_iff_nil in Hempty. subst ns.
      assert (Hget : Map_get k adjacency = Some [])
        by (apply In_Map_get; [apply NoDup_Map_keys_buildAdjacency|assumption]).
      assert (Hkey : In k (Object_keys nodes)).
      { apply (In_Map_keys_buildAdjacency nodes edges).
        unfold Map_keys. apply in_map_iff. now exists (k, []). }
      destruct (Hcov k Hkey) as (r & Hr & Hreach).
      apply reach_last in Hreach. destruct Hreach as [<-|[c [_ Hstep]]];
        [assumption|].
      exfalso.
      assert (Hback : step adjacency k c).
      { apply step_buildAdjacency_sym; [assumption|].
        fold adjacency. congruence. }
      destruct Hback as (ns & Hns & Hc). fold adjacency in Hns.
      rewrite Hget in Hns. inversion Hns; subst. contradiction.
  - replace (List.length nodes) with (List.length (Object_keys nodes))
      by (unfold Object_keys; apply length_map).
    now apply NoDup_incl_length.
  - intros Hne. destruct nodes as [|[k n] nodes]; [contradiction|].
    destruct (Hcov k (or_introl eq_refl)) as (r & Hr & _).
    destruct roots; [contradiction|]. cbn [List.length]. lia.
Qed.

End Components.

(** ** Worked snapshots *)

Section Scenarios.

Import JS Graph Analytics.

(** Nodes A (book), B (author), C (theme) with the edges A-B and A-C: three
    nodes, two edges, one cluster, no isolated node, A ranked first with two
    connections. *)
Example star_statistics :
  exists stats,
    calculateGraphStats starNodes starEdges = Some stats
    /\ NodeStats.total (GraphStats.nodes stats) = 3
    /\ EdgeStats.total (GraphStats.edges stats) = 2
    /\ ConnectivityStats.clusters (GraphStats.connectivity stats) = 1
    /\ ConnectivityStats.isolatedNodes (GraphStats.connectivity stats) = 0
    /\ hd_error (EdgeStats.mostConnected (GraphStats.edges stats))
       = Some (NodeConnection.mk "A" "A" 2).
Proof. eexists. split; [vm_compute; reflexivity|]. repeat split. Qed.

(** The same nodes without the edge A-C: two clusters, C isolated. *)
Example star_without_one_edge :
  exists stats,
    calculateGraphStats starNodes [mkEdge "A" "B"] = Some stats
    /\ ConnectivityStats.clusters (GraphStats.connectivity stats) = 2
    /\ ConnectivityStats.isolatedNodes (GraphStats.connectivity stats) = 1.
Proof. eexists. split; [vm_compute; reflexivity|]. repeat split. Qed.

(** A theme stored under the id ["t1"] with the label ["Ecology"]: the
    edge that names it by id is not counted for it, the edge that names it
    by label is. *)
Example theme_counted_by_label :
  let nodes := [ mkNode "book" "Dune" None None None None;
                 mkNode "theme" "Ecology" None None None None ] in
  ContentStats.topThemes
    (calculateContentStats nodes [mkEdge "dune" "t1"])
  = [("Ecology", 0)]
  /\ ContentStats.topThemes
       (calculateContentStats nodes [mkEdge "Dune" "Ecology"])
     = [("Ecology", 1)].
Proof. split; reflexivity. Qed.

(** The empty snapshot. *)
Example empty_statistics :
  exists stats,
    calculateGraphStats [] [] = Some stats
    /\ ConnectivityStats.clusters (GraphStats.connectivity stats) = 0
    /\ number_eq (ConnectivityStats.density (GraphStats.connectivity stats))
                 (Finite 0)
    /\ number_eq (ConnectivityStats.averageDegree
                    (GraphStats.connectivity stats))
                 (Finite 0)
    /\ number_eq (EdgeStats.averageConnections (GraphStats.edges stats))
                 (Finite 0).
Proof. eexists. split; [vm_compute; reflexivity|]. repeat split. Qed.

End Scenarios.

(** ** Filters: composition, statistics and edge cases *)

Section FilterComposition.

Import JS Graph Filter Presets.

Variable toLowerCase : string -> string.

Lemma filter_filter {A} (p q : A -> bool) (l : list A) :
  filter q (filter p l) = filter (fun a => p a && q a) l.
Proof.
  induction l as [|a l IH]; [reflexivity|]. cbn [filter].
  destruct (p a); cbn [filter andb]; [destruct (q a)|]; now rewrite IH.
Qed.

Lemma filter_ext_bool {A} (p q : A -> bool) (l : list A) :
  (forall a, p a = q a) -> filter p l = filter q l.
Proof.
  intros H. induction l as [|a l IH]; [reflexivity|]. cbn [filter].
  now rewrite H, IH.
Qed.

Lemma applyFilters_app node c1 c2 :
  applyFilters toLowerCase node (c1 ++ c2)
  = applyFilters toLowerCase node c1 && applyFilters toLowerCase node c2.
Proof. unfold applyFilters. apply forallb_app. Qed.

(** X1.  Filtering by two lists of criteria in turn is filtering by their
    concatenation; filtering twice by the same criteria changes nothing
    more; the order of the two lists does not matter. *)
Theorem filterNodes_compose nodes c1 c2 :
  NoDup (Object_keys nodes) ->
  filterNodes toLowerCase (filterNodes toLowerCase nodes c1) c2
  = filterNodes toLowerCase nodes (c1 ++ c2)
  /\ filterNodes toLowerCase (filterNodes toLowerCase nodes c1) c1
     = filterNodes toLowerCase nodes c1
  /\ filterNodes toLowerCase nodes (c1 ++ c2)
     = filterNodes toLowerCase nodes (c2 ++ c1).
Proof.
  intros Hnd.
  assert (Hnd1 : NoDup (Object_keys
                          (filter (fun entry =>
                                     applyFilters toLowerCase (snd entry) c1)
                                  nodes)))
    by now apply NoDup_keys_filter.
  rewrite !(filterNodes_filter toLowerCase nodes) by assumption.
  rewrite !filterNodes_filter by assumption.
  rewrite !filter_filter. repeat split; apply filter_ext_bool; intros [k n];
    cbn [snd]; rewrite ?applyFilters_app.
  - reflexivity.
  - now destruct (applyFilters toLowerCase n c1).
  - apply andb_comm.
Qed.

Lemma percent_bounds count total :
  count <= total -> 0 < total ->
  exists q, mul (div (of_nat count) (of_nat total)) (Finite 100) = Finite q
            /\ (0 <= q)%Q /\ (q <= 100)%Q.
Proof.
  intros Hle Hpos. unfold div, mul, of_nat. rewrite of_nat_nonzero by assumption.
  eexists. split; [reflexivity|].
  assert (Ht : (0 < inject_Z (Z.of_nat total))%Q).
  { rewrite <- (Zlt_Qlt 0). lia. }
  assert (Hc : (0 <= inject_Z (Z.of_nat count))%Q).
  { rewrite <- (Zle_Qle 0). lia. }
  assert (Hct : (inject_Z (Z.of_nat count) <= inject_Z (Z.of_nat total))%Q).
  { rewrite <- Zle_Qle. lia. }
  split.
  - apply Qmult_le_0_compat; [|discriminate].
    apply Qle_shift_div_l; [assumption|]. now rewrite Qmult_0_l.
  - setoid_replace (100 : Q) with (1 * 100)%Q at 2 by ring.
    apply Qmult_le_compat_r; [|discriminate].
    apply Qle_shift_div_r; [assumption|]. now rewrite Qmult_1_l.
Qed.

(** X2.  [getFilterStats] never counts more nodes than there are and gives a
    percentage between 0 and 100; for an empty record the percentage is 0,
    the division being skipped. *)
Theorem getFilterStats_bounds nodes criteria :
  NoDup (Object_keys nodes) ->
  let stats := getFilterStats toLowerCase nodes criteria in
  total stats = List.length nodes
  /\ filtered stats <= total stats
  /\ (exists q, percentage stats = Finite q /\ (0 <= q)%Q /\ (q <= 100)%Q)
  /\ (nodes = [] -> percentage stats = Finite 0).
Proof.
  intros Hnd. cbv zeta. unfold getFilterStats.
  cbn [total filtered percentage].
  rewrite filterNodes_filter by assumption. unfold Object_keys.
  rewrite !length_map.
  pose proof (filter_length_le
                (fun entry => applyFilters toLowerCase (snd entry) criteria)
                nodes) as Hle.
  repeat split; try assumption.
  - destruct (Nat.ltb_spec 0 (List.length nodes)) as [Hpos|Hzero].
    + now apply percent_bounds.
    + exists 0%Q. repeat split; discriminate.
  - now intros ->.
Qed.

(** X3.  The preset that [createDefaultFilter] builds hides no node, whatever
    the node's type. *)
Theorem createDefaultFilter_shows_everything now1 now2 created name nodes :
  NoDup (Object_keys nodes) ->
  (forall node,
      applyFilters toLowerCase node
                   (criteria (createDefaultFilter now1 now2 created name))
      = true)
  /\ filterNodes toLowerCase nodes
                 (criteria (createDefaultFilter now1 now2 created name))
     = nodes.
Proof.
  intros Hnd.
  assert (Hall : forall node,
             applyFilters toLowerCase node
                          (criteria (createDefaultFilter now1 now2 created name))
             = true).
  { intros node. cbn. unfold types_lookup. cbn.
    now destruct (type node =? "book"), (type node =? "author"),
                 (type node =? "theme"). }
  split; [exact Hall|].
  rewrite filterNodes_filter by assumption.
  apply filter_all_true. intros [k n] _. apply Hall.
Qed.

(** X4.  With the same series names, the [include] and the [exclude] criterion
    split the nodes in two: each node passes exactly one of them, and a
    node without a series passes the [exclude] one. *)
Theorem series_include_exclude_partition node names id1 name1 id2 name2 :
  let including :=
    mkFilterCriteria id1 name1 true
                     (series (mkSeriesFilterConfig include names)) in
  let excluding :=
    mkFilterCriteria id2 name2 true
                     (series (mkSeriesFilterConfig exclude names)) in
  applyCriterion toLowerCase node excluding
  = negb (applyCriterion toLowerCase node including)
  /\ (truthy_string (Graph.series node) = false ->
      applyCriterion toLowerCase node including = false
      /\ applyCriterion toLowerCase node excluding = true).
Proof.
  cbv zeta. unfold applyCriterion.
  cbn [enabled config negb series_mode seriesNames].
  split; [reflexivity|]. intros ->. split; reflexivity.
Qed.

(** X5.  A publication year of 0 counts as no year: every enabled year
    criterion rejects the node.  A [range] criterion without bounds accepts
    exactly the years 1 to 9999. *)
Theorem year_filter_zero_and_default_range node id name config :
  (Graph.publicationYear node = Some 0%Z ->
   applyCriterion toLowerCase node
                  (mkFilterCriteria id name true (publicationYear config))
   = false)
  /\ (applyCriterion toLowerCase node
        (mkFilterCriteria id name true
           (publicationYear
              (mkPublicationYearFilterConfig range None None
                                             (exactYear config))))
      = true
      <-> exists year, Graph.publicationYear node = Some year
                       /\ (1 <= year <= 9999)%Z).
Proof.
  unfold applyCriterion. cbn [enabled Filter.config negb year_mode minYear maxYear].
  split.
  - intros ->. reflexivity.
  - destruct (Graph.publicationYear node) as [year|]; cbn [truthy_int nullish].
    + destruct (Z.eqb_spec year 0) as [->|Hne]; cbn [negb].
      * split; [discriminate|]. intros [y [[= <-] Hy]]. lia.
      * rewrite andb_true_iff, !Z.leb_le. split.
        -- intros H. exists year. split; [reflexivity|lia].
        -- intros [y [[= <-] Hy]]. lia.
    + split; [discriminate|]. intros [y [Hy _]]. discriminate.
Qed.

(** X6.  A node type other than book, author and theme passes every node-type
    criterion, also one that switches the three types off. *)
Theorem nodeType_filter_passes_other_types node id name config :
  type node <> "book" -> type node <> "author" -> type node <> "theme" ->
  applyCriterion toLowerCase node
                 (mkFilterCriteria id name true (nodeType config))
  = true.
Proof.
  intros Hb Ha Ht. unfold applyCriterion.
  cbn [enabled Filter.config negb]. unfold types_lookup.
  destruct (String.eqb_spec (type node) "book"); [contradiction|].
  destruct (String.eqb_spec (type node) "author"); [contradiction|].
  destruct (String.eqb_spec (type node) "theme"); [contradiction|].
  reflexivity.
Qed.

(** X7.  A description criterion in [all] mode passes a node when each part of
    its keyword list does, and one in [any] mode when some part does;
    without keywords the first passes every node and the second none. *)
Theorem description_filter_keyword_lists node id name sensitive ks1 ks2 :
  let criterion mode ks :=
    mkFilterCriteria id name true
      (Filter.description (mkDescriptionFilterConfig ks mode sensitive)) in
  applyCriterion toLowerCase node (criterion all (ks1 ++ ks2))
  = applyCriterion toLowerCase node (criterion all ks1)
    && applyCriterion toLowerCase node (criterion all ks2)
  /\ applyCriterion toLowerCase node (criterion any (ks1 ++ ks2))
     = applyCriterion toLowerCase node (criterion any ks1)
       || applyCriterion toLowerCase node (criterion any ks2)
  /\ applyCriterion toLowerCase node (criterion all []) = true
  /\ applyCriterion toLowerCase node (criterion any []) = false.
Proof.
  cbv zeta. unfold applyCriterion.
  cbn [enabled Filter.config negb keywords matchMode caseSensitive].
  rewrite !map_app, forallb_app, existsb_app. repeat split.
Qed.

End FilterComposition.

Lemma sampleNodes_NoDup : NoDup (Graph.Object_keys sampleNodes).
Proof. repeat constructor; simpl; intuition discriminate. Qed.

Lemma filterNodes_compose_witness :
  NoDup (Graph.Object_keys sampleNodes)
  /\ Filter.filterNodes (fun s => s)
       (Filter.filterNodes (fun s => s) sampleNodes sampleCriteria)
       sampleCriteria
     = Filter.filterNodes (fun s => s) sampleNodes sampleCriteria.
Proof.
  split; [exact sampleNodes_NoDup|].
  exact (proj1 (proj2 (filterNodes_compose (fun s => s) sampleNodes
                                           sampleCriteria []
                                           sampleNodes_NoDup))).
Defined.

Lemma getFilterStats_bounds_witness :
  NoDup (Graph.Object_keys sampleNodes)
  /\ Presets.total (Presets.getFilterStats (fun s => s) sampleNodes
                                           sampleCriteria)
     = 3.
Proof.
  split; [exact sampleNodes_NoDup|].
  exact (proj1 (getFilterStats_bounds (fun s => s) sampleNodes sampleCriteria
                                      sampleNodes_NoDup)).
Defined.

Lemma createDefaultFilter_shows_everything_witness :
  NoDup (Graph.Object_keys sampleNodes)
  /\ Filter.filterNodes (fun s => s) sampleNodes
       (Presets.criteria (Presets.createDefaultFilter 1 2 "now" "All"))
     = sampleNodes.
Proof.
  split; [exact sampleNodes_NoDup|].
  exact (proj2 (createDefaultFilter_shows_everything
                  (fun s => s) 1 2 "now" "All" sampleNodes
                  sampleNodes_NoDup)).
Defined.

Lemma nodeType_filter_passes_other_types_witness :
  Graph.type genreNode <> "book"
  /\ Graph.type genreNode <> "author"
  /\ Graph.type genreNode <> "theme"
  /\ Filter.applyCriterion (fun s => s) genreNode
       (Filter.mkFilterCriteria "c" "Types" true
          (Filter.nodeType (Filter.mkNodeTypeFilterConfig false false false)))
     = true.
Proof.
  assert (Hb : Graph.type genreNode <> "book") by discriminate.
  assert (Ha : Graph.type genreNode <> "author") by discriminate.
  assert (Ht : Graph.type genreNode <> "theme") by discriminate.
  refine (conj Hb (conj Ha (conj Ht _))).
  exact (nodeType_filter_passes_other_types
           (fun s => s) genreNode "c" "Types"
           (Filter.mkNodeTypeFilterConfig false false false) Hb Ha Ht).
Defined.

(** ** Saved presets *)

Section PresetFacts.

Import JS Filter Presets.

Lemma upsert_cons f g saved :
  upsert f (g :: saved)
  = if id g =? id f then f :: saved else g :: upsert f saved.
Proof.
  unfold upsert. cbn [findIndex].
  destruct (id g =? id f); [reflexivity|].
  destruct (findIndex (id f) saved); reflexivity.
Qed.

Lemma find_upsert_same f saved :
  find (fun g => id g =? id f) (upsert f saved) = Some f.
Proof.
  induction saved as [|g saved IH].
  - cbn. now rewrite String.eqb_refl.
  - rewrite upsert_cons. destruct (id g =? id f) eqn:E; cbn [find].
    + now rewrite String.eqb_refl.
    + now rewrite E.
Qed.

Lemma find_upsert_other f saved other :
  other <> id f ->
  find (fun g => id g =? other) (upsert f saved)
  = find (fun g => id g =? other) saved.
Proof.
  intros Hne. induction saved as [|g saved IH].
  - cbn. destruct (String.eqb_spec (id f) other); [congruence|reflexivity].
  - rewrite upsert_cons. destruct (String.eqb_spec (id g) (id f)) as [E|Hgf];
      cbn [find].
    + destruct (String.eqb_spec (id f) other); [congruence|].
      destruct (String.eqb_spec (id g) other); [congruence|reflexivity].
    + destruct (id g =? other); [reflexivity|assumption].
Qed.

Lemma ids_upsert f saved :
  ids (upsert f saved)
  = if existsb (String.eqb (id f)) (ids saved) then ids saved
    else ids saved ++ [id f].
Proof.
  induction saved as [|g saved IH]; [reflexivity|].
  rewrite upsert_cons. cbn [ids map existsb].
  rewrite (String.eqb_sym (id f) (id g)).
  destruct (String.eqb_spec (id g) (id f)) as [E|Hne]; cbn [ids map orb].
  - now rewrite E.
  - unfold ids in IH. rewrite IH. now destruct (existsb _ _).
Qed.

Lemma find_remove_same filterId saved :
  find (fun g => id g =? filterId)
       (filter (fun g => negb (id g =? filterId)) saved)
  = None.
Proof.
  induction saved as [|g saved IH]; [reflexivity|]. cbn [filter].
  destruct (id g =? filterId) eqn:E; cbn [negb find]; [assumption|].
  now rewrite E.
Qed.

Lemma find_remove_other filterId saved other :
  other <> filterId ->
  find (fun g => id g =? other)
       (filter (fun g => negb (id g =? filterId)) saved)
  = find (fun g => id g =? other) saved.
Proof.
  intros Hne. induction saved as [|g saved IH]; [reflexivity|]. cbn [filter find].
  destruct (String.eqb_spec (id g) filterId) as [E|Hg]; cbn [negb find].
  - destruct (String.eqb_spec (id g) other); [congruence|assumption].
  - destruct (id g =? other); [reflexivity|assumption].
Qed.


Lemma saveFilter_lookup f s s' :
  saveFilter f s = (true, s') ->
  getFilterById (id f) s' = Returns (Some f)
  /\ forall other, other <> id f ->
                   getFilterById other s' = getFilterById other s.
Proof.
  unfold saveFilter, getFilterById.
  destruct (getSavedFilters s) as [saved|] eqn:Eget; [|discriminate].
  destruct (accepts s (upsert f saved)); [|discriminate].
  intros [= <-]. unfold getSavedFilters at 1 2. cbn [item]. split.
  - now rewrite find_upsert_same.
  - intros other Hne. now rewrite find_upsert_other.
Qed.


(** X8.  A filter that [saveFilter] reports as saved is the one
    [getFilterById] finds under its id, and the filters saved under other
    ids are found as before. *)
Theorem saveFilter_then_getFilterById f s s' :
  saveFilter f s = (true, s') ->
  getFilterById (id f) s' = Returns (Some f)
  /\ forall other, other <> id f ->
                   getFilterById other s' = getFilterById other s.
Proof. apply saveFilter_lookup. Qed.

(** X9.  After a [deleteFilter] that reports success no filter is found under
    the id, and the filters saved under other ids are found as before. *)
Theorem deleteFilter_then_getFilterById filterId s s' :
  deleteFilter filterId s = (true, s') ->
  getFilterById filterId s' = Returns None
  /\ forall other, other <> filterId ->
                   getFilterById other s' = getFilterById other s.
Proof.
  unfold deleteFilter, getFilterById.
  destruct (getSavedFilters s) as [saved|] eqn:Eget; [|discriminate].
  destruct (accepts s _); [|discriminate].
  intros [= <-]. unfold getSavedFilters at 1 2. cbn [item]. split.
  - now rewrite find_remove_same.
  - intros other Hne. now rewrite find_remove_other.
Qed.

(** X10.  Saving keeps the saved ids distinct: a filter whose id is already
    saved replaces that filter in place, and a filter with a new id is
    appended; deleting removes ids and never adds one. *)
Theorem preset_ids_stay_distinct f filterId saved accepts :
  NoDup (ids saved) ->
  let s := mkStorage (Filters saved) accepts in
  (forall s', saveFilter f s = (true, s') ->
              exists saved',
                item s' = Filters saved'
                /\ NoDup (ids saved')
                /\ ids saved'
                   = (if existsb (String.eqb (id f)) (ids saved)
                      then ids saved else ids saved ++ [id f]))
  /\ (forall s', deleteFilter filterId s = (true, s') ->
                 exists saved',
                   item s' = Filters saved'
                   /\ NoDup (ids saved')
                   /\ incl (ids saved') (ids saved)
                   /\ ~ In filterId (ids saved')).
Proof.
  intros Hnd. cbv zeta. split; intros s'.
  - unfold saveFilter. cbn [getSavedFilters item Presets.accepts].
    destruct (accepts (upsert f saved)); [|discriminate].
    intros [= <-]. exists (upsert f saved). cbn [item].
    split; [reflexivity|]. rewrite ids_upsert.
    split; [|reflexivity].
    destruct (existsb (String.eqb (id f)) (ids saved)) eqn:E; [assumption|].
    apply NoDup_snoc; [assumption|now apply existsb_eqb_not_In].
  - unfold deleteFilter. cbn [getSavedFilters item Presets.accepts].
    destruct (accepts _); [|discriminate].
    intros [= <-]. eexists. cbn [item]. split; [reflexivity|].
    set (keep := fun g => negb (id g =? filterId)).
    assert (Hsub : forall x, In x (ids (filter keep saved)) ->
                             In x (ids saved) /\ x <> filterId).
    { intros x Hx. unfold ids in *. apply in_map_iff in Hx.
      destruct Hx as [g [<- Hg]]. apply filter_In in Hg.
      destruct Hg as [Hg Hk]. split; [now apply in_map|].
      unfold keep in Hk. apply negb_true_iff in Hk.
      now apply String.eqb_neq in Hk. }
    repeat split.
    + unfold ids in *. clear Hsub. induction saved as [|g saved IH];
        [constructor|].
      cbn [filter map] in *. inversion Hnd as [|? ? Hg Hrest]; subst.
      destruct (keep g); cbn [map]; [constructor|]; try now apply IH.
      intros Hin. apply Hg. apply in_map_iff in Hin.
      destruct Hin as [h [Hid Hh]]. apply filter_In in Hh.
      apply in_map_iff. exists h. tauto.
    + intros x Hx. now apply Hsub.
    + intros Hx. now apply Hsub in Hx.
Qed.

(** X11.  A stored text that does not parse reads as no filters, so the first
    save replaces it by the saved filter alone.  A stored value that is not
    an array makes [saveFilter] and [deleteFilter] return [false] and leave
    it in place, and makes [getFilterById] and [updateFilterLastUsed]
    raise. *)
Theorem unreadable_presets f filterId now accepts :
  (getSavedFilters (mkStorage Malformed accepts) = Arr []
   /\ (accepts [f] = true ->
       saveFilter f (mkStorage Malformed accepts)
       = (true, mkStorage (Filters [f]) accepts)))
  /\ (let s := mkStorage NotAnArray accepts in
      saveFilter f s = (false, s)
      /\ deleteFilter filterId s = (false, s)
      /\ getFilterById filterId s = Throws
      /\ updateFilterLastUsed now filterId s = Throws).
Proof.
  split; [split; [reflexivity|]|repeat split].
  intros H. unfold saveFilter. cbn. now rewrite H.
Qed.


End PresetFacts.

Lemma saveFilter_then_getFilterById_witness :
  Presets.saveFilter samplePreset emptyStorage = (true, savedStorage)
  /\ Presets.getFilterById "f1" savedStorage
     = Presets.Returns (Some samplePreset).
Proof.
  split; [reflexivity|].
  exact (proj1 (saveFilter_then_getFilterById samplePreset emptyStorage
                                              savedStorage eq_refl)).
Defined.

Lemma deleteFilter_then_getFilterById_witness :
  Presets.deleteFilter "f1" savedStorage
  = (true, Presets.mkStorage (Presets.Filters []) (fun _ => true))
  /\ Presets.getFilterById
       "f1" (Presets.mkStorage (Presets.Filters []) (fun _ => true))
     = Presets.Returns None.
Proof.
  split; [reflexivity|].
  exact (proj1 (deleteFilter_then_getFilterById "f1" savedStorage _ eq_refl)).
Defined.

Lemma preset_ids_stay_distinct_witness :
  NoDup (Presets.ids [samplePreset])
  /\ exists saved',
      Presets.item (snd (Presets.saveFilter samplePreset savedStorage))
      = Presets.Filters saved'
      /\ NoDup (Presets.ids saved').
Proof.
  assert (Hnd : NoDup (Presets.ids [samplePreset])).
  { repeat constructor. simpl. tauto. }
  split; [exact Hnd|].
  destruct (proj1 (preset_ids_stay_distinct samplePreset "f1" [samplePreset]
                                            (fun _ => true) Hnd)
                  (snd (Presets.saveFilter samplePreset savedStorage))
                  eq_refl)
    as (saved' & Hitem & Hdistinct & _).
  exists saved'. split; assumption.
Defined.

(** ** Node radius, hit testing and the engine's life cycle *)

Section LayoutMore.

Import JS Layout Forces.
Local Open Scope Q_scope.

Lemma getNodeTypeMultiplier_pos t : 0 < getNodeTypeMultiplier t.
Proof. destruct t; reflexivity. Qed.

Lemma Qmult_le_compat_nonneg k a b : 0 <= k -> a <= b -> k * a <= k * b.
Proof.
  intros Hk Hab. rewrite !(Qmult_comm k). now apply Qmult_le_compat_r.
Qed.

(** X13.  For a radius setting that is not negative, a node is drawn no larger
    than a node of the same type that is nearer to the seed. *)
Theorem getNodeRadius_shrinks_with_depth cfg n1 n2 :
  0 <= nodeRadius cfg -> type n1 = type n2 -> depth n1 <= depth n2 ->
  getNodeRadius cfg n2 <= getNodeRadius cfg n1.
Proof.
  intros Hbase Htype Hdepth. unfold getNodeRadius. cbv zeta. rewrite Htype.
  apply Qmult_le_compat_nonneg.
  - apply Qmult_le_0_compat; [assumption|].
    apply Qlt_le_weak, getNodeTypeMultiplier_pos.
  - lra.
Qed.

Lemma getNodeRadius_sign cfg n :
  0 < nodeRadius cfg -> 0 <= getNodeRadius cfg n -> depth n <= 8.
Proof.
  intros Hbase Hr. unfold getNodeRadius in Hr. cbv zeta in Hr.
  pose proof (getNodeTypeMultiplier_pos (type n)) as Htm.
  assert (Hk : 0 < nodeRadius cfg * getNodeTypeMultiplier (type n)).
  { apply Qmult_lt_0_compat; assumption. }
  set (k := nodeRadius cfg * getNodeTypeMultiplier (type n)) in *.
  destruct (Qlt_le_dec 8 (depth n)) as [Hdeep|]; [|assumption].
  exfalso.
  assert (Hneg : 1 + (3 - depth n) * (2 # 10) < 0) by lra.
  assert (Hprod : k * (1 + (3 - depth n) * (2 # 10)) < k * 0).
  { rewrite !(Qmult_comm k). apply Qmult_lt_compat_r; assumption. }
  rewrite Qmult_0_r in Hprod. apply (Qlt_not_le _ _ Hprod Hr).
Qed.

Lemma hit_withinRadius cfg px py n :
  hit cfg px py n = true ->
  exists nx ny, x n = Some nx /\ y n = Some ny
                /\ ~ nx == 0 /\ ~ ny == 0
                /\ withinRadius cfg px py n nx ny = true.
Proof.
  unfold hit. destruct (x n) as [nx|]; [|discriminate].
  destruct (y n) as [ny|]; [|discriminate].
  cbn [truthy_number]. rewrite !andb_true_iff, !negb_true_iff.
  intros [[Hx Hy] Hw]. exists nx, ny. repeat split; try assumption.
  - intros E. apply Qeq_bool_iff in E. congruence.
  - intros E. apply Qeq_bool_iff in E. congruence.
Qed.

Lemma withinRadius_radius cfg px py n nx ny :
  withinRadius cfg px py n nx ny = true -> 0 <= getNodeRadius cfg n.
Proof.
  unfold withinRadius, sqrt_le. cbv zeta. rewrite andb_true_iff.
  intros [H _]. now apply Qle_bool_iff.
Qed.

(** X14.  With a positive radius setting a node deeper than 8 has a negative
    radius, so [findNodeAt] returns no node deeper than 8. *)
Theorem findNodeAt_never_finds_deep_nodes cfg px py nodes n :
  0 < nodeRadius cfg ->
  findNodeAt cfg px py nodes = Some n ->
  depth n <= 8.
Proof.
  intros Hbase Hfound. rewrite findNodeAt_first_hit in Hfound.
  apply find_some in Hfound. destruct Hfound as [_ Hhit].
  apply hit_withinRadius in Hhit.
  destruct Hhit as (nx & ny & _ & _ & _ & _ & Hw).
  apply (getNodeRadius_sign cfg n Hbase).
  now apply (withinRadius_radius cfg px py n nx ny).
Qed.

Lemma find_first {A} (p : A -> bool) (l : list A) a :
  find p l = Some a
  <-> exists before after,
      l = before ++ a :: after /\ p a = true
      /\ forall b, In b before -> p b = false.
Proof.
  induction l as [|c l IH]; cbn [find].
  - split; [discriminate|]. intros (before & after & E & _).
    destruct before; discriminate.
  - destruct (p c) eqn:Ec.
    + split.
      * intros [= <-]. exists [], l. repeat split; [assumption|intros b []].
      * intros (before & after & E & Ha & Hb). destruct before as [|b before].
        -- now inversion E.
        -- inversion E; subst. rewrite (Hb b) in Ec by now left. discriminate.
    + rewrite IH. split.
      * intros (before & after & E & Ha & Hb).
        exists (c :: before), after. subst. repeat split; [assumption|].
        intros b [<-|Hin]; [assumption|now apply Hb].
      * intros (before & after & E & Ha & Hb). destruct before as [|b before].
        -- inversion E; subst. congruence.
        -- inversion E; subst. exists before, after.
           repeat split; [assumption|]. intros b' Hin. apply Hb. now right.
Qed.

(** X15.  [findNodeAt] returns a node exactly when the node has a non-zero [x]
    and a non-zero [y], the point is within its radius, and no node before
    it in the list is such a node; it returns [null] exactly when no node
    of the list is. *)
Theorem findNodeAt_first_match cfg px py nodes :
  (forall n,
      findNodeAt cfg px py nodes = Some n
      <-> exists before after,
          nodes = before ++ n :: after
          /\ hit cfg px py n = true
          /\ forall m, In m before -> hit cfg px py m = false)
  /\ (findNodeAt cfg px py nodes = None
      <-> forall m, In m nodes -> hit cfg px py m = false)
  /\ (forall n, hit cfg px py n = true
                <-> exists nx ny,
                    x n = Some nx /\ y n = Some ny
                    /\ ~ nx == 0 /\ ~ ny == 0
                    /\ 0 <= getNodeRadius cfg n
                    /\ (px - nx) * (px - nx) + (py - ny) * (py - ny)
                       <= getNodeRadius cfg n * getNodeRadius cfg n).
Proof.
  rewrite findNodeAt_first_hit. split; [|split].
  - intros n. apply find_first.
  - split.
    + intros H m Hm. now apply (find_none _ _ H).
    + intros H. destruct (find (hit cfg px py) nodes) as [n|] eqn:E;
        [|reflexivity].
      apply find_some in E. destruct E as [Hin Hhit].
      rewrite (H n Hin) in Hhit. discriminate.
  - intros n. unfold hit. split.
    + destruct (x n) as [nx|]; [|discriminate].
      destruct (y n) as [ny|]; [|discriminate].
      cbn [truthy_number]. unfold withinRadius, sqrt_le. cbv zeta.
      rewrite !andb_true_iff, !negb_true_iff, !Qle_bool_iff.
      intros [[Hx Hy] [Hr Hd]]. exists nx, ny. repeat split; try assumption.
      * intros E. apply Qeq_bool_iff in E. congruence.
      * intros E. apply Qeq_bool_iff in E. congruence.
    + intros (nx & ny & -> & -> & Hx & Hy & Hr & Hd).
      cbn [truthy_number]. unfold withinRadius, sqrt_le. cbv zeta.
      rewrite !andb_true_iff, !negb_true_iff, !Qle_bool_iff.
      repeat split; try assumption.
      * destruct (Qeq_bool nx 0) eqn:E; [|reflexivity].
        apply Qeq_bool_iff in E. contradiction.
      * destruct (Qeq_bool ny 0) eqn:E; [|reflexivity].
        apply Qeq_bool_iff in E. contradiction.
Qed.

(** X16.  A point at the very centre of a node of the list always finds a node,
    provided the node has two non-zero coordinates and a radius that is
    not negative. *)
Theorem findNodeAt_at_centre cfg nodes n nx ny :
  In n nodes -> x n = Some nx -> y n = Some ny ->
  ~ nx == 0 -> ~ ny == 0 -> 0 <= getNodeRadius cfg n ->
  findNodeAt cfg nx ny nodes <> None.
Proof.
  intros Hin Hx Hy Hnx Hny Hr Hnone.
  rewrite findNodeAt_first_hit in Hnone.
  pose proof (find_none _ _ Hnone n Hin) as Hmiss.
  unfold hit in Hmiss. rewrite Hx, Hy in Hmiss. cbn [truthy_number] in Hmiss.
  assert (Ex : Qeq_bool nx 0 = false).
  { destruct (Qeq_bool nx 0) eqn:E; [|reflexivity].
    apply Qeq_bool_iff in E. contradiction. }
  assert (Ey : Qeq_bool ny 0 = false).
  { destruct (Qeq_bool ny 0) eqn:E; [|reflexivity].
    apply Qeq_bool_iff in E. contradiction. }
  rewrite Ex, Ey in Hmiss. cbn [negb andb] in Hmiss.
  unfold withinRadius, sqrt_le in Hmiss. cbv zeta in Hmiss.
  apply andb_false_iff in Hmiss. destruct Hmiss as [H|H].
  - apply Qle_bool_iff in Hr. congruence.
  - assert (Hd : (nx - nx) * (nx - nx) + (ny - ny) * (ny - ny)
                 <= getNodeRadius cfg n * getNodeRadius cfg n).
    { setoid_replace ((nx - nx) * (nx - nx) + (ny - ny) * (ny - ny))
        with (0 * 0) by ring.
      rewrite Qmult_0_l. now apply Qmult_le_0_compat. }
    apply Qle_bool_iff in Hd. congruence.
Qed.

(** X17.  For a link distance setting that is not negative, the target distance
    of an edge grows with its strength, and for a strength between 0 and 1
    it lies between the setting and one and a half times the setting. *)
Theorem linkForceDistance_grows_with_strength cfg d1 d2 :
  0 <= linkDistance cfg ->
  (strength d1 <= strength d2 ->
   linkForceDistance cfg d1 <= linkForceDistance cfg d2)
  /\ (0 <= strength d1 -> strength d1 <= 1 ->
      linkDistance cfg <= linkForceDistance cfg d1
      /\ linkForceDistance cfg d1 <= linkDistance cfg * (15 # 10)).
Proof.
  intros Hbase. unfold linkForceDistance. cbv zeta. split.
  - intros Hs. apply Qmult_le_compat_nonneg; [assumption|lra].
  - intros H0 H1. split.
    + setoid_replace (linkDistance cfg) with (linkDistance cfg * 1) at 1 by ring.
      apply Qmult_le_compat_nonneg; [assumption|lra].
    + apply Qmult_le_compat_nonneg; [assumption|lra].
Qed.

Lemma call_destroyed eng node c :
  simulation eng = None -> call (eng, node) c = (eng, node).
Proof.
  intros H. destruct c; cbn [call]; unfold start, stop, reheat, dragStarted,
    dragEnded; now rewrite H.
Qed.

(** X18.  After [destroy], no sequence of [start], [stop], [reheat],
    [dragStarted] and [dragEnded] calls changes the engine or the node: the
    simulation stays released and [dragStarted] does not pin. *)
Theorem destroyed_engine_ignores_calls eng node cs :
  calls (destroy eng, node) cs = (destroy eng, node).
Proof.
  unfold calls. induction cs as [|c cs IH]; [reflexivity|].
  cbn [fold_left]. rewrite call_destroyed by reflexivity. exact IH.
Qed.

End LayoutMore.

Lemma getNodeRadius_shrinks_with_depth_witness :
  (0 <= Layout.nodeRadius Layout.defaultConfig)%Q
  /\ Layout.type Layout.nodeOnAxis = Layout.type nodeOffAxis
  /\ (Layout.depth Layout.nodeOnAxis <= Layout.depth nodeOffAxis)%Q
  /\ (Layout.getNodeRadius Layout.defaultConfig nodeOffAxis
      <= Layout.getNodeRadius Layout.defaultConfig Layout.nodeOnAxis)%Q.
Proof.
  assert (H1 : (0 <= Layout.nodeRadius Layout.defaultConfig)%Q)
    by (vm_compute; discriminate).
  assert (H2 : Layout.type Layout.nodeOnAxis = Layout.type nodeOffAxis)
    by reflexivity.
  assert (H3 : (Layout.depth Layout.nodeOnAxis <= Layout.depth nodeOffAxis)%Q)
    by (vm_compute; discriminate).
  refine (conj H1 (conj H2 (conj H3 _))).
  exact (getNodeRadius_shrinks_with_depth Layout.defaultConfig Layout.nodeOnAxis
                                          nodeOffAxis H1 H2 H3).
Defined.

Lemma findNodeAt_never_finds_deep_nodes_witness :
  (0 < Layout.nodeRadius Layout.defaultConfig)%Q
  /\ Layout.findNodeAt Layout.defaultConfig 3 4 [Layout.nodeOnAxis; nodeOffAxis]
     = Some nodeOffAxis
  /\ (Layout.depth nodeOffAxis <= 8)%Q.
Proof.
  assert (H1 : (0 < Layout.nodeRadius Layout.defaultConfig)%Q)
    by reflexivity.
  assert (H2 : Layout.findNodeAt Layout.defaultConfig 3 4
                                 [Layout.nodeOnAxis; nodeOffAxis]
               = Some nodeOffAxis) by reflexivity.
  refine (conj H1 (conj H2 _)).
  exact (findNodeAt_never_finds_deep_nodes
           Layout.defaultConfig 3 4 [Layout.nodeOnAxis; nodeOffAxis] nodeOffAxis
           H1 H2).
Defined.

Lemma findNodeAt_at_centre_witness :
  In nodeOffAxis [Layout.nodeOnAxis; nodeOffAxis]
  /\ Layout.x nodeOffAxis = Some 3%Q /\ Layout.y nodeOffAxis = Some 4%Q
  /\ ~ (3 == 0)%Q /\ ~ (4 == 0)%Q
  /\ (0 <= Layout.getNodeRadius Layout.defaultConfig nodeOffAxis)%Q
  /\ Layout.findNodeAt Layout.defaultConfig 3 4 [Layout.nodeOnAxis; nodeOffAxis]
     <> None.
Proof.
  assert (H1 : In nodeOffAxis [Layout.nodeOnAxis; nodeOffAxis])
    by (right; left; reflexivity).
  assert (H2 : ~ (3 == 0)%Q) by discriminate.
  assert (H3 : ~ (4 == 0)%Q) by discriminate.
  assert (H4 : (0 <= Layout.getNodeRadius Layout.defaultConfig nodeOffAxis)%Q)
    by (vm_compute; discriminate).
  refine (conj H1 (conj eq_refl (conj eq_refl (conj H2 (conj H3 (conj H4 _)))))).
  exact (findNodeAt_at_centre Layout.defaultConfig [Layout.nodeOnAxis; nodeOffAxis]
                              nodeOffAxis 3 4 H1 eq_refl eq_refl H2 H3 H4).
Defined.

Lemma linkForceDistance_grows_with_strength_witness :
  (0 <= Layout.linkDistance Layout.defaultConfig)%Q
  /\ (Layout.linkDistance Layout.defaultConfig
      <= Forces.linkForceDistance Layout.defaultConfig sampleLink)%Q.
Proof.
  assert (H1 : (0 <= Layout.linkDistance Layout.defaultConfig)%Q)
    by (vm_compute; discriminate).
  split; [exact H1|].
  refine (proj1 (proj2 (linkForceDistance_grows_with_strength
                          Layout.defaultConfig sampleLink sampleLink H1)
                       _ _)); vm_compute; discriminate.
Defined.

(** ** Sorted rankings *)

Section SortFacts.

Import JS.
Context {A : Type}.
Variable key : A -> Z.

Local Abbreviation descending := (Ranking.descending key).

Lemma insert_desc_sorted x sorted :
  StronglySorted descending sorted ->
  StronglySorted descending (insert_desc key x sorted).
Proof.
  induction sorted as [|y rest IH]; intros Hs; cbn [insert_desc].
  - repeat constructor.
  - inversion Hs as [|? ? Hrest Hall]; subst.
    destruct (Z.leb_spec (key y) (key x)) as [Hle|Hgt].
    + constructor; [assumption|]. constructor; [exact Hle|].
      rewrite Forall_forall in *. intros b Hb. unfold Ranking.descending in *.
      specialize (Hall b Hb). lia.
    + constructor; [now apply IH|].
      rewrite Forall_forall in *. intros b Hb.
      apply In_insert_desc in Hb. destruct Hb as [->|Hb].
      * unfold Ranking.descending. lia.
      * now apply Hall.
Qed.

Lemma sort_desc_sorted a : StronglySorted descending (sort_desc key a).
Proof.
  induction a as [|x a IH]; [constructor|].
  cbn [sort_desc fold_right]. now apply insert_desc_sorted.
Qed.

Lemma filter_insert_desc (p : A -> bool) x sorted :
  (forall y, p y = true -> p x = true -> key y = key x) ->
  filter p (insert_desc key x sorted)
  = if p x then x :: filter p sorted else filter p sorted.
Proof.
  intros Hsame. induction sorted as [|y rest IH]; cbn [insert_desc filter].
  - reflexivity.
  - destruct (Z.leb_spec (key y) (key x)) as [Hle|Hgt]; cbn [filter].
    + reflexivity.
    + rewrite IH. destruct (p y) eqn:Ey; [|reflexivity].
      destruct (p x) eqn:Ex; [|reflexivity].
      specialize (Hsame y Ey eq_refl). lia.
Qed.

(** The sort is stable: the entries with one key keep their order. *)
Lemma sort_desc_stable k a :
  filter (fun y => (key y =? k)%Z) (sort_desc key a)
  = filter (fun y => (key y =? k)%Z) a.
Proof.
  induction a as [|x a IH]; [reflexivity|].
  cbn [sort_desc fold_right filter]. rewrite filter_insert_desc.
  - unfold sort_desc in IH. now rewrite IH.
  - intros y Hy Hx. apply Z.eqb_eq in Hy. apply Z.eqb_eq in Hx. lia.
Qed.

End SortFacts.

Section SortedLists.

Context {A : Type}.
Variable R : A -> A -> Prop.

Lemma StronglySorted_app l1 l2 :
  StronglySorted R (l1 ++ l2) ->
  StronglySorted R l1 /\ StronglySorted R l2
  /\ forall a b, In a l1 -> In b l2 -> R a b.
Proof.
  induction l1 as [|x l1 IH]; cbn [app]; intros Hs.
  - repeat split; [constructor|assumption|intros a b []].
  - inversion Hs as [|? ? Hrest Hall]; subst.
    destruct (IH Hrest) as (H1 & H2 & H12). rewrite Forall_forall in Hall.
    repeat split; try assumption.
    + constructor; [assumption|]. rewrite Forall_forall. intros b Hb.
      apply Hall. apply in_or_app. now left.
    + intros a b [<-|Ha] Hb; [|now apply H12].
      apply Hall. apply in_or_app. now right.
Qed.

Lemma StronglySorted_rev l :
  StronglySorted R l -> StronglySorted (fun a b => R b a) (rev l).
Proof.
  induction l as [|x l IH]; intros Hs; [constructor|].
  inversion Hs as [|? ? Hrest Hall]; subst. cbn [rev].
  rewrite Forall_forall in Hall.
  assert (Hgen : forall l1, StronglySorted (fun a b => R b a) l1 ->
                            (forall a, In a l1 -> R x a) ->
                            StronglySorted (fun a b => R b a) (l1 ++ [x])).
  { induction l1 as [|y l1 IH1]; intros H1 Hx; cbn [app].
    - repeat constructor.
    - inversion H1 as [|? ? Hr Ha]; subst. constructor.
      + apply IH1; [assumption|]. intros a Ha'. apply Hx. now right.
      + rewrite Forall_forall in *. intros b Hb. apply in_app_or in Hb.
        destruct Hb as [Hb|[<-|[]]]; [now apply Ha|]. apply Hx. now left. }
  apply Hgen; [now apply IH|]. intros a Ha. apply Hall. now apply in_rev.
Qed.

End SortedLists.

(** ** Histograms *)

Section HistogramFacts.

Import JS Graph Analytics Ranking.

Lemma histogram_snoc l k : histogram (l ++ [k]) = increment k (histogram l).
Proof. unfold histogram. now rewrite fold_left_app. Qed.

Lemma firstAppearances_snoc l k :
  firstAppearances (l ++ [k]) = Set_add k (firstAppearances l).
Proof. unfold firstAppearances. now rewrite fold_left_app. Qed.

(** The keys of a histogram stand in the order in which they first
    occur. *)
Lemma Map_keys_histogram l : Map_keys (histogram l) = firstAppearances l.
Proof.
  induction l as [|k l IH] using rev_ind; [reflexivity|].
  rewrite histogram_snoc, firstAppearances_snoc. unfold increment.
  rewrite Map_keys_set, IH. reflexivity.
Qed.

Lemma In_firstAppearances l k : In k (firstAppearances l) <-> In k l.
Proof.
  induction l as [|x l IH] using rev_ind; [reflexivity|].
  rewrite firstAppearances_snoc, in_app_iff. unfold Set_add, Set_has.
  destruct (existsb (String.eqb x) (firstAppearances l)) eqn:E.
  - apply existsb_eqb_In in E. cbn [In]. rewrite IH.
    split; [tauto|]. intros [H|[<-|[]]]; [assumption|now apply IH].
  - rewrite in_app_iff, IH. reflexivity.
Qed.

Lemma NoDup_firstAppearances l : NoDup (firstAppearances l).
Proof.
  induction l as [|x l IH] using rev_ind; [constructor|].
  rewrite firstAppearances_snoc. unfold Set_add, Set_has.
  destruct (existsb (String.eqb x) (firstAppearances l)) eqn:E; [assumption|].
  apply NoDup_snoc; [assumption|now apply existsb_eqb_not_In].
Qed.

Lemma getOrZero_histogram l k :
  getOrZero (histogram l) k = count_occ string_dec l k.
Proof.
  induction l as [|x l IH] using rev_ind; [reflexivity|].
  rewrite histogram_snoc, getOrZero_increment, IH, count_occ_app.
  cbn [count_occ].
  destruct (string_dec k x), (string_dec x k); try congruence; lia.
Qed.

Lemma sum_histogram l : sum (Map_values (histogram l)) = List.length l.
Proof.
  induction l as [|x l IH] using rev_ind; [reflexivity|].
  rewrite histogram_snoc, sum_increment, IH, length_app. cbn. lia.
Qed.

(** An entry of a histogram holds the number of occurrences of its key,
    which is at least one. *)
Lemma In_histogram l k c :
  In (k, c) (histogram l) ->
  In k l /\ c = count_occ string_dec l k /\ (1 <= c)%nat.
Proof.
  intros Hin.
  assert (Hk : In k l).
  { apply In_firstAppearances. rewrite <- Map_keys_histogram.
    apply in_map_iff. now exists (k, c). }
  assert (Hc : c = count_occ string_dec l k).
  { rewrite <- getOrZero_histogram. unfold getOrZero.
    rewrite (In_Map_get k c (histogram l)); [reflexivity| |assumption].
    rewrite Map_keys_histogram. apply NoDup_firstAppearances. }
  repeat split; try assumption.
  rewrite Hc. now apply (proj1 (count_occ_In string_dec l k)).
Qed.

Lemma fold_left_map_key {B} (f : StrMap nat -> string -> StrMap nat)
      (g : B -> string) (l : list B) m :
  fold_left (fun m b => f m (g b)) l m = fold_left f (map g l) m.
Proof.
  revert m. induction l as [|b l IH]; intros m; [reflexivity|].
  cbn [fold_left map]. apply IH.
Qed.

Lemma connectionCount_histogram edges :
  connectionCount edges = histogram (endpoints edges).
Proof.
  induction edges as [|e edges IH] using rev_ind; [reflexivity|].
  rewrite connectionCount_snoc, endpoints_snoc, IH. unfold histogram.
  now rewrite fold_left_app.
Qed.

Lemma seriesMap_histogram nodes : seriesMap nodes = histogram (seriesNamesOf nodes).
Proof.
  unfold seriesMap, histogram, seriesNamesOf.
  generalize ([] : StrMap nat).
  induction nodes as [|n nodes IH]; intros m; [reflexivity|].
  cbn [filter]. destruct (truthy_string (series n)) eqn:E; [|apply IH].
  cbn [fold_left map]. destruct (series n) as [s|]; [apply IH|discriminate].
Qed.

End HistogramFacts.

(** ** The connection ranking *)

Section ConnectionRanking.

Import JS Graph Analytics Ranking.

Variable nodes : NodeRecord.
Variable edges : list Edge.

Local Abbreviation byConnections :=
  (fun c => Z.of_nat (NodeConnection.connections c)).
Local Abbreviation counted k :=
  (fun id => (count_occ string_dec (endpoints edges) id =? k)%nat).
Local Abbreviation connected k :=
  (fun c => (NodeConnection.connections c =? k)%nat).

Lemma StronglySorted_weaken {A} (R S : A -> A -> Prop) l :
  (forall a b, R a b -> S a b) -> StronglySorted R l -> StronglySorted S l.
Proof.
  intros H Hs. induction Hs as [|a l Hs IH Hall]; constructor; [assumption|].
  eapply Forall_impl; [|exact Hall]. intros b. apply H.
Qed.

Lemma nodeConnections_ranked :
  nodeConnections nodes edges
  = sort_desc byConnections
              (map (ranked nodes) (histogram (endpoints edges))).
Proof. unfold nodeConnections. now rewrite connectionCount_histogram. Qed.

Lemma nodeConnections_sorted :
  StronglySorted
    (fun a b => (NodeConnection.connections b <= NodeConnection.connections a)%nat)
    (nodeConnections nodes edges).
Proof.
  rewrite nodeConnections_ranked.
  eapply StronglySorted_weaken; [|apply sort_desc_sorted].
  unfold descending. intros a b H. cbv beta in H. lia.
Qed.

Lemma length_nodeConnections :
  List.length (nodeConnections nodes edges)
  = List.length (nodup string_dec (endpoints edges)).
Proof.
  unfold nodeConnections.
  now rewrite length_sort_desc, length_map, length_connectionCount.
Qed.

(** A ranked entry is an id at the end of an edge with the number of edge
    ends that name it. *)
Lemma In_nodeConnections_inv c :
  In c (nodeConnections nodes edges) ->
  In (NodeConnection.nodeId c) (endpoints edges)
  /\ NodeConnection.connections c
     = count_occ string_dec (endpoints edges) (NodeConnection.nodeId c)
  /\ (1 <= NodeConnection.connections c)%nat
  /\ NodeConnection.label c = labelOrId nodes (NodeConnection.nodeId c).
Proof.
  rewrite nodeConnections_ranked. intros Hin. apply In_sort_desc in Hin.
  apply in_map_iff in Hin. destruct Hin as [[k v] [<- Hin]].
  apply In_histogram in Hin. cbn. tauto.
Qed.

Lemma map_fst_filter_snd (f : string -> nat) k (m : StrMap nat) :
  (forall id c, In (id, c) m -> c = f id) ->
  map fst (filter (fun e => (snd e =? k)%nat) m)
  = filter (fun id => (f id =? k)%nat) (map fst m).
Proof.
  induction m as [|[id c] m IH]; intros H; [reflexivity|].
  cbn [filter map fst snd]. rewrite (H id c) by now left.
  destruct (f id =? k)%nat; cbn [map fst]; rewrite IH;
    try reflexivity; intros id' c' Hin; apply H; now right.
Qed.

(** The ids with [k] connections are ranked in the order in which they
    first occur at the end of an edge. *)
Lemma ties_in_nodeConnections k :
  map NodeConnection.nodeId (filter (connected k) (nodeConnections nodes edges))
  = filter (counted k) (firstAppearances (endpoints edges)).
Proof.
  rewrite nodeConnections_ranked.
  rewrite (filter_ext_bool (connected k)
             (fun c => (byConnections c =? Z.of_nat k)%Z)).
  2:{ intros c. destruct (Nat.eqb_spec (NodeConnection.connections c) k);
        [apply eq_sym, Z.eqb_eq|apply eq_sym, Z.eqb_neq]; lia. }
  rewrite sort_desc_stable, filter_map_swap, map_map.
  cbn [ranked NodeConnection.nodeId NodeConnection.connections].
  rewrite (filter_ext_bool _ (fun e => (snd e =? k)%nat)).
  2:{ intros e. destruct (Nat.eqb_spec (snd e) k);
        [apply Z.eqb_eq|apply Z.eqb_neq]; lia. }
  rewrite <- Map_keys_histogram. unfold Map_keys.
  apply map_fst_filter_snd. intros id c Hin. now apply In_histogram in Hin.
Qed.

Lemma StronglySorted_skipn {A} (R : A -> A -> Prop) n l :
  StronglySorted R l -> StronglySorted R (skipn n l).
Proof.
  intros Hs. rewrite <- (firstn_skipn n l) in Hs.
  now apply StronglySorted_app in Hs.
Qed.

Lemma StronglySorted_firstn {A} (R : A -> A -> Prop) n l :
  StronglySorted R l -> StronglySorted R (firstn n l).
Proof.
  intros Hs. rewrite <- (firstn_skipn n l) in Hs.
  now apply StronglySorted_app in Hs.
Qed.

(** X21.  [mostConnected] and [leastConnected] each hold the smaller of
    five and the number of distinct ids at the ends of the edges, the
    first with the largest count in front and the second with the
    smallest; each entry is an id at the end of an edge with the number
    of edge ends that name it (at least one) and the label of its node or
    the id itself; and an id that was left out of [mostConnected] has no
    more connections than any entry of it, and one left out of
    [leastConnected] no fewer. *)
Theorem connection_ranking :
  let stats := calculateEdgeStats nodes edges in
  let most := EdgeStats.mostConnected stats in
  let least := EdgeStats.leastConnected stats in
  let distinct := List.length (nodup string_dec (endpoints edges)) in
  List.length most = Nat.min 5 distinct
  /\ List.length least = Nat.min 5 distinct
  /\ StronglySorted
       (fun a b => (NodeConnection.connections b
                    <= NodeConnection.connections a)%nat) most
  /\ StronglySorted
       (fun a b => (NodeConnection.connections a
                    <= NodeConnection.connections b)%nat) least
  /\ (forall c, In c most \/ In c least ->
        In (NodeConnection.nodeId c) (endpoints edges)
        /\ NodeConnection.connections c
           = count_occ string_dec (endpoints edges) (NodeConnection.nodeId c)
        /\ (1 <= NodeConnection.connections c)%nat
        /\ NodeConnection.label c = labelOrId nodes (NodeConnection.nodeId c))
  /\ (forall id, In id (endpoints edges) ->
        (exists c, In c most /\ NodeConnection.nodeId c = id)
        \/ forall c, In c most ->
             (count_occ string_dec (endpoints edges) id
              <= NodeConnection.connections c)%nat)
  /\ (forall id, In id (endpoints edges) ->
        (exists c, In c least /\ NodeConnection.nodeId c = id)
        \/ forall c, In c least ->
             (NodeConnection.connections c
              <= count_occ string_dec (endpoints edges) id)%nat).
Proof.
  cbv zeta. unfold calculateEdgeStats.
  cbn [EdgeStats.mostConnected EdgeStats.leastConnected].
  unfold slice_to, slice_last.
  set (l := nodeConnections nodes edges).
  pose proof nodeConnections_sorted as Hsorted. fold l in Hsorted.
  pose proof length_nodeConnections as Hlen. fold l in Hlen.
  set (n := (List.length l - 5)%nat) in *.
  split; [|split; [|split; [|split; [|split; [|split]]]]].
  - rewrite length_firstn. lia.
  - rewrite length_rev, length_skipn. lia.
  - now apply StronglySorted_firstn.
  - apply (StronglySorted_rev _ (skipn n l)). now apply StronglySorted_skipn.
  - intros c Hc. apply In_nodeConnections_inv. fold l.
    destruct Hc as [Hc|Hc].
    + now apply In_slice_to in Hc.
    + apply in_rev in Hc. rewrite <- (firstn_skipn n l).
      apply in_or_app. now right.
  - intros id Hid.
    pose proof (In_nodeConnections nodes edges id Hid) as Hin. fold l in Hin.
    rewrite <- (firstn_skipn 5 l) in Hin, Hsorted.
    apply in_app_or in Hin. destruct Hin as [Hin|Hin].
    + left. eexists. split; [exact Hin|reflexivity].
    + right. intros c Hc.
      apply StronglySorted_app in Hsorted. destruct Hsorted as (_ & _ & H).
      apply (H c _ Hc Hin).
  - intros id Hid.
    pose proof (In_nodeConnections nodes edges id Hid) as Hin. fold l in Hin.
    rewrite <- (firstn_skipn n l) in Hin, Hsorted.
    apply in_app_or in Hin. destruct Hin as [Hin|Hin].
    + right. intros c Hc. apply in_rev in Hc.
      apply StronglySorted_app in Hsorted. destruct Hsorted as (_ & _ & H).
      apply (H _ c Hin Hc).
    + left. eexists. split; [apply in_rev; rewrite rev_involutive; exact Hin|].
      reflexivity.
Qed.

(** X22.  Ids with the same number of connections keep the order in which
    they first occur at the end of an edge: the ids with [k] connections
    in [mostConnected] are the first of them in that order, and those in
    [leastConnected] are the last of them, listed backwards. *)
Theorem connection_ties_by_first_appearance k :
  let stats := calculateEdgeStats nodes edges in
  let inOrder := filter (counted k) (firstAppearances (endpoints edges)) in
  (exists later,
      inOrder
      = map NodeConnection.nodeId
            (filter (connected k) (EdgeStats.mostConnected stats)) ++ later)
  /\ (exists earlier,
         inOrder
         = earlier
             ++ rev (map NodeConnection.nodeId
                         (filter (connected k) (EdgeStats.leastConnected stats)))).
Proof.
  cbv zeta. unfold calculateEdgeStats.
  cbn [EdgeStats.mostConnected EdgeStats.leastConnected].
  unfold slice_to, slice_last. rewrite <- ties_in_nodeConnections.
  set (l := nodeConnections nodes edges). split.
  - exists (map NodeConnection.nodeId (filter (connected k) (skipn 5 l))).
    rewrite <- map_app, <- filter_app. now rewrite firstn_skipn.
  - set (n := (List.length l - 5)%nat).
    exists (map NodeConnection.nodeId (filter (connected k) (firstn n l))).
    rewrite filter_rev, map_rev, rev_involutive.
    rewrite <- map_app, <- filter_app. now rewrite firstn_skipn.
Qed.

End ConnectionRanking.

(** ** Node counts *)

Section NodeCounts.

Import JS Graph Analytics Ranking.

Lemma count_le {A} (p : A -> bool) l : (count p l <= List.length l)%nat.
Proof. apply filter_length_le. Qed.

Lemma count_cons {A} (p : A -> bool) a l :
  count p (a :: l) = ((if p a then 1 else 0) + count p l)%nat.
Proof. unfold count. cbn [filter]. now destruct (p a). Qed.

(** X23.  The three counts by type leave out exactly the nodes whose type
    is none of [book], [author] and [theme], and no other count exceeds
    the total. *)
Theorem node_counts_partition (nodes : list Node) :
  let stats := calculateNodeStats nodes in
  NodeStats.total stats
  = (NodeStats.byType_book stats + NodeStats.byType_author stats
     + NodeStats.byType_theme stats
     + count (fun n => negb ((type n =? "book") || (type n =? "author")
                             || (type n =? "theme"))%string) nodes)%nat
  /\ (NodeStats.withImages stats <= NodeStats.total stats)%nat
  /\ (NodeStats.withDescriptions stats <= NodeStats.total stats)%nat
  /\ (NodeStats.withSeries stats <= NodeStats.total stats)%nat.
Proof.
  cbv zeta. unfold calculateNodeStats.
  cbn [NodeStats.total NodeStats.byType_book NodeStats.byType_author
       NodeStats.byType_theme NodeStats.withImages NodeStats.withDescriptions
       NodeStats.withSeries].
  split; [|repeat split; apply count_le].
  induction nodes as [|n nodes IH]; [reflexivity|].
  rewrite !count_cons. cbn [List.length]. rewrite IH.
  destruct (String.eqb_spec (type n) "book") as [E|_];
    [rewrite E; cbn; lia|].
  destruct (String.eqb_spec (type n) "author") as [E|_];
    [rewrite E; cbn; lia|].
  destruct (type n =? "theme"); cbn; lia.
Qed.

End NodeCounts.

(** ** Publication years *)

Section TemporalFacts.

Import JS Graph Analytics Ranking.

Lemma parse_digits_uint d rest a :
  parse_digits (NilEmpty.string_of_uint d ++ rest) (Some (Z.of_nat a))
  = parse_digits rest (Some (Z.of_nat (Nat.of_uint_acc d a))).
Proof.
  revert a. induction d; intros a;
    cbn [NilEmpty.string_of_uint append Nat.of_uint_acc]; [reflexivity|..];
    cbn [parse_digits];
    match goal with
    | |- context [digit_of ?c] =>
        let v := eval vm_compute in (digit_of c) in change (digit_of c) with v
    end;
    cbv iota; rewrite <- IHd; do 2 f_equal; rewrite Nat.tail_mul_spec; lia.
Qed.

Lemma parse_digits_start d rest :
  d <> Decimal.Nil ->
  parse_digits (NilEmpty.string_of_uint d ++ rest) None
  = parse_digits (NilEmpty.string_of_uint d ++ rest) (Some 0%Z).
Proof. destruct d; intros H; [congruence|..]; reflexivity. Qed.

Lemma to_uint_not_Nil n : Nat.to_uint n <> Decimal.Nil.
Proof.
  intros E. pose proof (DecimalNat.Unsigned.of_to n) as H.
  rewrite E in H. cbn in H. subst n. discriminate E.
Qed.

Lemma parse_digits_nat_toString n :
  parse_digits (nat_toString n ++ "s") None = Some (Z.of_nat n).
Proof.
  unfold nat_toString.
  rewrite parse_digits_start by apply to_uint_not_Nil.
  rewrite (parse_digits_uint _ _ 0).
  change (Nat.of_uint_acc (Nat.to_uint n) 0) with (Nat.of_uint (Nat.to_uint n)).
  now rewrite DecimalNat.Unsigned.of_to.
Qed.

Lemma nat_toString_no_sign n rest :
  parseInt (nat_toString n ++ rest) = parse_digits (nat_toString n ++ rest) None.
Proof.
  unfold nat_toString. pose proof (to_uint_not_Nil n) as H.
  destruct (Nat.to_uint n); [congruence|..]; reflexivity.
Qed.

(** [parseInt] reads the decade back from its label. *)
Lemma parseInt_decade z : parseInt (int_toString z ++ "s") = Some z.
Proof.
  destruct z as [|p|p]; cbn [int_toString].
  - reflexivity.
  - rewrite nat_toString_no_sign, parse_digits_nat_toString.
    now rewrite positive_nat_Z.
  - cbn [append parseInt]. rewrite parse_digits_nat_toString.
    cbn [option_map]. now rewrite positive_nat_Z.
Qed.

Lemma decadeLabel_decadeOf y :
  decadeLabel y = (int_toString (decadeOf y) ++ "s")%string.
Proof. reflexivity. Qed.

Lemma byDecade_decadeLabel y c : byDecade (decadeLabel y, c) = decadeOf y.
Proof.
  unfold byDecade. cbn [fst]. now rewrite decadeLabel_decadeOf, parseInt_decade.
Qed.

Lemma decadeLabel_inj y1 y2 :
  decadeLabel y1 = decadeLabel y2 -> decadeOf y1 = decadeOf y2.
Proof.
  intros H. rewrite <- (byDecade_decadeLabel y1 0), H.
  apply byDecade_decadeLabel.
Qed.

Lemma fold_min_spec ys y :
  In (fold_left Z.min ys y) (y :: ys)
  /\ forall z, In z (y :: ys) -> (fold_left Z.min ys y <= z)%Z.
Proof.
  revert y. induction ys as [|x ys IH]; intros y; cbn [fold_left].
  - split; [now left|]. intros z [<-|[]]. lia.
  - destruct (IH (Z.min y x)) as [Hin Hle]. split.
    + destruct Hin as [Hin|Hin]; [|now right; right].
      rewrite <- Hin.
      destruct (Z.min_spec y x) as [[_ E]|[_ E]]; rewrite E;
        [now left|now right; left].
    + pose proof (Hle _ (or_introl eq_refl)) as Hmin.
      intros z [<-|[<-|Hz]]; [lia|lia|]. apply Hle. now right.
Qed.

Lemma fold_max_spec ys y :
  In (fold_left Z.max ys y) (y :: ys)
  /\ forall z, In z (y :: ys) -> (z <= fold_left Z.max ys y)%Z.
Proof.
  revert y. induction ys as [|x ys IH]; intros y; cbn [fold_left].
  - split; [now left|]. intros z [<-|[]]. lia.
  - destruct (IH (Z.max y x)) as [Hin Hle]. split.
    + destruct Hin as [Hin|Hin]; [|now right; right].
      rewrite <- Hin.
      destruct (Z.max_spec y x) as [[_ E]|[_ E]]; rewrite E;
        [now right; left|now left].
    + pose proof (Hle _ (or_introl eq_refl)) as Hmax.
      intros z [<-|[<-|Hz]]; [lia|lia|]. apply Hle. now right.
Qed.

(** The years that enter the statistics are the non-zero years of the
    nodes. *)
Lemma years_dated nodes y :
  In y (map yearOf (dated nodes))
  <-> exists n, In n nodes /\ publicationYear n = Some y /\ y <> 0%Z.
Proof.
  rewrite in_map_iff. unfold dated, yearOf. split.
  - intros [n [Hy Hn]]. apply filter_In in Hn. destruct Hn as [Hn Ht].
    exists n. destruct (publicationYear n) as [z|]; [|discriminate].
    subst z. repeat split; try assumption. intros ->. discriminate.
  - intros [n (Hn & Hy & Hnz)]. exists n. rewrite Hy.
    split; [reflexivity|]. apply filter_In. split; [assumption|].
    rewrite Hy. cbn [truthy_int]. now apply negb_true_iff, Z.eqb_neq.
Qed.

Lemma calculateTemporalStats_years nodes :
  calculateTemporalStats nodes
  = match map yearOf (dated nodes) with
    | [] => TemporalStats.mk None None 0 []
    | y :: ys =>
        TemporalStats.mk
          (Some (fold_left Z.min ys y)) (Some (fold_left Z.max ys y))
          (fold_left Z.max ys y - fold_left Z.min ys y)
          (sort_asc byDecade (histogram (map decadeLabel (y :: ys))))
    end.
Proof.
  unfold calculateTemporalStats, histogram. cbv zeta.
  change (map _ (filter _ nodes)) with (map yearOf (dated nodes)).
  destruct (map yearOf (dated nodes)) as [|y ys]; [reflexivity|].
  f_equal. f_equal.
  apply (fold_left_map_key (fun m k => increment k m) decadeLabel).
Qed.

(** X24.  With no node that has a non-zero publication year the years are
    [null], the range is 0 and no decade is listed.  Otherwise
    [earliestYear] and [latestYear] are the years of two nodes, never 0,
    every non-zero year of a node lies between them, and [yearRange] is
    their difference. *)
Theorem publication_year_range (nodes : list Node) :
  let stats := calculateTemporalStats nodes in
  match TemporalStats.earliestYear stats, TemporalStats.latestYear stats with
  | Some lo, Some hi =>
      (exists n, In n nodes /\ publicationYear n = Some lo)
      /\ (exists n, In n nodes /\ publicationYear n = Some hi)
      /\ (forall n y, In n nodes -> publicationYear n = Some y -> y <> 0%Z ->
                      (lo <= y <= hi)%Z)
      /\ lo <> 0%Z /\ hi <> 0%Z
      /\ TemporalStats.yearRange stats = (hi - lo)%Z
  | None, None =>
      (forall n, In n nodes ->
                 publicationYear n = None \/ publicationYear n = Some 0%Z)
      /\ TemporalStats.yearRange stats = 0%Z
      /\ TemporalStats.booksPerDecade stats = []
  | _, _ => False
  end.
Proof.
  cbv zeta. rewrite calculateTemporalStats_years.
  pose proof (years_dated nodes) as Hyears.
  destruct (map yearOf (dated nodes)) as [|y ys];
    cbn [TemporalStats.earliestYear TemporalStats.latestYear
         TemporalStats.yearRange TemporalStats.booksPerDecade].
  - repeat split. intros n Hn.
    destruct (publicationYear n) as [z|] eqn:E; [right|now left].
    destruct (Z.eq_dec z 0) as [->|Hz]; [reflexivity|].
    exfalso. apply (proj2 (Hyears z)). now exists n.
  - destruct (fold_min_spec ys y) as [Hlo Hmin].
    destruct (fold_max_spec ys y) as [Hhi Hmax].
    apply Hyears in Hlo, Hhi.
    destruct Hlo as (nlo & Hnlo & Elo & Hlo0).
    destruct Hhi as (nhi & Hnhi & Ehi & Hhi0).
    repeat split; eauto.
    + apply Hmin. apply Hyears. eauto.
    + apply Hmax. apply Hyears. eauto.
Qed.

Lemma Permutation_insert_desc {A} (key : A -> Z) x l :
  Permutation (insert_desc key x l) (x :: l).
Proof.
  induction l as [|y l IH]; cbn [insert_desc]; [reflexivity|].
  destruct (key y <=? key x)%Z; [reflexivity|].
  rewrite IH. apply perm_swap.
Qed.

Lemma Permutation_sort_desc {A} (key : A -> Z) a :
  Permutation (sort_desc key a) a.
Proof.
  induction a as [|x a IH]; [reflexivity|]. cbn [sort_desc fold_right].
  rewrite Permutation_insert_desc. now constructor.
Qed.

Lemma sorted_le_NoDup_lt l :
  StronglySorted Z.le l -> NoDup l -> StronglySorted Z.lt l.
Proof.
  induction l as [|a l IH]; intros Hs Hnd; [constructor|].
  inversion Hs as [|? ? Hrest Hall]; subst.
  inversion Hnd as [|? ? Ha Hnd']; subst.
  constructor; [now apply IH|].
  rewrite Forall_forall in *. intros b Hb.
  specialize (Hall b Hb). assert (a <> b) by congruence. lia.
Qed.

Lemma StronglySorted_map {A B} (f : A -> B) (R : B -> B -> Prop) l :
  StronglySorted (fun a b => R (f a) (f b)) l -> StronglySorted R (map f l).
Proof.
  intros Hs. induction Hs as [|a l Hs IH Hall]; cbn [map]; constructor;
    [assumption|]. now apply Forall_map.
Qed.

Lemma count_occ_decade l y :
  count_occ string_dec (map decadeLabel (map yearOf l)) (decadeLabel y)
  = count (fun n => (decadeOf (yearOf n) =? decadeOf y)%Z) l.
Proof.
  induction l as [|n l IH]; [reflexivity|].
  cbn [map count_occ]. rewrite count_cons, IH.
  destruct (string_dec (decadeLabel (yearOf n)) (decadeLabel y)) as [E|E].
  - apply decadeLabel_inj in E. rewrite E, Z.eqb_refl. reflexivity.
  - destruct (Z.eqb_spec (decadeOf (yearOf n)) (decadeOf y)) as [E'|_];
      [|reflexivity].
    exfalso. apply E. now rewrite !decadeLabel_decadeOf, E'.
Qed.

Lemma booksPerDecade_sorted_histogram nodes :
  TemporalStats.booksPerDecade (calculateTemporalStats nodes)
  = sort_asc byDecade (histogram (map decadeLabel (map yearOf (dated nodes)))).
Proof.
  rewrite calculateTemporalStats_years.
  now destruct (map yearOf (dated nodes)).
Qed.

(** An entry of [booksPerDecade] is the entry of the decade of a dated
    node. *)
Lemma In_booksPerDecade nodes e :
  In e (TemporalStats.booksPerDecade (calculateTemporalStats nodes)) ->
  exists n, In n (dated nodes)
            /\ e = decadeEntry nodes (decadeOf (yearOf n))
            /\ byDecade e = decadeOf (yearOf n).
Proof.
  rewrite booksPerDecade_sorted_histogram. unfold sort_asc.
  intros Hin. apply In_sort_desc in Hin. destruct e as [d c].
  apply In_histogram in Hin. destruct Hin as (Hd & Hc & _).
  apply in_map_iff in Hd. destruct Hd as [y [<- Hy]].
  apply in_map_iff in Hy. destruct Hy as [n [<- Hn]].
  exists n. split; [assumption|]. split; [|apply byDecade_decadeLabel].
  unfold decadeEntry. rewrite Hc, count_occ_decade. reflexivity.
Qed.

(** X25.  [booksPerDecade] lists the decades that hold a node with a
    non-zero publication year, each once and in increasing order, with
    the label of the decade and the number of such nodes in it. *)
Theorem booksPerDecade_by_decade (nodes : list Node) :
  exists starts,
    TemporalStats.booksPerDecade (calculateTemporalStats nodes)
    = map (decadeEntry nodes) starts
    /\ StronglySorted Z.lt starts
    /\ (forall start,
          In start starts
          <-> exists n, In n (dated nodes) /\ decadeOf (yearOf n) = start).
Proof.
  pose proof (In_booksPerDecade nodes) as Hentry.
  pose proof (booksPerDecade_sorted_histogram nodes) as Hsort.
  set (decades := TemporalStats.booksPerDecade (calculateTemporalStats nodes))
    in *.
  set (h := histogram (map decadeLabel (map yearOf (dated nodes)))) in *.
  exists (map byDecade decades).
  assert (Hmap : decades = map (decadeEntry nodes) (map byDecade decades)).
  { rewrite map_map. transitivity (map (fun e => e) decades);
      [now rewrite map_id|].
    apply map_ext_in. intros e He.
    destruct (Hentry e He) as (n & _ & Heq & Hby). now rewrite Hby. }
  split; [exact Hmap|]. split.
  - apply sorted_le_NoDup_lt.
    + apply StronglySorted_map. rewrite Hsort. unfold sort_asc.
      eapply StronglySorted_weaken; [|apply sort_desc_sorted].
      unfold descending. intros a b H. cbv beta in H. lia.
    + assert (Hnd : NoDup (map fst decades)).
      { rewrite Hsort. unfold sort_asc.
        eapply Permutation_NoDup.
        - apply Permutation_map. symmetry. apply Permutation_sort_desc.
        - change (map fst h) with (Map_keys h). unfold h.
          rewrite Map_keys_histogram. apply NoDup_firstAppearances. }
      pose proof (f_equal (map fst) Hmap) as Hfst.
      rewrite map_map in Hfst. rewrite Hfst in Hnd.
      now apply NoDup_map_inv in Hnd.
  - intros start. rewrite in_map_iff. split.
    + intros [e [<- He]]. destruct (Hentry e He) as (n & Hn & _ & Hby).
      exists n. now split.
    + intros [n [Hn <-]].
      assert (Hkey : In (decadeLabel (yearOf n)) (Map_keys h)).
      { unfold h. rewrite Map_keys_histogram. apply In_firstAppearances.
        apply in_map. now apply in_map. }
      apply in_map_iff in Hkey. destruct Hkey as [[d c] [Hd Hin]].
      cbn [fst] in Hd. subst d.
      exists (decadeLabel (yearOf n), c). split;
        [apply byDecade_decadeLabel|].
      rewrite Hsort. unfold sort_asc. now apply In_sort_desc.
Qed.

End TemporalFacts.

(** ** The series distribution *)

Section SeriesFacts.

Import JS Graph Analytics Ranking.

Lemma sum_app l1 l2 : sum (l1 ++ l2) = (sum l1 + sum l2)%nat.
Proof.
  unfold sum. rewrite fold_left_app.
  now rewrite (fold_add_init l2 (fold_left Nat.add l1 0)).
Qed.

Lemma sum_Permutation l l' : Permutation l l' -> sum l = sum l'.
Proof.
  intros H. induction H as [|x l l' _ IH|x y l|l l' l'' _ IH1 _ IH2].
  - reflexivity.
  - now rewrite !sum_cons, IH.
  - rewrite !sum_cons. lia.
  - now rewrite IH1.
Qed.

Lemma length_histogram l :
  List.length (histogram l) = List.length (nodup string_dec l).
Proof.
  replace (List.length (histogram l))
    with (List.length (Map_keys (histogram l)))
    by (unfold Map_keys; apply length_map).
  rewrite Map_keys_histogram.
  apply Nat.le_antisymm; apply NoDup_incl_length;
    try apply NoDup_firstAppearances; try apply NoDup_nodup; intros k Hk.
  - apply nodup_In. now apply In_firstAppearances.
  - apply In_firstAppearances. now apply nodup_In in Hk.
Qed.

Lemma In_seriesNamesOf nodes s :
  In s (seriesNamesOf nodes)
  <-> s <> "" /\ exists n, In n nodes /\ series n = Some s.
Proof.
  unfold seriesNamesOf. rewrite in_map_iff. split.
  - intros [n [Hs Hn]]. apply filter_In in Hn. destruct Hn as [Hn Ht].
    destruct (series n) as [s'|] eqn:E; [|discriminate]. subst s'.
    cbn [truthy_string] in Ht. apply negb_true_iff in Ht.
    apply String.eqb_neq in Ht. split; [assumption|]. now exists n.
  - intros [Hs [n [Hn E]]]. exists n. rewrite E. split; [reflexivity|].
    apply filter_In. split; [assumption|]. rewrite E. cbn [truthy_string].
    now apply negb_true_iff, String.eqb_neq.
Qed.

(** X26.  [totalSeries] is the number of distinct non-empty series names.
    [seriesDistribution] holds the smaller of ten and that number of
    them, the most frequent in front, each non-empty with the number of
    nodes of that series; its counts never add up to more than
    [withSeries], and add up to it unless there are more than ten
    series. *)
Theorem series_distribution (nodes : list Node) (edges : list Edge) :
  let stats := calculateContentStats nodes edges in
  let distribution := ContentStats.seriesDistribution stats in
  let withSeries := NodeStats.withSeries (calculateNodeStats nodes) in
  ContentStats.totalSeries stats
  = List.length (nodup string_dec (seriesNamesOf nodes))
  /\ List.length distribution = Nat.min 10 (ContentStats.totalSeries stats)
  /\ StronglySorted (fun a b => (snd b <= snd a)%nat) distribution
  /\ Forall (fun entry =>
               fst entry <> ""
               /\ snd entry
                  = count_occ string_dec (seriesNamesOf nodes) (fst entry)
               /\ (1 <= snd entry)%nat) distribution
  /\ (sum (Map_values distribution) <= withSeries)%nat
  /\ ((10 < ContentStats.totalSeries stats)%nat
      \/ sum (Map_values distribution) = withSeries).
Proof.
  cbv zeta. unfold calculateContentStats, calculateNodeStats.
  cbn [ContentStats.totalSeries ContentStats.seriesDistribution
       NodeStats.withSeries].
  rewrite seriesMap_histogram. unfold slice_to.
  set (names := seriesNamesOf nodes).
  set (l := sort_desc byCount (histogram names)).
  assert (Hsum : sum (Map_values l) = count (fun n => truthy_string (series n)) nodes).
  { unfold Map_values, l.
    rewrite (sum_Permutation _ (map snd (histogram names)))
      by apply Permutation_map, Permutation_sort_desc.
    fold (Map_values (histogram names)). rewrite sum_histogram.
    unfold names, seriesNamesOf, count. apply length_map. }
  assert (Hlen : List.length l = List.length (histogram names))
    by apply length_sort_desc.
  split; [apply length_histogram|]. split; [|split; [|split; [|split]]].
  - rewrite length_firstn. lia.
  - apply StronglySorted_firstn.
    eapply StronglySorted_weaken; [|apply sort_desc_sorted].
    unfold descending, byCount. intros a b H. cbv beta in H. lia.
  - apply Forall_forall. intros [s c] Hin. apply In_slice_to in Hin.
    apply In_sort_desc in Hin. apply In_histogram in Hin.
    destruct Hin as (Hs & Hc & Hpos). cbn [fst snd].
    apply In_seriesNamesOf in Hs. tauto.
  - rewrite <- Hsum. rewrite <- (firstn_skipn 10 l) at 2.
    unfold Map_values. rewrite map_app, sum_app. lia.
  - destruct (Nat.leb_spec (List.length l) 10) as [Hle|Hgt].
    + right. now rewrite firstn_all2.
    + left. lia.
Qed.

End SeriesFacts.

(** ** Bar widths of the analytics panel *)

Section PanelFacts.

Import JS Graph Analytics Ranking Panel.

Lemma inject_nat_pos n : (0 < n)%nat -> (0 < inject_Z (Z.of_nat n))%Q.
Proof. intros H. unfold Qlt. cbn. lia. Qed.

Lemma ratio_percent (c t : nat) :
  (0 < t)%nat -> (c <= t)%nat ->
  (0 <= inject_Z (Z.of_nat c) / inject_Z (Z.of_nat t) * 100 <= 100)%Q.
Proof.
  intros Ht Hc.
  assert (Hq : (0 <= inject_Z (Z.of_nat c) / inject_Z (Z.of_nat t) <= 1)%Q).
  { split.
    - apply Qle_shift_div_l; [now apply inject_nat_pos|].
      rewrite Qmult_0_l. unfold Qle. cbn. lia.
    - apply Qle_shift_div_r; [now apply inject_nat_pos|].
      rewrite Qmult_1_l. unfold Qle. cbn. lia. }
  lra.
Qed.

Lemma div_of_nat (c t : nat) :
  (0 < t)%nat ->
  div (of_nat c) (of_nat t)
  = Finite (inject_Z (Z.of_nat c) / inject_Z (Z.of_nat t)).
Proof.
  intros Ht. unfold div, of_nat.
  destruct (Qeq_bool (inject_Z (Z.of_nat t)) 0) eqn:E; [|reflexivity].
  apply Qeq_bool_eq in E. pose proof (inject_nat_pos t Ht) as H.
  rewrite E in H. now apply Qlt_irrefl in H.
Qed.

Lemma barWidth_percent count total :
  (0 < total)%nat -> (count <= total)%nat ->
  exists q, barWidth count total = Finite q /\ (0 <= q <= 100)%Q.
Proof.
  intros Ht Hc. unfold barWidth. rewrite div_of_nat by assumption.
  eexists. split; [reflexivity|]. now apply ratio_percent.
Qed.

(** X28.  The panel divides each count by the number of nodes without
    testing it: for a snapshot without nodes the width of every breakdown
    and quality bar is [NaN]; with a node each width is a number from 0
    to 100. *)
Theorem bar_widths_of_node_stats (nodes : list Node) :
  let stats := calculateNodeStats nodes in
  Forall (fun count =>
            match nodes with
            | [] => barWidth count (NodeStats.total stats) = NaN
            | _ :: _ =>
                exists q, barWidth count (NodeStats.total stats) = Finite q
                          /\ (0 <= q <= 100)%Q
            end)
         [ NodeStats.byType_book stats; NodeStats.byType_author stats;
           NodeStats.byType_theme stats; NodeStats.withImages stats;
           NodeStats.withDescriptions stats ].
Proof.
  cbv zeta. unfold calculateNodeStats.
  cbn [NodeStats.total NodeStats.byType_book NodeStats.byType_author
       NodeStats.byType_theme NodeStats.withImages NodeStats.withDescriptions].
  destruct nodes as [|n nodes].
  - repeat constructor.
  - repeat constructor; apply barWidth_percent;
      try apply count_le; cbn [List.length]; lia.
Qed.

Lemma fold_max_nat_spec rest c :
  In (fold_left Nat.max rest c) (c :: rest)
  /\ forall x, In x (c :: rest) -> (x <= fold_left Nat.max rest c)%nat.
Proof.
  revert c. induction rest as [|y rest IH]; intros c; cbn [fold_left].
  - split; [now left|]. intros x [<-|[]]. lia.
  - destruct (IH (Nat.max c y)) as [Hin Hle]. split.
    + destruct Hin as [Hin|Hin]; [|now right; right].
      rewrite <- Hin.
      destruct (Nat.max_spec c y) as [[_ E]|[_ E]]; rewrite E;
        [now right; left|now left].
    + pose proof (Hle _ (or_introl eq_refl)) as Hmax.
      intros x [<-|[<-|Hx]]; [lia|lia|]. apply Hle. now right.
Qed.

(** X29.  The longest decade bar is 100 wide and every decade bar is wider
    than 0 and at most 100: the division by the largest count is never a
    division by zero, because a listed decade holds a node. *)
Theorem decade_bar_widths (nodes : list Node) :
  let decades := TemporalStats.booksPerDecade (calculateTemporalStats nodes) in
  Forall (fun entry =>
            exists q, decadeWidth decades (snd entry) = Finite q
                      /\ (0 < q <= 100)%Q) decades
  /\ (decades = []
      \/ Exists (fun entry =>
                   number_eq (decadeWidth decades (snd entry)) (Finite 100))
                decades).
Proof.
  cbv zeta. pose proof (In_booksPerDecade nodes) as Hentry.
  set (decades := TemporalStats.booksPerDecade (calculateTemporalStats nodes))
    in *.
  assert (Hpos : forall d c, In (d, c) decades -> (1 <= c)%nat).
  { intros d c Hin. destruct (Hentry _ Hin) as (n & Hn & Heq & _).
    unfold decadeEntry in Heq. injection Heq as _ ->.
    unfold count. destruct (filter_In
      (fun m => (decadeOf (yearOf m) =? decadeOf (yearOf n))%Z) n (dated nodes))
      as [_ H].
    specialize (H (conj Hn (Z.eqb_refl _))).
    destruct (filter _ (dated nodes)); [contradiction|cbn; lia]. }
  unfold decadeWidth, Math_max.
  destruct decades as [|[d0 c0] rest] eqn:E; [split; [constructor|now left]|].
  cbn [map snd]. rewrite <- E in *.
  destruct (fold_max_nat_spec (map snd rest) c0) as [Hin Hmax].
  set (top := fold_left Nat.max (map snd rest) c0) in *.
  change (c0 :: map snd rest) with (map snd ((d0, c0) :: rest)) in Hin, Hmax.
  rewrite <- E in Hin, Hmax.
  assert (Htop : (1 <= top)%nat).
  { apply in_map_iff in Hin. destruct Hin as [[d c] [Hc Hdc]].
    cbn [snd] in Hc. rewrite <- Hc. now apply (Hpos d). }
  split.
  - apply Forall_forall. intros [d c] Hdc. cbn [snd].
    rewrite div_of_nat by lia. cbn [mul]. eexists. split; [reflexivity|].
    assert (Hc : (c <= top)%nat) by (apply Hmax; now apply (in_map snd) in Hdc).
    pose proof (Hpos d c Hdc) as Hc1.
    split; [|now apply ratio_percent].
    apply Qmult_lt_0_compat; [|reflexivity].
    apply Qlt_shift_div_l; [apply inject_nat_pos; lia|].
    rewrite Qmult_0_l. apply inject_nat_pos. lia.
  - right. apply Exists_exists. apply in_map_iff in Hin.
    destruct Hin as [[d c] [Hc Hdc]]. cbn [snd] in Hc.
    exists (d, c). split; [assumption|]. cbn [snd]. rewrite Hc.
    rewrite div_of_nat by lia. cbn [mul number_eq].
    assert (H : ~ inject_Z (Z.of_nat top) == 0).
    { intros H0. pose proof (inject_nat_pos top ltac:(lia)) as Hlt.
      rewrite H0 in Hlt. now apply Qlt_irrefl in Hlt. }
    field. exact H.
Qed.

End PanelFacts.

(** ** Reading the other counts back from an export *)

Section ExportCounts.

Import JS Analytics CSV.

Ltac row_tac H :=
  solve [ exact I
        | repeat split
        | apply lacks_nat_toString; cbv; lia
        | apply H ].

(** X27.  When the host prints no number with a line break in it, reading
    the rows ["Books"], ["Authors"], ["Themes"], ["With Images"] and
    ["Clusters"] back from the export of any statistics gives the counts
    they were written from. *)
Theorem exportStatsAsCSV_counts_roundtrip
        (Number_toString : number -> string) (stats : GraphStats.t) :
  (forall x, lacks (ascii_of_nat 10) (Number_toString x)) ->
  let text := exportStatsAsCSV Number_toString stats in
  valueOf "Books" text = Some (NodeStats.byType_book (GraphStats.nodes stats))
  /\ valueOf "Authors" text
     = Some (NodeStats.byType_author (GraphStats.nodes stats))
  /\ valueOf "Themes" text
     = Some (NodeStats.byType_theme (GraphStats.nodes stats))
  /\ valueOf "With Images" text
     = Some (NodeStats.withImages (GraphStats.nodes stats))
  /\ valueOf "Clusters" text
     = Some (ConnectivityStats.clusters (GraphStats.connectivity stats)).
Proof.
  intros Hlf. cbv zeta. unfold exportStatsAsCSV, valueOf.
  cbv zeta. cbn [app]. rewrite !concat_cons.
  rewrite 3 rows_title by row_tac Hlf.
  change ("Total Nodes," ++ ?v)%string with ("Total Nodes" ++ String "," v)%string.
  change ("Books," ++ ?v)%string with ("Books" ++ String "," v)%string.
  change ("Authors," ++ ?v)%string with ("Authors" ++ String "," v)%string.
  change ("Themes," ++ ?v)%string with ("Themes" ++ String "," v)%string.
  change ("With Images," ++ ?v)%string
    with ("With Images" ++ String "," v)%string.
  change ("Total Edges," ++ ?v)%string
    with ("Total Edges" ++ String "," v)%string.
  change ("Average Connections," ++ ?v)%string
    with ("Average Connections" ++ String "," v)%string.
  change ("Average Degree," ++ ?v)%string
    with ("Average Degree" ++ String "," v)%string.
  change ("Density," ++ ?v)%string with ("Density" ++ String "," v)%string.
  change ("Clusters," ++ ?v)%string with ("Clusters" ++ String "," v)%string.
  rewrite 5 rows_row by row_tac Hlf.
  repeat (split;
          [cbn [find fst snd String.eqb Ascii.eqb Bool.eqb];
           apply parseNumber_nat_toString|]).
  rewrite 2 rows_title by row_tac Hlf.
  rewrite 2 rows_row by row_tac Hlf.
  rewrite 2 rows_title by row_tac Hlf.
  rewrite 3 rows_row by row_tac Hlf.
  cbn [find fst snd String.eqb Ascii.eqb Bool.eqb].
  apply parseNumber_nat_toString.
Qed.

End ExportCounts.

Lemma exportStatsAsCSV_counts_roundtrip_witness :
  (forall x : JS.number, CSV.lacks (ascii_of_nat 10) ((fun _ => "0") x))
  /\ CSV.valueOf "Clusters"
                 (Analytics.exportStatsAsCSV (fun _ => "0") sampleStats)
     = Some 1.
Proof.
  assert (H : forall x : JS.number,
             CSV.lacks (ascii_of_nat 10) ((fun _ => "0") x))
    by (intros x; split; [reflexivity|exact I]).
  split; [exact H|].
  exact (proj2 (proj2 (proj2 (proj2
           (exportStatsAsCSV_counts_roundtrip (fun _ => "0") sampleStats H))))).
Defined.

(** ** Isolated nodes *)

Section IsolatedNodes.

Import JS Graph Analytics.

Lemma count_values_keys {V} (p : V -> bool) (q : string -> bool)
      (m : StrMap V) :
  (forall k v, In (k, v) m -> p v = q k) ->
  count p (Map_values m) = count q (Map_keys m).
Proof.
  induction m as [|[k v] m IH]; intros H; [reflexivity|].
  cbn [Map_values Map_keys map fst snd]. rewrite !count_cons.
  rewrite (H k v) by now left. f_equal. apply IH.
  intros k' v' Hin. apply H. now right.
Qed.

Lemma endpoints_linked edges a :
  In a (endpoints edges) <-> exists b, linked edges a b.
Proof.
  unfold endpoints, linked. rewrite in_flat_map. split.
  - intros [e [He [<-|[<-|[]]]]].
    + exists (target e), e. tauto.
    + exists (source e), e. tauto.
  - intros [b [e [He [[<- _]|[_ <-]]]]]; exists e; cbn; tauto.
Qed.

(** X30.  For a node record with distinct keys, [isolatedNodes] is the
    number of nodes whose id is at neither end of any edge: an edge to an
    id that is no node, or from a node to itself, is enough for the node
    not to count as isolated. *)
Theorem isolatedNodes_have_no_edge_end nodes edges :
  NoDup (Object_keys nodes) ->
  exists stats,
    calculateGraphStats nodes edges = Some stats
    /\ ConnectivityStats.isolatedNodes (GraphStats.connectivity stats)
       = count (fun nodeId => negb (Set_has nodeId (endpoints edges)))
               (Object_keys nodes).
Proof.
  intros Hnd.
  destruct (launch_roots_represent nodes edges) as (roots & Hstats & _).
  unfold calculateGraphStats. rewrite Hstats. eexists. split; [reflexivity|].
  cbn [GraphStats.connectivity ConnectivityStats.isolatedNodes].
  unfold isolatedNodes.
  rewrite <- (Map_keys_buildAdjacency nodes edges Hnd).
  apply count_values_keys. intros k ns Hin.
  assert (Hkey : In k (Object_keys nodes)).
  { rewrite <- (Map_keys_buildAdjacency nodes edges Hnd).
    unfold Map_keys. apply in_map_iff. now exists (k, ns). }
  apply In_Map_get in Hin; [|apply NoDup_Map_keys_buildAdjacency].
  destruct (Map_get_buildAdjacency nodes edges k Hkey) as (ns' & Hget & Hchar).
  rewrite Hin in Hget. injection Hget as <-.
  unfold Set_has. destruct ns as [|b ns]; cbn [List.length Nat.eqb].
  - symmetry. apply negb_true_iff, existsb_eqb_not_In.
    intros Hend. apply endpoints_linked in Hend. destruct Hend as [b Hb].
    now apply Hchar in Hb.
  - symmetry. apply negb_false_iff, existsb_eqb_In.
    apply endpoints_linked. exists b. apply Hchar. now left.
Qed.

End IsolatedNodes.

Lemma isolatedNodes_have_no_edge_end_witness :
  NoDup (Graph.Object_keys starNodes)
  /\ exists stats,
      Analytics.calculateGraphStats starNodes danglingEdge = Some stats
      /\ ConnectivityStats.isolatedNodes (GraphStats.connectivity stats) = 2.
Proof.
  assert (Hnd : NoDup (Graph.Object_keys starNodes)).
  { repeat constructor; simpl; intuition discriminate. }
  split; [exact Hnd|].
  destruct (isolatedNodes_have_no_edge_end starNodes danglingEdge Hnd)
    as (stats & Hstats & Hisolated).
  exists stats. split; [exact Hstats|]. exact Hisolated.
Defined.
